(** * ShannonCode: the arithmetic coder of [Shannon.cpp]

    A shallow embedding of the order-0 static arithmetic coder
    ([calculateFrequencies], [buildCumulativeFreq], [writeBitVector],
    [readBitVector], [compressFile], [decompressFile], [main]) and the
    properties of it that the specification states, followed by further
    properties of the code.

    Conventions of the embedding:
    - a [uint32_t] is a [Z] in [0, 2^32); every operation writes its
      wrap-around out ([add32], [sub32], [mul32], [shl1]);
    - a [char] and a file byte are a [Byte.byte]; the order of [char] values,
      which [std::map<char, _>] iterates in, depends on whether [char] is
      signed on the platform, so it is the parameter [char_signed];
    - a [std::map<char, V>] is an association list kept sorted by [char]
      value, iterated front to back;
    - a [while (true)] loop takes fuel; running out of it is [OutOfFuel];
    - what C++ leaves undefined (division by zero, reading a variable a
      failed stream read left untouched) is a [Fault]. *)

From Stdlib Require Import ZArith List Bool Lia Arith PeanoNat.
From Stdlib Require Import Strings.Byte.
From Stdlib Require Import Sorting.Sorted Lists.Finite.
From Stdlib Require Strings.String.
Import ListNotations.

Local Open Scope Z_scope.

(** ** Outcomes of a run *)

Inductive fault : Type :=
| DivisionByZero
| IndeterminateRead.

Inductive result (A : Type) : Type :=
| Ok (a : A)
| Fault (f : fault)
| OutOfFuel.

Arguments Ok {A} a.
Arguments Fault {A} f.
Arguments OutOfFuel {A}.

Definition bind {A B : Type} (r : result A) (k : A -> result B) : result B :=
  match r with
  | Ok a => k a
  | Fault f => Fault f
  | OutOfFuel => OutOfFuel
  end.

Notation "x <- r ;; k" := (bind r (fun x => k))
  (at level 61, r at next level, right associativity).
Notation "' p <- r ;; k" := (bind r (fun p => k))
  (at level 61, p pattern, r at next level, right associativity).

(** ** 32-bit unsigned arithmetic *)

Definition wrap32 (z : Z) : Z := z mod 2 ^ 32.
Definition add32 (a b : Z) : Z := wrap32 (a + b).
Definition sub32 (a b : Z) : Z := wrap32 (a - b).
Definition mul32 (a b : Z) : Z := wrap32 (a * b).
(** [x << 1] on a [uint32_t]. *)
Definition shl1 (a : Z) : Z := wrap32 (Z.shiftl a 1).
(** [a / b]; C++ leaves [b = 0] undefined. *)
Definition div32 (a b : Z) : result Z :=
  if b =? 0 then Fault DivisionByZero else Ok (a / b).

(** ** Constants (lines 13-17) *)

Definition MAX_FREQ : Z := 16383.
Definition TOP : Z := 65535.
Definition FIRST_QTR : Z := (TOP + 1) / 4.
Definition HALF : Z := 2 * FIRST_QTR.
Definition THIRD_QTR : Z := 3 * FIRST_QTR.

(** ** Characters and bytes *)

Definition byte_val (b : byte) : Z := Z.of_N (Byte.to_N b).

Definition byte_of_Z (z : Z) : byte :=
  match Byte.of_N (Z.to_N (z mod 256)) with
  | Some b => b
  | None => x00
  end.

(** A [uint32_t] written with [out.write(reinterpret_cast<const char*>(&x), 4)]
    on a little-endian machine, and read back with [in.read]. *)
Definition le32 (x : Z) : list byte :=
  [byte_of_Z x; byte_of_Z (x / 2 ^ 8); byte_of_Z (x / 2 ^ 16); byte_of_Z (x / 2 ^ 24)].

Definition read_u32 (input : list byte) : result (Z * list byte) :=
  match input with
  | b0 :: b1 :: b2 :: b3 :: rest =>
      Ok (byte_val b0 + 2 ^ 8 * byte_val b1 + 2 ^ 16 * byte_val b2
          + 2 ^ 24 * byte_val b3, rest)
  | _ => Fault IndeterminateRead
  end.

(** [in.get(c)] into an uninitialised [char]. *)
Definition read_char (input : list byte) : result (byte * list byte) :=
  match input with
  | c :: rest => Ok (c, rest)
  | [] => Fault IndeterminateRead
  end.

Record SymbolRange : Type := mkRange {
  sr_low : Z;
  sr_high : Z;
  sr_count : Z
}.

Section Coder.

(** Whether plain [char] is a signed type (it is on x86 with GCC, Clang and
    MSVC, it is not on ARM Linux). *)
Variable char_signed : bool.

(** The integer value of a [char] holding the byte [b]. *)
Definition char_val (b : byte) : Z :=
  if char_signed && (128 <=? byte_val b) then byte_val b - 256 else byte_val b.

Definition char_ltb (a b : byte) : bool := char_val a <? char_val b.

(** *** [std::map<char, V>] *)

Section CharMap.
Context {V : Type}.

Definition cmap : Type := list (byte * V).

Fixpoint map_find (c : byte) (m : cmap) : option V :=
  match m with
  | [] => None
  | (k, v) :: m' => if Byte.eqb c k then Some v else map_find c m'
  end.

(** [m[c] = v]: replaces the value of an existing key, otherwise inserts the
    key at its place in the order. *)
Fixpoint map_set (c : byte) (v : V) (m : cmap) : cmap :=
  match m with
  | [] => [(c, v)]
  | (k, w) :: m' =>
      if Byte.eqb c k then (c, v) :: m'
      else if char_ltb c k then (c, v) :: (k, w) :: m'
      else (k, w) :: map_set c v m'
  end.

(** [m[c]] as an rvalue: a missing key is inserted with the default value. *)
Definition map_index (dflt : V) (c : byte) (m : cmap) : V * cmap :=
  match map_find c m with
  | Some v => (v, m)
  | None => (dflt, map_set c dflt m)
  end.

Definition keys (m : cmap) : list byte := map fst m.

End CharMap.

(** *** [calculateFrequencies] (lines 25-31) *)

Definition count_char (freq : @cmap Z) (current_char : byte) : @cmap Z :=
  let (n, freq1) := map_index 0 current_char freq in
  if n <? MAX_FREQ then map_set current_char (add32 n 1) freq1 else freq1.

Definition calculateFrequencies (text : list byte) : @cmap Z :=
  fold_left count_char text [].

(** *** [buildCumulativeFreq] (lines 44-52) *)

Definition sum_counts (freq : @cmap Z) : Z :=
  fold_left (fun total pair => add32 total (snd pair)) freq 0.

Fixpoint build_ranges (freq : @cmap Z) (total cumulative : Z)
    (ranges : @cmap SymbolRange) : @cmap SymbolRange :=
  match freq with
  | [] => ranges
  | (c, n) :: freq' =>
      build_ranges freq' total (add32 cumulative n)
        (map_set c (mkRange cumulative (add32 cumulative n) total) ranges)
  end.

Definition buildCumulativeFreq (freq : @cmap Z) : @cmap SymbolRange * Z :=
  let total := sum_counts freq in
  (build_ranges freq total 0 [], total).

(** *** Bit sink: [writeBitVector] (lines 54-73) *)

Definition wrap8 (z : Z) : Z := z mod 2 ^ 8.
Definition bit_val (b : bool) : Z := if b then 1 else 0.

(** The loop over [bits] with its two locals, then the flush of a partial
    last byte. *)
Fixpoint pack_bits (bits : list bool) (byte bit_count : Z) : list Byte.byte :=
  match bits with
  | [] =>
      if 0 <? bit_count
      then [byte_of_Z (wrap8 (Z.shiftl byte (8 - bit_count)))]
      else []
  | bit :: bits' =>
      let byte := wrap8 (Z.lor (Z.shiftl byte 1) (bit_val bit)) in
      let bit_count := bit_count + 1 in
      if bit_count =? 8
      then byte_of_Z byte :: pack_bits bits' 0 0
      else pack_bits bits' byte bit_count
  end.

Definition writeBitVector (bits : list bool) : list Byte.byte :=
  le32 (wrap32 (Z.of_nat (length bits))) ++ pack_bits bits 0 0.

(** *** Bit source: [readBitVector] (lines 75-87) *)

(** The inner [for] loop: [n] is [i + 1], [size] is [bits.size()]. *)
Fixpoint byte_bits (n : nat) (c : Byte.byte) (bitSize size : Z) : list bool :=
  match n with
  | O => []
  | S i =>
      if size <? bitSize
      then Z.testbit (char_val c) (Z.of_nat i) :: byte_bits i c bitSize (size + 1)
      else []
  end.

Fixpoint read_bits (input : list Byte.byte) (bitSize size : Z) : list bool :=
  match input with
  | [] => []
  | c :: rest =>
      if size <? bitSize
      then
        let bs := byte_bits 8 c bitSize size in
        bs ++ read_bits rest bitSize (size + Z.of_nat (length bs))
      else []
  end.

Definition readBitVector (input : list Byte.byte) : result (list bool) :=
  '(bitSize, rest) <- read_u32 input;;
  Ok (read_bits rest bitSize 0).

(** *** The coder state and its two shared operations *)

Record coder : Type := mkCoder {
  low : Z;
  high : Z;
  pending_bits : Z
}.

Definition init_coder : coder := mkCoder 0 TOP 0.

Definition range_of (lo hi : Z) : Z := add32 (sub32 hi lo) 1.

(** Lines 109-113 and 213, 226-228: [high] is computed first, from the old
    [low]. *)
Definition narrow (lo hi : Z) (r : SymbolRange) : result (Z * Z) :=
  let range := range_of lo hi in
  qh <- div32 (mul32 range (sr_high r)) (sr_count r);;
  ql <- div32 (mul32 range (sr_low r)) (sr_count r);;
  Ok (add32 lo ql, sub32 (add32 lo qh) 1).

(** *** Encoder (lines 103-151) *)

(** One pass through the body of [while (true)]: the new state and the bits
    pushed, or [None] at [break]. *)
Definition enc_renorm_step (s : coder) : option (coder * list bool) :=
  if high s <? HALF then
    Some (mkCoder (shl1 (low s)) (Z.lor (shl1 (high s)) 1) 0,
          false :: repeat true (Z.to_nat (pending_bits s)))
  else if HALF <=? low s then
    Some (mkCoder (shl1 (sub32 (low s) HALF))
                  (Z.lor (shl1 (sub32 (high s) HALF)) 1) 0,
          true :: repeat false (Z.to_nat (pending_bits s)))
  else if (FIRST_QTR <=? low s) && (high s <? THIRD_QTR) then
    Some (mkCoder (shl1 (sub32 (low s) FIRST_QTR))
                  (Z.lor (shl1 (sub32 (high s) FIRST_QTR)) 1)
                  (add32 (pending_bits s) 1),
          [])
  else None.

Fixpoint enc_renorm (fuel : nat) (s : coder) : result (coder * list bool) :=
  match enc_renorm_step s with
  | None => Ok (s, [])
  | Some (s1, bits1) =>
      match fuel with
      | O => OutOfFuel
      | S fuel' =>
          '(s2, bits2) <- enc_renorm fuel' s1;;
          Ok (s2, bits1 ++ bits2)
      end
  end.

Definition no_range : SymbolRange := mkRange 0 0 0.

(** The body of the loop over [text] for one character. *)
Definition encode_symbol (fuel : nat) (ranges : @cmap SymbolRange)
    (current_char : Byte.byte) (s : coder)
    : result (@cmap SymbolRange * coder * list bool) :=
  let (current_range, ranges1) := map_index no_range current_char ranges in
  '(lo, hi) <- narrow (low s) (high s) current_range;;
  '(s1, bits) <- enc_renorm fuel (mkCoder lo hi (pending_bits s));;
  Ok (ranges1, s1, bits).

Fixpoint encode_loop (fuel : nat) (ranges : @cmap SymbolRange)
    (text : list Byte.byte) (s : coder) : result (coder * list bool) :=
  match text with
  | [] => Ok (s, [])
  | current_char :: text' =>
      '(ranges1, s1, bits1) <- encode_symbol fuel ranges current_char s;;
      '(s2, bits2) <- encode_loop fuel ranges1 text' s1;;
      Ok (s2, bits1 ++ bits2)
  end.

(** Lines 143-151. *)
Definition final_bits (s : coder) : list bool :=
  let pending := add32 (pending_bits s) 1 in
  if low s <? FIRST_QTR
  then false :: repeat true (Z.to_nat pending)
  else true :: repeat false (Z.to_nat pending).

(** The whole of [output_bits]. *)
Definition encode_bits (fuel : nat) (text : list Byte.byte) : result (list bool) :=
  let (ranges, total) := buildCumulativeFreq (calculateFrequencies text) in
  '(s, bits) <- encode_loop fuel ranges text init_coder;;
  Ok (bits ++ final_bits s).

(** *** Container writer (lines 153-163) *)

Definition write_table (freq : @cmap Z) : list Byte.byte :=
  flat_map (fun pair => fst pair :: le32 (snd pair)) freq.

Definition write_container (freq : @cmap Z) (text_size : Z) (bits : list bool)
    : list Byte.byte :=
  le32 (wrap32 (Z.of_nat (length freq))) ++ write_table freq
    ++ le32 text_size ++ writeBitVector bits.

Definition compressFile (fuel : nat) (text : list Byte.byte) : result (list Byte.byte) :=
  output_bits <- encode_bits fuel text;;
  Ok (write_container (calculateFrequencies text)
        (wrap32 (Z.of_nat (length text))) output_bits).

(** *** Decoder (lines 178-254) *)

Fixpoint read_table (n : nat) (input : list Byte.byte) (freq : @cmap Z)
    : result (@cmap Z * list Byte.byte) :=
  match n with
  | O => Ok (freq, input)
  | S n' =>
      '(current_char, in1) <- read_char input;;
      '(frequency, in2) <- read_u32 in1;;
      read_table n' in2 (map_set current_char frequency freq)
  end.

(** The decoder's registers; [unread] is [bits] from [bit_index] on. *)
Record decoder : Type := mkDecoder {
  d_low : Z;
  d_high : Z;
  value : Z;
  unread : list bool
}.

(** Lines 204-208. *)
Fixpoint prime (n : nat) (v : Z) (bits : list bool) : Z * list bool :=
  match n, bits with
  | S n', b :: bits' => prime n' (Z.lor (shl1 v) (bit_val b)) bits'
  | _, _ => (v, bits)
  end.

(** Lines 248-250. *)
Definition pull_bit (v : Z) (bits : list bool) : Z * list bool :=
  match bits with
  | b :: bits' => (Z.lor v (bit_val b), bits')
  | [] => (v, [])
  end.

Definition dec_renorm_step (s : decoder) : option decoder :=
  let shifted :=
    if d_high s <? HALF then
      Some (shl1 (d_low s), Z.lor (shl1 (d_high s)) 1, shl1 (value s))
    else if HALF <=? d_low s then
      Some (shl1 (sub32 (d_low s) HALF), Z.lor (shl1 (sub32 (d_high s) HALF)) 1,
            shl1 (sub32 (value s) HALF))
    else if (FIRST_QTR <=? d_low s) && (d_high s <? THIRD_QTR) then
      Some (shl1 (sub32 (d_low s) FIRST_QTR),
            Z.lor (shl1 (sub32 (d_high s) FIRST_QTR)) 1,
            shl1 (sub32 (value s) FIRST_QTR))
    else None in
  match shifted with
  | Some (lo, hi, v) =>
      let (v', bits') := pull_bit v (unread s) in
      Some (mkDecoder lo hi v' bits')
  | None => None
  end.

Fixpoint dec_renorm (fuel : nat) (s : decoder) : result decoder :=
  match dec_renorm_step s with
  | None => Ok s
  | Some s1 =>
      match fuel with
      | O => OutOfFuel
      | S fuel' => dec_renorm fuel' s1
      end
  end.

(** Lines 216-223: the first range in map order that holds [scaled_value]. *)
Fixpoint scan (ranges : @cmap SymbolRange) (scaled_value : Z) : option Byte.byte :=
  match ranges with
  | [] => None
  | (c, r) :: ranges' =>
      if (sr_low r <=? scaled_value) && (scaled_value <? sr_high r)
      then Some c
      else scan ranges' scaled_value
  end.

(** [char symbol = 0] stays when the scan matches nothing. *)
Definition scan_symbol (ranges : @cmap SymbolRange) (scaled_value : Z) : Byte.byte :=
  match scan ranges scaled_value with
  | Some c => c
  | None => x00
  end.

Definition scaled_of (s : decoder) (total : Z) : result Z :=
  let range := range_of (d_low s) (d_high s) in
  div32 (sub32 (mul32 (add32 (sub32 (value s) (d_low s)) 1) total) 1) range.

(** One iteration of the loop over [i]: the symbol appended to [result] and
    the state after renormalisation. *)
Definition decode_symbol (fuel : nat) (ranges : @cmap SymbolRange) (total : Z)
    (s : decoder) : result (@cmap SymbolRange * Byte.byte * decoder) :=
  scaled_value <- scaled_of s total;;
  let symbol := scan_symbol ranges scaled_value in
  let (current_range, ranges1) := map_index no_range symbol ranges in
  '(lo, hi) <- narrow (d_low s) (d_high s) current_range;;
  s1 <- dec_renorm fuel (mkDecoder lo hi (value s) (unread s));;
  Ok (ranges1, symbol, s1).

(** The loop over [i], [n] iterations from the registers [s]: the bytes
    appended to [result] and the registers at exit. *)
Fixpoint decode_loop (fuel : nat) (ranges : @cmap SymbolRange) (total : Z)
    (n : nat) (s : decoder) : result (list Byte.byte * decoder) :=
  match n with
  | O => Ok ([], s)
  | S n' =>
      '(ranges1, symbol, s1) <- decode_symbol fuel ranges total s;;
      '(rest, s2) <- decode_loop fuel ranges1 total n' s1;;
      Ok (symbol :: rest, s2)
  end.

Definition init_decoder (bits : list bool) : decoder :=
  let (v, rest) := prime 16 0 bits in mkDecoder 0 TOP v rest.

Definition decode_bits (fuel : nat) (freq : @cmap Z) (text_size : Z)
    (bits : list bool) : result (list Byte.byte) :=
  let (ranges, total) := buildCumulativeFreq freq in
  '(out, _) <- decode_loop fuel ranges total (Z.to_nat text_size)
                 (init_decoder bits);;
  Ok out.

Definition decompressFile (fuel : nat) (input : list Byte.byte) : result (list Byte.byte) :=
  '(freq_size, in1) <- read_u32 input;;
  '(freq, in2) <- read_table (Z.to_nat freq_size) in1 [];;
  '(text_size, in3) <- read_u32 in2;;
  bits <- readBitVector in3;;
  decode_bits fuel freq text_size bits.

End Coder.

(** ** Predicates the statements use *)

Definition char_lt (char_signed : bool) (a b : byte) : Prop :=
  char_val char_signed a < char_val char_signed b.

(** The keys of a [std::map<char, V>] are strictly ascending by [char] value. *)
Definition map_sorted {V : Type} (char_signed : bool) (m : @cmap V) : Prop :=
  StronglySorted (char_lt char_signed) (keys m).

(** Ascending byte-value order, 0 to 255. *)
Definition byte_lt (a b : byte) : Prop := byte_val a < byte_val b.

(** How often [c] occurs in [text]. *)
Definition occurrences (c : byte) (text : list byte) : Z :=
  Z.of_nat (count_occ Byte.byte_eq_dec text c).

Ltac byte_cases a b :=
  let E := fresh "E" in
  destruct (Byte.eqb a b) eqn:E;
  [apply Byte.byte_dec_bl in E; try subst | apply Byte.eqb_false in E].

(** The count recorded for [c], 0 when [c] has no entry. *)
Definition count_of (m : @cmap Z) (c : byte) : Z :=
  match map_find c m with
  | Some n => n
  | None => 0
  end.

(** The FrequencyEntry invariant of the data model. *)
Definition counts_ok (m : @cmap Z) : Prop :=
  forall c n, In (c, n) m -> 0 < n <= MAX_FREQ.

(** The ranges [buildCumulativeFreq] stores, listed in the order of [freq]. *)
Fixpoint ranges_from (freq : @cmap Z) (total cumulative : Z) : @cmap SymbolRange :=
  match freq with
  | [] => []
  | (c, n) :: freq' =>
      (c, mkRange cumulative (add32 cumulative n) total)
        :: ranges_from freq' total (add32 cumulative n)
  end.

(** The table the decoder's loop of lines 185-191 builds from the entries it
    reads. *)
Definition table_of_entries (char_signed : bool) (entries : list (byte * Z)) : @cmap Z :=
  fold_left (fun m pair => map_set char_signed (fst pair) (snd pair) m) entries [].

Definition zsum (l : list Z) : Z := fold_right Z.add 0 l.

(** Consecutive half-open intervals from [lo] up to [hi], none of them
    empty, in list order. *)
Fixpoint tiles (lo : Z) (ranges : list SymbolRange) (hi : Z) : Prop :=
  match ranges with
  | [] => lo = hi
  | r :: rest => sr_low r = lo /\ sr_low r < sr_high r /\ tiles (sr_high r) rest hi
  end.

Definition in_range (r : SymbolRange) (v : Z) : Prop := sr_low r <= v < sr_high r.

(** The input of the specification's concrete scenario, ["AAAABBBCCD"]. *)
Definition sample_text : list byte :=
  [x41; x41; x41; x41; x42; x42; x42; x43; x43; x44].

Definition sample_table : @cmap Z := [(x41, 4); (x42, 3); (x43, 2); (x44, 1)].

(** The [n] low bits of the [char] holding [c], most significant first. *)
Definition msb_bits (char_signed : bool) (n : nat) (c : byte) : list bool :=
  map (fun i => Z.testbit (char_val char_signed c) (Z.of_nat i)) (rev (seq 0 n)).

(** The container of [sample_text] with its payload cut after the first of
    its three bytes: 19 bits are declared, 8 are present. *)
Definition truncated_container : list byte :=
  le32 4 ++ write_table sample_table ++ le32 10 ++ le32 19 ++ [x03].

(** A container whose third decoding step computes a scaled value that lies
    in no range of its table. *)
Definition nomatch_table : @cmap Z := [(x00, 32767); (x02, 3); (x03, 32767)].

Definition nomatch_bits : list bool :=
  [true; true; false; false; false; false; false; true;
   false; false; false; true; true; true; false; true].

Definition nomatch_container : list byte :=
  write_container nomatch_table 3 nomatch_bits.

(** ** The encoder in the words of the specification (sections 4.2, 4.3)

    The specification's numbers are integers: nothing wraps around here,
    [/] is the truncating division of integers, a shift left by one is a
    doubling and [| 1] after it adds one.  The three renormalisation cases
    are tried in the order the specification lists them, so that exactly
    one applies. *)
Module Spec.

(** Section 4.2: each symbol, in the order of the table, gets the interval
    [[cumulativeBefore, cumulativeBefore + count)], and all share the total,
    the sum of the counts. *)
Fixpoint cumulative (freq : list (byte * Z)) (total cumulativeBefore : Z)
    : list (byte * SymbolRange) :=
  match freq with
  | [] => []
  | (symbol, count) :: freq' =>
      (symbol, mkRange cumulativeBefore (cumulativeBefore + count) total)
        :: cumulative freq' total (cumulativeBefore + count)
  end.

Definition ranges_of (freq : list (byte * Z)) : list (byte * SymbolRange) :=
  cumulative freq (zsum (map snd freq)) 0.

Definition E1 (s : coder) : Prop := high s < HALF.
Definition E2 (s : coder) : Prop := HALF <= low s.
Definition E3 (s : coder) : Prop := FIRST_QTR <= low s /\ high s < THIRD_QTR.

(** Steps 1 and 2: [range = high - low + 1], then
    [high = low + range*symbolHigh/total - 1] and
    [low = low + range*symbolLow/total]. *)
Definition narrowed (s : coder) (r : SymbolRange) : coder :=
  let range := high s - low s + 1 in
  mkCoder (low s + Z.quot (range * sr_low r) (sr_count r))
          (low s + Z.quot (range * sr_high r) (sr_count r) - 1)
          (pending_bits s).

(** Emit [b], then [n] times its complement. *)
Definition bit_plus_pending (b : bool) (n : Z) : list bool :=
  b :: repeat (negb b) (Z.to_nat n).

(** Step 3: renormalise until none of E1, E2, E3 holds; the bits emitted on
    the way, in emission order. *)
Inductive renormalizes : coder -> list bool -> coder -> Prop :=
| R_none s :
    ~ E1 s -> ~ E2 s -> ~ E3 s -> renormalizes s [] s
| R_E1 s bits s' :
    E1 s ->
    renormalizes (mkCoder (2 * low s) (2 * high s + 1) 0) bits s' ->
    renormalizes s (bit_plus_pending false (pending_bits s) ++ bits) s'
| R_E2 s bits s' :
    ~ E1 s -> E2 s ->
    renormalizes (mkCoder (2 * (low s - HALF)) (2 * (high s - HALF) + 1) 0)
                 bits s' ->
    renormalizes s (bit_plus_pending true (pending_bits s) ++ bits) s'
| R_E3 s bits s' :
    ~ E1 s -> ~ E2 s -> E3 s ->
    renormalizes (mkCoder (2 * (low s - FIRST_QTR))
                          (2 * (high s - FIRST_QTR) + 1)
                          (pending_bits s + 1)) bits s' ->
    renormalizes s bits s'.

(** Step 4: the resolving bit and [pendingBits + 1] complementary bits. *)
Definition resolving_bits (s : coder) : list bool :=
  if low s <? FIRST_QTR
  then bit_plus_pending false (pending_bits s + 1)
  else bit_plus_pending true (pending_bits s + 1).

(** Steps 1 to 4 over the symbols of the input, in order; the division of
    step 2 is by a total that is not zero. *)
Inductive encodes (ranges : list (byte * SymbolRange))
    : list byte -> coder -> list bool -> Prop :=
| Enc_end s : encodes ranges [] s (resolving_bits s)
| Enc_symbol c text s r bits1 s1 bits2 :
    map_find c ranges = Some r ->
    sr_count r <> 0 ->
    renormalizes (narrowed s r) bits1 s1 ->
    encodes ranges text s1 bits2 ->
    encodes ranges (c :: text) s (bits1 ++ bits2).

End Spec.

(** ** The states a run passes through *)

(** The table of ranges and the total [compressFile] builds for [text]. *)
Definition enc_ranges (char_signed : bool) (text : list byte) : @cmap SymbolRange :=
  fst (buildCumulativeFreq char_signed (calculateFrequencies char_signed text)).

Definition enc_total (char_signed : bool) (text : list byte) : Z :=
  snd (buildCumulativeFreq char_signed (calculateFrequencies char_signed text)).

(** Where the registers are looked at: after their initialisation, after the
    narrowing for a symbol, after one E1, E2 or E3 step of the
    renormalisation loop. *)
Inductive point : Type := AfterInit | AfterNarrow | AfterStep.

(** [enc_visits sg text p s]: encoding [text], [compressFile] has the
    registers [s] at a point of kind [p].  The state at the head of the loop
    over [text] is the one [encode_loop] returns for a prefix of [text]. *)
Inductive enc_visits (char_signed : bool) (text : list byte) : point -> coder -> Prop :=
| EV_init : enc_visits char_signed text AfterInit init_coder
| EV_narrow fuel pre c post s bits lo hi :
    text = pre ++ c :: post ->
    encode_loop char_signed fuel (enc_ranges char_signed text) pre init_coder
      = Ok (s, bits) ->
    narrow (low s) (high s)
      (fst (map_index char_signed no_range c (enc_ranges char_signed text)))
      = Ok (lo, hi) ->
    enc_visits char_signed text AfterNarrow (mkCoder lo hi (pending_bits s))
| EV_step p s s1 bits :
    enc_visits char_signed text p s -> p <> AfterInit ->
    enc_renorm_step s = Some (s1, bits) ->
    enc_visits char_signed text AfterStep s1.

(** The same for [decompressFile] run on a table, a symbol count and a bit
    sequence. *)
Inductive dec_visits (char_signed : bool) (freq : @cmap Z) (text_size : Z)
    (bits : list bool) : point -> decoder -> Prop :=
| DV_init : dec_visits char_signed freq text_size bits AfterInit (init_decoder bits)
| DV_narrow fuel k out s scaled_value lo hi :
    (k < Z.to_nat text_size)%nat ->
    decode_loop char_signed fuel (fst (buildCumulativeFreq char_signed freq))
        (snd (buildCumulativeFreq char_signed freq)) k (init_decoder bits)
      = Ok (out, s) ->
    scaled_of s (snd (buildCumulativeFreq char_signed freq)) = Ok scaled_value ->
    narrow (d_low s) (d_high s)
      (fst (map_index char_signed no_range
              (scan_symbol (fst (buildCumulativeFreq char_signed freq)) scaled_value)
              (fst (buildCumulativeFreq char_signed freq))))
      = Ok (lo, hi) ->
    dec_visits char_signed freq text_size bits AfterNarrow
      (mkDecoder lo hi (value s) (unread s))
| DV_step p s s1 :
    dec_visits char_signed freq text_size bits p s -> p <> AfterInit ->
    dec_renorm_step s = Some s1 ->
    dec_visits char_signed freq text_size bits AfterStep s1.

(** [enc_multiplies sg text a b]: encoding [text], [compressFile] evaluates
    the product [a * b] (lines 112 and 113). *)
Inductive enc_multiplies (char_signed : bool) (text : list byte) : Z -> Z -> Prop :=
| EM_high fuel pre c post s bits :
    text = pre ++ c :: post ->
    encode_loop char_signed fuel (enc_ranges char_signed text) pre init_coder
      = Ok (s, bits) ->
    enc_multiplies char_signed text (range_of (low s) (high s))
      (sr_high (fst (map_index char_signed no_range c (enc_ranges char_signed text))))
| EM_low fuel pre c post s bits :
    text = pre ++ c :: post ->
    encode_loop char_signed fuel (enc_ranges char_signed text) pre init_coder
      = Ok (s, bits) ->
    enc_multiplies char_signed text (range_of (low s) (high s))
      (sr_low (fst (map_index char_signed no_range c (enc_ranges char_signed text)))).

(** The products [decompressFile] evaluates (lines 214, 227 and 228). *)
Inductive dec_multiplies (char_signed : bool) (freq : @cmap Z) (text_size : Z)
    (bits : list bool) : Z -> Z -> Prop :=
| DM_scaled fuel k out s :
    (k < Z.to_nat text_size)%nat ->
    decode_loop char_signed fuel (fst (buildCumulativeFreq char_signed freq))
        (snd (buildCumulativeFreq char_signed freq)) k (init_decoder bits)
      = Ok (out, s) ->
    dec_multiplies char_signed freq text_size bits
      (add32 (sub32 (value s) (d_low s)) 1)
      (snd (buildCumulativeFreq char_signed freq))
| DM_narrow fuel k out s scaled_value high_not_low :
    (k < Z.to_nat text_size)%nat ->
    decode_loop char_signed fuel (fst (buildCumulativeFreq char_signed freq))
        (snd (buildCumulativeFreq char_signed freq)) k (init_decoder bits)
      = Ok (out, s) ->
    scaled_of s (snd (buildCumulativeFreq char_signed freq)) = Ok scaled_value ->
    dec_multiplies char_signed freq text_size bits
      (range_of (d_low s) (d_high s))
      (let r := fst (map_index char_signed no_range
                       (scan_symbol (fst (buildCumulativeFreq char_signed freq))
                                    scaled_value)
                       (fst (buildCumulativeFreq char_signed freq))) in
       if high_not_low : bool then sr_high r else sr_low r).

(** The registers hold a proper 16-bit interval. *)
Definition sane (lo hi : Z) : Prop := 0 <= lo <= hi /\ hi <= TOP.

(** All counts of a table are positive. *)
Definition counts_pos (freq : @cmap Z) : Prop :=
  Forall (fun pair => 0 < snd pair) freq.

(** An input on which the encoder's interval collapses: 32767 bytes, of
    which one is 'a'. *)
Definition collapsing_text : list byte :=
  [x62; x62; x61] ++ repeat x62 16381 ++ repeat x63 16383.

(** A range as [buildCumulativeFreq] makes them from positive counts. *)
Definition valid_range (total : Z) (r : SymbolRange) : Prop :=
  0 <= sr_low r < sr_high r /\ sr_high r <= total /\ sr_count r = total.

Definition ranges_ok (ranges : @cmap SymbolRange) (total : Z) : Prop :=
  forall c r, map_find c ranges = Some r -> valid_range total r.

(** The interval has collapsed to [high = low - 1]. *)
Definition collapsed (s : coder) : Prop :=
  low s = high s + 1 /\ 1 <= low s <= TOP + 1.

(** [high] has wrapped around below 0. *)
Definition wrapped (s : coder) : Prop :=
  low s = 0 /\ high s = 2 ^ 32 - 1.

(** What [buildCumulativeFreq] establishes for a table of positive counts
    whose sum fits 32 bits. *)
Definition table_ok (ranges : @cmap SymbolRange) (total : Z) : Prop :=
  NoDup (keys ranges)
  /\ tiles 0 (map snd ranges) total
  /\ (forall c r, In (c, r) ranges -> sr_count r = total).

(** The decoder's registers hold a proper 16-bit interval and [value] lies
    in it. *)
Definition dec_ok (s : decoder) : Prop :=
  sane (d_low s) (d_high s) /\ d_low s <= value s <= d_high s.

(** The ranges [buildCumulativeFreq] makes for [collapsing_text]. *)
Definition collapsing_ranges : @cmap SymbolRange :=
  [(x61, mkRange 0 1 32767); (x62, mkRange 1 16384 32767);
   (x63, mkRange 16384 32767 32767)].

(** Every byte value once. *)
Definition all_bytes : list byte :=
  map (fun n => byte_of_Z (Z.of_nat n)) (seq 0 256).

(** An input in which every byte value occurs [MAX_FREQ] times. *)
Definition saturating_text : list byte :=
  flat_map (fun b => repeat b (Z.to_nat MAX_FREQ)) all_bytes.

(** An input of 65536 bytes over five byte values that begins with the last
    symbol of its alphabet. *)
Definition wrapping_text : list byte :=
  x05 :: repeat x01 16383 ++ repeat x02 16383 ++ repeat x03 16383
      ++ repeat x04 16383 ++ repeat x05 3.

Definition wrapping_ranges : @cmap SymbolRange :=
  [(x01, mkRange 0 16383 65536); (x02, mkRange 16383 32766 65536);
   (x03, mkRange 32766 49149 65536); (x04, mkRange 49149 65532 65536);
   (x05, mkRange 65532 65536 65536)].

(** The two-byte input ["AB"]. *)
Definition short_text : list byte := [x41; x42].

(** ** The decoder's view of the encoder's output *)

(** The number the first [n] bits of a sequence spell, most significant
    first, a missing bit counting as 0. *)
Fixpoint window (n : nat) (bits : list bool) : Z :=
  match n with
  | O => 0
  | S n' =>
      match bits with
      | [] => 0
      | b :: bits' => bit_val b * 2 ^ Z.of_nat n' + window n' bits'
      end
  end.

(** The value of the next bit of a sequence, 0 at its end. *)
Definition hdbit (bits : list bool) : Z :=
  match bits with
  | [] => 0
  | b :: _ => bit_val b
  end.

(** [frames p F V]: when the encoder has [p] bits pending and is going to
    emit [F], its next bit will be followed by [p] complements; [V] is [F]
    without them, the sequence in the frame of the current interval. *)
Definition frames (p : nat) (F V : list bool) : Prop :=
  exists b rest, F = b :: repeat (negb b) p ++ rest /\ V = b :: rest.

(** The decoder's registers when the interval is [lo, hi] and the sequence
    in its frame is [V]. *)
Definition decoder_at (lo hi : Z) (V : list bool) : decoder :=
  mkDecoder lo hi (window 16 V) (skipn 16 V).

(** The encoder's state at the head of its loop over the input, with
    [n] symbols left to encode. *)
Definition at_head (s : coder) (n : nat) : Prop :=
  sane (low s) (high s)
  /\ FIRST_QTR + 2 <= high s - low s + 1
  /\ low s < HALF <= high s
  /\ 0 <= pending_bits s
  /\ pending_bits s + 16 * Z.of_nat n + 2 < 2 ^ 32.

(** ** What the rest of [compressFile] and [main] do *)

(** Line 167: the number [compressFile] prints as the compressed size. *)
Definition compressed_size (output_bits : list bool) : Z :=
  (Z.of_nat (length output_bits) + 7) / 8.

(** The decoder [d'] is the decoder [d] with some zero bits appended to the
    bits it has not read yet. *)
Definition pads (d d' : decoder) : Prop :=
  d_low d' = d_low d /\ d_high d' = d_high d /\ value d' = value d
  /\ exists k, unread d' = unread d ++ repeat false k.

(** *** [main] (lines 264-308)

    The files are a [disk]: what an [ifstream] on a name reads and whether
    an [ofstream] on a name can be opened.  A name stands for the file it
    resolves to.  [filename] and [choice] are the two words [cin >>]
    extracts.  The input stream is opened first and read only inside
    [compressFile] or [decompressFile], after the output stream has been
    opened, which leaves the output file empty.  The result is the exit
    code and the disk at exit; what is printed is left out. *)
Module Program.
Import Stdlib.Strings.String.
Local Open Scope string_scope.

Record disk : Type := mkDisk {
  file : string -> option (list byte);
  creatable : string -> bool
}.

(** The bytes a stream opened on [name] delivers when it is read. *)
Definition contents (d : disk) (name : string) : list byte :=
  match file d name with
  | Some data => data
  | None => []
  end.

(** The file [name] holds [data]. *)
Definition store (name : string) (data : list byte) (d : disk) : disk :=
  mkDisk (fun n => if String.eqb n name then Some data else file d n)
         (creatable d).

(** [ofstream outFile(name, ios::binary)]: the file exists and is empty. *)
Definition create (name : string) (d : disk) : disk := store name [] d.

Definition encoded_txt : string := "encoded.txt".
Definition decoded_txt : string := "decoded.txt".
Definition compress_choice : string := "1".
Definition decompress_choice : string := "2".

Definition main (char_signed : bool) (fuel : nat) (filename choice : string)
    (d : disk) : result (Z * disk) :=
  match file d filename with
  | None => Ok (1, d)
  | Some _ =>
      if String.eqb choice compress_choice then
        if creatable d encoded_txt then
          let d1 := create encoded_txt d in
          container <- compressFile char_signed fuel (contents d1 filename);;
          Ok (0, store encoded_txt container d1)
        else Ok (1, d)
      else if String.eqb choice decompress_choice then
        if creatable d decoded_txt then
          let d1 := create decoded_txt d in
          out <- decompressFile char_signed fuel (contents d1 filename);;
          Ok (0, store decoded_txt out d1)
        else Ok (1, d)
      else Ok (1, d)
  end.

End Program.

(** * Properties *)

(** ** Machine arithmetic and bytes *)

Lemma wrap32_small z : 0 <= z < 2 ^ 32 -> wrap32 z = z.
Proof. intros H. unfold wrap32. now apply Z.mod_small. Qed.

Lemma wrap32_range z : 0 <= wrap32 z < 2 ^ 32.
Proof. unfold wrap32. apply Z.mod_pos_bound. reflexivity. Qed.

Lemma byte_val_range b : 0 <= byte_val b < 256.
Proof.
  unfold byte_val. pose proof (Byte.to_N_bounded b) as H.
  split; [apply N2Z.is_nonneg|]. lia.
Qed.

Lemma byte_val_inj a b : byte_val a = byte_val b -> a = b.
Proof.
  unfold byte_val. intros H. apply N2Z.inj in H.
  pose proof (Byte.of_to_N a) as Ha. rewrite H, Byte.of_to_N in Ha.
  congruence.
Qed.

Lemma byte_val_of_Z z : byte_val (byte_of_Z z) = z mod 256.
Proof.
  unfold byte_of_Z, byte_val.
  pose proof (Z.mod_pos_bound z 256 eq_refl) as Hz.
  destruct (Byte.of_N (Z.to_N (z mod 256))) as [b|] eqn:E.
  - apply Byte.to_of_N in E. rewrite E. apply Z2N.id. lia.
  - apply Byte.of_N_None_iff in E. lia.
Qed.

Lemma byte_of_Z_val b : byte_of_Z (byte_val b) = b.
Proof.
  apply byte_val_inj. rewrite byte_val_of_Z.
  apply Z.mod_small, byte_val_range.
Qed.

Lemma char_val_inj sg a b : char_val sg a = char_val sg b -> a = b.
Proof.
  unfold char_val. intros H. apply byte_val_inj.
  pose proof (byte_val_range a). pose proof (byte_val_range b).
  destruct sg; simpl in H; [|exact H].
  destruct (128 <=? byte_val a) eqn:Ea; destruct (128 <=? byte_val b) eqn:Eb; lia.
Qed.

Lemma char_val_unsigned b : char_val false b = byte_val b.
Proof. reflexivity. Qed.

Lemma eqb_refl c : Byte.eqb c c = true.
Proof. now apply Byte.byte_dec_lb. Qed.

Lemma eqb_neq a b : a <> b -> Byte.eqb a b = false.
Proof.
  intros H. destruct (Byte.eqb a b) eqn:E; [|reflexivity].
  apply Byte.byte_dec_bl in E. contradiction.
Qed.

Lemma read_u32_le32 x rest :
  0 <= x < 2 ^ 32 -> read_u32 (le32 x ++ rest) = Ok (x, rest).
Proof.
  intros H. cbv [le32 read_u32 app].
  rewrite !byte_val_of_Z. f_equal. f_equal.
  change 256 with (2 ^ 8).
  pose proof (Z.div_mod x (2 ^ 8) ltac:(lia)) as E0.
  pose proof (Z.div_mod (x / 2 ^ 8) (2 ^ 8) ltac:(lia)) as E1.
  pose proof (Z.div_mod (x / 2 ^ 16) (2 ^ 8) ltac:(lia)) as E2.
  rewrite Z.div_div in E1 by lia. rewrite Z.div_div in E2 by lia.
  change (2 ^ 8 * 2 ^ 8) with (2 ^ 16) in E1.
  change (2 ^ 16 * 2 ^ 8) with (2 ^ 24) in E2.
  assert (Hs : x / 2 ^ 24 < 2 ^ 8)
    by (apply Z.div_lt_upper_bound; [reflexivity | exact (proj2 H)]).
  assert (H0 : 0 <= x / 2 ^ 24) by (apply Z.div_pos; lia).
  rewrite (Z.mod_small (x / 2 ^ 24)) by lia.
  lia.
Qed.

(** ** [std::map<char, V>] *)

Section MapFacts.
Variable sg : bool.
Context {V : Type}.
Implicit Types (m : @cmap V) (c k : byte).

Lemma map_find_set_same c v m : map_find c (map_set sg c v m) = Some v.
Proof.
  induction m as [|[k w] m IH]; simpl.
  - now rewrite eqb_refl.
  - byte_cases c k.
    + simpl. now rewrite eqb_refl.
    + destruct (char_ltb sg c k); simpl.
      * now rewrite eqb_refl.
      * rewrite eqb_neq by assumption. exact IH.
Qed.

Lemma map_find_set_other c k v m :
  k <> c -> map_find k (map_set sg c v m) = map_find k m.
Proof.
  intros Hne. induction m as [|[k' w] m IH]; simpl.
  - now rewrite eqb_neq.
  - byte_cases c k'.
    + simpl. now rewrite eqb_neq.
    + destruct (char_ltb sg c k'); simpl.
      * now rewrite (eqb_neq k c).
      * now rewrite IH.
Qed.

Lemma map_find_In c v m : map_find c m = Some v -> In (c, v) m.
Proof.
  induction m as [|[k w] m IH]; simpl; [discriminate|].
  byte_cases c k.
  - intros [= ->]. now left.
  - intros H. right. now apply IH.
Qed.

Lemma map_find_None c m : map_find c m = None <-> ~ In c (keys m).
Proof.
  induction m as [|[k w] m IH]; simpl.
  - tauto.
  - byte_cases c k.
    + split; [discriminate | intros H; exfalso; apply H; now left].
    + rewrite IH. split; intros H; [intros [H1|H1]; congruence | tauto].
Qed.

Lemma keys_set_In c v m k : In k (keys (map_set sg c v m)) <-> k = c \/ In k (keys m).
Proof.
  induction m as [|[k' w] m IH]; simpl.
  - intuition.
  - byte_cases c k'.
    + simpl. intuition.
    + destruct (char_ltb sg c k'); simpl.
      * intuition.
      * rewrite IH. intuition.
Qed.

Lemma map_set_sorted c v m : map_sorted sg m -> map_sorted sg (map_set sg c v m).
Proof.
  unfold map_sorted. induction m as [|[k w] m IH]; simpl; intros Hs.
  - repeat constructor.
  - inversion Hs as [|? ? Hs' Hall]; subst.
    byte_cases c k.
    + simpl. now constructor.
    + destruct (char_ltb sg c k) eqn:El; simpl.
      * apply Z.ltb_lt in El. constructor; [exact Hs|].
        constructor; [exact El|].
        eapply Forall_impl; [|exact Hall]. unfold char_lt. intros; lia.
      * apply Z.ltb_ge in El.
        assert (Hk : char_lt sg k c).
        { unfold char_lt.
          destruct (Z.eq_dec (char_val sg k) (char_val sg c)) as [Heq|];
            [apply char_val_inj in Heq; congruence | lia]. }
        constructor; [now apply IH|].
        apply Forall_forall. intros x Hx.
        apply (keys_set_In c v m x) in Hx. destruct Hx as [->|Hx]; [exact Hk|].
        rewrite Forall_forall in Hall. now apply Hall.
Qed.

Lemma sorted_NoDup m : map_sorted sg m -> NoDup (keys m).
Proof.
  unfold map_sorted. induction (keys m) as [|k l IH]; intros Hs.
  - constructor.
  - inversion Hs as [|? ? Hs' Hall]; subst. constructor; [|now apply IH].
    intros Hin. rewrite Forall_forall in Hall. apply Hall in Hin.
    unfold char_lt in Hin. lia.
Qed.

(** Storing under the key after all present keys appends. *)
Lemma map_set_last c v m :
  Forall (fun k => char_lt sg k c) (keys m) -> map_set sg c v m = m ++ [(c, v)].
Proof.
  induction m as [|[k w] m IH]; simpl; intros H; [reflexivity|].
  inversion H as [|? ? Hk Hm]; subst. unfold char_lt in Hk.
  byte_cases c k; [lia|].
  unfold char_ltb. destruct (Z.ltb_spec (char_val sg c) (char_val sg k)); [lia|].
  now rewrite IH.
Qed.

End MapFacts.

Lemma sorted_app_mid {A} (R : A -> A -> Prop) l1 x l2 :
  StronglySorted R (l1 ++ x :: l2) -> Forall (fun k => R k x) l1.
Proof.
  induction l1 as [|a l1 IH]; simpl; intros H; [constructor|].
  inversion H as [|? ? Hs Hall]; subst. constructor; [|now apply IH].
  rewrite Forall_forall in Hall. apply Hall, in_or_app. right. now left.
Qed.

Lemma sorted_app_r {A} (R : A -> A -> Prop) l1 l2 :
  StronglySorted R (l1 ++ l2) -> StronglySorted R l2.
Proof.
  induction l1 as [|a l1 IH]; simpl; intros H; [exact H|].
  inversion H; subst. now apply IH.
Qed.

(** ** The frequency table *)

Section FrequencyFacts.
Variable sg : bool.

Lemma counts_ok_find m c n : counts_ok m -> map_find c m = Some n -> 0 < n <= MAX_FREQ.
Proof. intros H E. apply (H c). now apply map_find_In. Qed.

Lemma In_map_set c (v : Z) m k w :
  In (k, w) (map_set sg c v m) -> (k = c /\ w = v) \/ In (k, w) m.
Proof.
  induction m as [|[k' w'] m IH]; simpl.
  - intros [[= <- <-]|[]]. now left.
  - byte_cases c k'.
    + simpl. intros [[= <- <-]|H]; [now left | right; now right].
    + destruct (char_ltb sg c k'); simpl.
      * intros [[= <- <-]|H]; [now left | now right].
      * intros [H|H]; [right; now left|].
        apply IH in H. destruct H as [H|H]; [now left | right; now right].
Qed.

Lemma map_set_twice c (v w : Z) m :
  map_set sg c v (map_set sg c w m) = map_set sg c v m.
Proof.
  induction m as [|[k u] m IH]; simpl.
  - now rewrite eqb_refl.
  - byte_cases c k.
    + simpl. now rewrite eqb_refl.
    + destruct (char_ltb sg c k) eqn:El; simpl.
      * now rewrite eqb_refl.
      * rewrite eqb_neq by assumption. rewrite El. now rewrite IH.
Qed.

Lemma count_char_find m x c :
  counts_ok m ->
  map_find c (count_char sg m x) =
    if Byte.eqb c x then Some (Z.min (count_of m x + 1) MAX_FREQ) else map_find c m.
Proof.
  intros Hok. unfold count_char, map_index, count_of.
  destruct (map_find x m) as [n|] eqn:Ex.
  - pose proof (counts_ok_find _ _ _ Hok Ex) as Hn. unfold MAX_FREQ in *.
    destruct (Z.ltb_spec n 16383).
    + byte_cases c x.
      * rewrite map_find_set_same. unfold add32.
        rewrite wrap32_small by lia. f_equal. lia.
      * now apply map_find_set_other.
    + byte_cases c x; [|reflexivity]. rewrite Ex. f_equal. lia.
  - change (0 <? MAX_FREQ) with true. cbv iota.
    byte_cases c x.
    + rewrite map_find_set_same. reflexivity.
    + rewrite !map_find_set_other by assumption. reflexivity.
Qed.

Lemma count_char_ok m x : counts_ok m -> counts_ok (count_char sg m x).
Proof.
  intros Hok c n Hin. unfold count_char, map_index in Hin.
  destruct (map_find x m) as [k|] eqn:Ex.
  - pose proof (counts_ok_find _ _ _ Hok Ex) as Hk. unfold MAX_FREQ in *.
    destruct (Z.ltb_spec k 16383); [|now apply (Hok c)].
    apply In_map_set in Hin. destruct Hin as [[-> ->]|Hin]; [|now apply (Hok c)].
    unfold add32. rewrite wrap32_small by lia. lia.
  - change (0 <? MAX_FREQ) with true in Hin. cbv iota in Hin.
    rewrite map_set_twice in Hin.
    apply In_map_set in Hin. destruct Hin as [[-> ->]|Hin]; [now compute|].
    now apply (Hok c).
Qed.

End FrequencyFacts.

Section TableFacts.
Variable sg : bool.

Lemma occurrences_cons x c text :
  occurrences c (x :: text) = (if Byte.eqb c x then 1 else 0) + occurrences c text.
Proof.
  unfold occurrences. byte_cases c x.
  - rewrite count_occ_cons_eq by reflexivity. lia.
  - rewrite count_occ_cons_neq by congruence. lia.
Qed.

Lemma occurrences_nonneg c text : 0 <= occurrences c text.
Proof. unfold occurrences. lia. Qed.

Lemma occurrences_pos c text : 0 < occurrences c text <-> In c text.
Proof.
  unfold occurrences. rewrite (count_occ_In Byte.byte_eq_dec). lia.
Qed.

Lemma count_of_range m c : counts_ok m -> 0 <= count_of m c <= MAX_FREQ.
Proof.
  intros Hok. unfold count_of. destruct (map_find c m) eqn:E.
  - pose proof (counts_ok_find _ _ _ Hok E). lia.
  - unfold MAX_FREQ. lia.
Qed.

Lemma count_of_zero m c : counts_ok m -> (count_of m c = 0 <-> map_find c m = None).
Proof.
  intros Hok. unfold count_of. destruct (map_find c m) eqn:E.
  - pose proof (counts_ok_find _ _ _ Hok E). split; [lia | discriminate].
  - tauto.
Qed.

Lemma fold_count_find text : forall m c,
  counts_ok m ->
  map_find c (fold_left (count_char sg) text m) =
    if count_of m c + occurrences c text =? 0 then None
    else Some (Z.min (count_of m c + occurrences c text) MAX_FREQ).
Proof.
  induction text as [|x text IH]; intros m c Hok.
  - simpl. change (occurrences c []) with 0. rewrite Z.add_0_r.
    pose proof (count_of_range m c Hok) as Hr.
    pose proof (count_of_zero m c Hok) as Hz.
    destruct (Z.eqb_spec (count_of m c) 0) as [E|E].
    + now apply Hz.
    + unfold count_of in *. destruct (map_find c m); [f_equal; lia | congruence].
  - simpl. rewrite IH by now apply count_char_ok.
    rewrite occurrences_cons.
    pose proof (count_of_range m c Hok) as Hr.
    pose proof (count_of_range m x Hok) as Hx.
    pose proof (occurrences_nonneg c text) as Hk.
    assert (Hc : count_of (count_char sg m x) c =
                 if Byte.eqb c x then Z.min (count_of m x + 1) MAX_FREQ
                 else count_of m c).
    { unfold count_of at 1. rewrite count_char_find by assumption.
      destruct (Byte.eqb c x); reflexivity. }
    rewrite Hc. byte_cases c x.
    + destruct (Z.eqb_spec (Z.min (count_of m x + 1) MAX_FREQ + occurrences x text) 0);
        destruct (Z.eqb_spec (count_of m x + (1 + occurrences x text)) 0);
        unfold MAX_FREQ in *; try lia. f_equal. lia.
    + rewrite Z.add_0_l. reflexivity.
Qed.

Lemma fold_count_ok text : forall m, counts_ok m -> counts_ok (fold_left (count_char sg) text m).
Proof.
  induction text as [|x text IH]; intros m Hok; simpl; [exact Hok|].
  apply IH. now apply count_char_ok.
Qed.

Lemma count_char_sorted m x : map_sorted sg m -> map_sorted sg (count_char sg m x).
Proof.
  intros Hs. unfold count_char, map_index.
  destruct (map_find x m); destruct (_ <? _);
    repeat apply map_set_sorted; assumption.
Qed.

Lemma fold_count_sorted text : forall m,
  map_sorted sg m -> map_sorted sg (fold_left (count_char sg) text m).
Proof.
  induction text as [|x text IH]; intros m Hs; simpl; [exact Hs|].
  apply IH. now apply count_char_sorted.
Qed.

Lemma calculateFrequencies_ok text : counts_ok (calculateFrequencies sg text).
Proof. apply fold_count_ok. intros c n []. Qed.

Lemma calculateFrequencies_sorted text : map_sorted sg (calculateFrequencies sg text).
Proof. apply fold_count_sorted. constructor. Qed.

Lemma calculateFrequencies_find text c :
  map_find c (calculateFrequencies sg text) =
    if occurrences c text =? 0 then None
    else Some (Z.min (occurrences c text) MAX_FREQ).
Proof.
  unfold calculateFrequencies. rewrite fold_count_find by (intros ? ? []).
  reflexivity.
Qed.

Lemma calculateFrequencies_keys text c :
  In c (keys (calculateFrequencies sg text)) <-> In c text.
Proof.
  rewrite <- (occurrences_pos c text).
  pose proof (map_find_None c (calculateFrequencies sg text)) as Hn.
  rewrite calculateFrequencies_find in Hn.
  pose proof (occurrences_nonneg c text).
  destruct (Z.eqb_spec (occurrences c text) 0) as [E|E].
  - split; [|intros; lia]. intros Hin. exfalso. now apply Hn.
  - split; [intros; lia|]. intros _.
    destruct (in_dec Byte.byte_eq_dec c (keys (calculateFrequencies sg text))) as [Hi|Hi];
      [exact Hi|]. apply Hn in Hi. discriminate.
Qed.

(** On a sorted table the ranges are stored in the table's order. *)
Lemma build_ranges_sorted freq : forall total cumulative ranges,
  StronglySorted (char_lt sg) (keys ranges ++ keys freq) ->
  build_ranges sg freq total cumulative ranges =
    ranges ++ ranges_from freq total cumulative.
Proof.
  induction freq as [|[c n] freq IH]; intros total cum ranges Hs; simpl.
  - now rewrite app_nil_r.
  - simpl in Hs. rewrite map_set_last by now apply sorted_app_mid in Hs.
    rewrite IH.
    + now rewrite <- app_assoc.
    + unfold keys in *. rewrite map_app, <- app_assoc. exact Hs.
Qed.

Lemma buildCumulativeFreq_sorted freq :
  map_sorted sg freq ->
  buildCumulativeFreq sg freq =
    (ranges_from freq (sum_counts freq) 0, sum_counts freq).
Proof.
  intros Hs. unfold buildCumulativeFreq. now rewrite build_ranges_sorted.
Qed.

Lemma keys_ranges_from freq total cumulative :
  keys (ranges_from freq total cumulative) = keys freq.
Proof.
  revert cumulative. induction freq as [|[c n] freq IH]; intros cum; simpl;
    [reflexivity | now rewrite IH].
Qed.

Lemma table_of_sorted_acc (entries : @cmap Z) : forall acc,
  StronglySorted (char_lt sg) (keys acc ++ keys entries) ->
  fold_left (fun m pair => map_set sg (fst pair) (snd pair) m) entries acc
    = acc ++ entries.
Proof.
  induction entries as [|[c n] entries IH]; intros acc Hs; simpl.
  - now rewrite app_nil_r.
  - simpl in Hs. rewrite map_set_last by now apply sorted_app_mid in Hs.
    rewrite IH.
    + now rewrite <- app_assoc.
    + unfold keys in *. rewrite map_app, <- app_assoc. exact Hs.
Qed.

Lemma table_of_sorted freq : map_sorted sg freq -> table_of_entries sg freq = freq.
Proof. intros Hs. unfold table_of_entries. now rewrite table_of_sorted_acc. Qed.

(** Reading back a written table, whatever follows it. *)
Lemma read_table_write (entries : @cmap Z) : forall acc rest,
  Forall (fun pair => 0 <= snd pair < 2 ^ 32) entries ->
  read_table sg (length entries) (write_table entries ++ rest) acc =
    Ok (fold_left (fun m pair => map_set sg (fst pair) (snd pair) m) entries acc, rest).
Proof.
  induction entries as [|[c n] entries IH]; intros acc rest Hr; [reflexivity|].
  inversion Hr as [|? ? Hn Hr']; subst. simpl in Hn.
  cbn [length write_table flat_map fst snd read_table app read_char bind].
  rewrite <- !app_assoc.
  change (flat_map _ entries) with (write_table entries).
  rewrite read_u32_le32 by assumption. cbn [bind].
  rewrite IH by assumption. reflexivity.
Qed.

End TableFacts.

(** C8: the frequency table has an entry exactly for the bytes that occur in
    the input, each with the number of its occurrences clamped at
    [MAX_FREQ] = 16383 (so 0 < count <= 16383); one more occurrence of a byte
    increments its count unless the count already is [MAX_FREQ], in which case
    the table is left as it is and nothing is reported; no byte has two
    entries; the table of the empty input is empty. *)
Theorem frequency_table_counts (char_signed : bool) (text : list byte) :
  let freq := calculateFrequencies char_signed text in
  (forall c, map_find c freq =
     if occurrences c text =? 0 then None
     else Some (Z.min (occurrences c text) 16383))
  /\ (forall c, In c (keys freq) <-> In c text)
  /\ NoDup (keys freq)
  /\ (forall c n, In (c, n) freq -> 0 < n <= 16383)
  /\ (forall x,
        calculateFrequencies char_signed (text ++ [x]) = count_char char_signed freq x
        /\ count_of (count_char char_signed freq x) x =
             (if count_of freq x =? MAX_FREQ then MAX_FREQ else count_of freq x + 1)
        /\ (count_of freq x = MAX_FREQ -> count_char char_signed freq x = freq))
  /\ calculateFrequencies char_signed [] = [].
Proof.
  cbv zeta. repeat split.
  - apply calculateFrequencies_find.
  - apply calculateFrequencies_keys.
  - apply calculateFrequencies_keys.
  - eapply sorted_NoDup, calculateFrequencies_sorted.
  - now apply (calculateFrequencies_ok char_signed text c n).
  - now apply (calculateFrequencies_ok char_signed text c n).
  - unfold calculateFrequencies. now rewrite fold_left_app.
  - pose proof (calculateFrequencies_ok char_signed text) as Hok.
    pose proof (count_of_range _ x Hok) as Hr.
    unfold count_of at 1. rewrite count_char_find by assumption.
    rewrite eqb_refl.
    destruct (Z.eqb_spec (count_of (calculateFrequencies char_signed text) x) MAX_FREQ);
      unfold MAX_FREQ in *; lia.
  - intros Hmax. unfold count_char, map_index.
    unfold count_of in Hmax.
    destruct (map_find x (calculateFrequencies char_signed text)) eqn:E.
    + subst z. reflexivity.
    + discriminate.
Qed.

(** C4, as the code has it: the frequency table is iterated in ascending
    order of the [char] value of its keys, which is ascending byte order 0 to
    255 where [char] is unsigned; the cumulative ranges are stored under the
    same keys in the same order; and the decoder, reading the table the
    encoder wrote, rebuilds the very same table, so both sides iterate the
    alphabet identically. *)
Theorem alphabet_order (char_signed : bool) (text : list byte) :
  let freq := calculateFrequencies char_signed text in
  StronglySorted (char_lt char_signed) (keys freq)
  /\ StronglySorted byte_lt (keys (calculateFrequencies false text))
  /\ keys (fst (buildCumulativeFreq char_signed freq)) = keys freq
  /\ (forall rest,
        read_table char_signed (length freq) (write_table freq ++ rest) []
          = Ok (freq, rest)).
Proof.
  cbv zeta.
  pose proof (calculateFrequencies_sorted char_signed text) as Hs.
  repeat split.
  - exact Hs.
  - exact (calculateFrequencies_sorted false text).
  - rewrite buildCumulativeFreq_sorted by assumption. apply keys_ranges_from.
  - intros rest. rewrite read_table_write.
    + f_equal. f_equal. now apply table_of_sorted.
    + apply Forall_forall. intros [c n] Hin.
      apply calculateFrequencies_ok in Hin. simpl. unfold MAX_FREQ in Hin. lia.
Qed.

(** C4 as stated fails where [char] is signed: the bytes 0x01 and 0x80 are
    iterated as 0x80 (the char -128) first, then 0x01. *)
Lemma alphabet_order_signed_char_cex :
  keys (calculateFrequencies true [x01; x80]) = [x80; x01]
  /\ ~ StronglySorted byte_lt (keys (calculateFrequencies true [x01; x80])).
Proof.
  split; [reflexivity|].
  intros H. change (keys (calculateFrequencies true [x01; x80])) with [x80; x01] in H.
  inversion H as [|? ? _ Hall]; subst.
  inversion Hall as [|? ? Hlt _]; subst.
  unfold byte_lt in Hlt. vm_compute in Hlt. discriminate.
Qed.

(** ** Cumulative ranges *)

Lemma NoDup_bytes_length (l : list byte) : NoDup l -> (length l <= 256)%nat.
Proof.
  intros Hnd.
  assert (Hinj : NoDup (map Byte.to_nat l)).
  { apply Injective_map_NoDup; [|exact Hnd].
    intros a b Hab. pose proof (Byte.of_to_nat a) as Ha.
    rewrite Hab, Byte.of_to_nat in Ha. congruence. }
  apply (NoDup_incl_length (l' := seq 0 256)) in Hinj.
  - now rewrite length_map, length_seq in Hinj.
  - intros n Hn. apply in_map_iff in Hn. destruct Hn as [b [<- _]].
    apply in_seq. pose proof (Byte.to_nat_bounded b). lia.
Qed.

Lemma zsum_counts_bound (freq : @cmap Z) :
  counts_ok freq ->
  Z.of_nat (length freq) <= zsum (map snd freq) <= Z.of_nat (length freq) * MAX_FREQ.
Proof.
  induction freq as [|[c n] freq IH]; intros Hok.
  - simpl. lia.
  - assert (Hn : 0 < n <= MAX_FREQ) by (apply (Hok c); now left).
    assert (Hok' : counts_ok freq) by (intros c' n' H; apply (Hok c'); now right).
    specialize (IH Hok'). cbn [length map snd zsum fold_right].
    fold (zsum (map snd freq)). lia.
Qed.

Section RangeFacts.
Variable sg : bool.

Lemma table_total_bound (freq : @cmap Z) :
  map_sorted sg freq -> counts_ok freq ->
  Z.of_nat (length freq) <= zsum (map snd freq) <= 256 * MAX_FREQ.
Proof.
  intros Hs Hok. pose proof (zsum_counts_bound freq Hok) as Hb.
  pose proof (NoDup_bytes_length _ (sorted_NoDup sg freq Hs)) as Hl.
  unfold keys in Hl. rewrite length_map in Hl. unfold MAX_FREQ in *. nia.
Qed.

Lemma sum_counts_acc (freq : @cmap Z) : forall acc,
  Forall (fun pair => 0 <= snd pair) freq ->
  0 <= acc -> acc + zsum (map snd freq) < 2 ^ 32 ->
  fold_left (fun total pair => add32 total (snd pair)) freq acc
    = acc + zsum (map snd freq).
Proof.
  induction freq as [|[c n] freq IH]; intros acc Hpos Hacc Hlt.
  - simpl. lia.
  - inversion Hpos as [|? ? Hn Hpos']; subst. simpl in Hn.
    cbn [map snd zsum fold_right fold_left] in *. fold (zsum (map snd freq)) in *.
    assert (H0 : 0 <= zsum (map snd freq)).
    { clear -Hpos'. induction Hpos' as [|[c' n'] l Hn' _ IHl]; simpl in *; lia. }
    unfold add32. rewrite wrap32_small by lia.
    rewrite IH by (assumption || lia). lia.
Qed.

Lemma counts_ok_nonneg (freq : @cmap Z) :
  counts_ok freq -> Forall (fun pair => 0 <= snd pair) freq.
Proof.
  intros Hok. apply Forall_forall. intros [c n] Hin.
  apply Hok in Hin. simpl. lia.
Qed.

Lemma sum_counts_exact (freq : @cmap Z) :
  map_sorted sg freq -> counts_ok freq ->
  sum_counts freq = zsum (map snd freq).
Proof.
  intros Hs Hok. unfold sum_counts.
  pose proof (table_total_bound freq Hs Hok) as Hb. unfold MAX_FREQ in Hb.
  rewrite sum_counts_acc; [lia | now apply counts_ok_nonneg | lia | lia].
Qed.

Lemma ranges_from_tiles (freq : @cmap Z) total : forall cumulative,
  counts_ok freq -> 0 <= cumulative ->
  cumulative + zsum (map snd freq) < 2 ^ 32 ->
  tiles cumulative (map snd (ranges_from freq total cumulative))
        (cumulative + zsum (map snd freq)).
Proof.
  induction freq as [|[c n] freq IH]; intros cum Hok Hc Hlt.
  - simpl. lia.
  - assert (Hn : 0 < n <= MAX_FREQ) by (apply (Hok c); now left).
    assert (Hok' : counts_ok freq) by (intros c' n' H; apply (Hok c'); now right).
    pose proof (zsum_counts_bound freq Hok') as Hb.
    cbn [map snd zsum fold_right ranges_from tiles sr_low sr_high] in *.
    fold (zsum (map snd freq)) in *.
    unfold add32. rewrite wrap32_small by lia.
    split; [reflexivity|]. split; [lia|].
    replace (cum + (n + zsum (map snd freq))) with (cum + n + zsum (map snd freq)) by lia.
    apply IH; [assumption | lia | lia].
Qed.

Lemma ranges_from_count (freq : @cmap Z) total : forall cumulative c r,
  In (c, r) (ranges_from freq total cumulative) -> sr_count r = total.
Proof.
  induction freq as [|[c0 n] freq IH]; intros cum c r; simpl; [tauto|].
  intros [[= <- <-]|H]; [reflexivity | eauto].
Qed.

End RangeFacts.

Lemma tiles_bounds rs : forall lo hi r,
  tiles lo rs hi -> In r rs -> lo <= sr_low r /\ sr_high r <= hi /\ sr_low r < sr_high r.
Proof.
  induction rs as [|r0 rs IH]; intros lo hi r Ht Hin; [destruct Hin|].
  destruct Ht as (Hlo & Hne & Ht). destruct Hin as [->|Hin].
  - assert (Hle : sr_high r <= hi).
    { clear -Ht. revert Ht. generalize (sr_high r). induction rs as [|r1 rs IH];
        intros z Ht; simpl in Ht; [lia|].
      destruct Ht as (? & ? & Ht). apply IH in Ht. lia. }
    lia.
  - specialize (IH _ _ _ Ht Hin). lia.
Qed.

Lemma tiles_le rs : forall lo hi, tiles lo rs hi -> lo <= hi.
Proof.
  induction rs as [|r rs IH]; intros lo hi Ht; simpl in Ht; [lia|].
  destruct Ht as (? & ? & Ht). apply IH in Ht. lia.
Qed.

(** The linear scan over ranges that tile [lo, hi) finds the one range that
    holds [v]. *)
Lemma scan_tiles (ranges : @cmap SymbolRange) : forall lo hi v,
  NoDup (keys ranges) ->
  tiles lo (map snd ranges) hi -> lo <= v < hi ->
  exists c r,
    scan ranges v = Some c /\ In (c, r) ranges /\ in_range r v
    /\ (forall c' r', In (c', r') ranges -> in_range r' v -> c' = c /\ r' = r)
    /\ map_find c ranges = Some r.
Proof.
  unfold in_range.
  induction ranges as [|[c0 r0] ranges IH]; intros lo hi v Hnd Ht Hv.
  - simpl in Ht. lia.
  - cbn [map snd tiles] in Ht. destruct Ht as (Hlo & Hne & Ht).
    inversion Hnd as [|? ? Hnotin Hnd']; subst.
    cbn [scan].
    destruct (Z.ltb_spec v (sr_high r0)) as [Hlt|Hge].
    + exists c0, r0.
      destruct (Z.leb_spec (sr_low r0) v); [|lia]. cbn [andb].
      split; [reflexivity|]. split; [now left|]. split; [lia|]. split.
      * intros c' r' [[= <- <-]|Hin] Hr; [now split|].
        pose proof (tiles_bounds _ _ _ r' Ht (in_map snd _ _ Hin)). simpl in *. lia.
      * simpl. now rewrite eqb_refl.
    + rewrite andb_false_r.
      destruct (IH _ _ v Hnd' Ht ltac:(lia)) as (c & r & Hs & Hin & Hr & Hu & Hf).
      exists c, r.
      split; [exact Hs|]. split; [now right|]. split; [exact Hr|]. split.
      * intros c' r' [[= <- <-]|Hin'] Hr'; [lia | now apply Hu].
      * simpl. byte_cases c c0; [|exact Hf].
        exfalso. apply Hnotin. apply map_find_In in Hf.
        apply (in_map fst) in Hf. exact Hf.
Qed.

Lemma counts_ok_Forall (freq : @cmap Z) :
  Forall (fun pair => 0 < snd pair <= MAX_FREQ) freq -> counts_ok freq.
Proof.
  intros H c n Hin. rewrite Forall_forall in H. exact (H _ Hin).
Qed.

Lemma sample_table_sorted sg : map_sorted sg sample_table.
Proof. destruct sg; repeat constructor. Qed.

Lemma sample_table_ok : counts_ok sample_table.
Proof.
  apply counts_ok_Forall.
  repeat (constructor; [unfold MAX_FREQ; simpl; lia|]). constructor.
Qed.

(** C9: the ranges built from a non-empty frequency table (sorted keys,
    counts between 1 and [MAX_FREQ]) tile [0, total): the first starts at 0,
    each ends where the next starts, the last ends at [total], none is
    empty, each carries the shared [total]; so for every [v] with
    [0 <= v < total] the decoder's scan finds a symbol, its range holds [v],
    and no other range does. *)
Theorem cumulative_ranges_tile (char_signed : bool) (freq : @cmap Z) :
  freq <> [] -> map_sorted char_signed freq -> counts_ok freq ->
  let ranges := fst (buildCumulativeFreq char_signed freq) in
  let total := snd (buildCumulativeFreq char_signed freq) in
  keys ranges = keys freq
  /\ total = zsum (map snd freq) /\ 0 < total
  /\ tiles 0 (map snd ranges) total
  /\ (forall c r, In (c, r) ranges -> sr_count r = total)
  /\ (forall v, 0 <= v < total ->
        exists c r,
          scan ranges v = Some c /\ map_find c ranges = Some r /\ in_range r v
          /\ (forall c' r', In (c', r') ranges -> in_range r' v -> c' = c /\ r' = r)).
Proof.
  intros Hne Hs Hok. cbv zeta.
  rewrite buildCumulativeFreq_sorted by assumption. cbn [fst snd].
  rewrite (sum_counts_exact char_signed) by assumption.
  pose proof (table_total_bound char_signed freq Hs Hok) as Hb. unfold MAX_FREQ in Hb.
  assert (Hpos : 0 < zsum (map snd freq)).
  { destruct freq; [congruence|]. cbn [length] in Hb. lia. }
  assert (Ht : tiles 0 (map snd (ranges_from freq (zsum (map snd freq)) 0))
                (zsum (map snd freq))).
  { pose proof (ranges_from_tiles freq (zsum (map snd freq)) 0 Hok) as H.
    rewrite Z.add_0_l in H. apply H; lia. }
  split; [apply keys_ranges_from|]. split; [reflexivity|]. split; [exact Hpos|].
  split; [exact Ht|]. split; [intros c r; apply ranges_from_count|].
  intros v Hv.
  destruct (scan_tiles (ranges_from freq (zsum (map snd freq)) 0) 0
              (zsum (map snd freq)) v)
    as (c & r & H1 & H2 & H3 & H4 & H5);
    [rewrite keys_ranges_from; eapply sorted_NoDup; eassumption | exact Ht | exact Hv |].
  exists c, r. auto.
Qed.

Lemma cumulative_ranges_tile_witness :
  tiles 0 (map snd (fst (buildCumulativeFreq true sample_table)))
        (snd (buildCumulativeFreq true sample_table)).
Proof.
  apply (cumulative_ranges_tile true sample_table).
  - discriminate.
  - apply sample_table_sorted.
  - apply sample_table_ok.
Defined.

(** ** Bit sink and bit source *)

Section BitFacts.
Variable sg : bool.

Lemma byte_bits_firstn n : forall c bitSize size,
  byte_bits sg n c bitSize size
    = firstn (Z.to_nat (bitSize - size)) (msb_bits sg n c).
Proof.
  unfold msb_bits.
  induction n as [|n IH]; intros c bitSize size.
  - simpl. now rewrite firstn_nil.
  - rewrite seq_S, rev_app_distr. cbn [byte_bits rev app map Nat.add].
    destruct (Z.ltb_spec size bitSize) as [Hlt|Hge].
    + replace (Z.to_nat (bitSize - size)) with (S (Z.to_nat (bitSize - (size + 1)))) by lia.
      cbn [firstn]. now rewrite IH.
    + replace (Z.to_nat (bitSize - size)) with O by lia. reflexivity.
Qed.

Lemma msb_bits_length n c : length (msb_bits sg n c) = n.
Proof. unfold msb_bits. now rewrite length_map, length_rev, length_seq. Qed.

Lemma read_bits_done input bitSize size :
  bitSize <= size -> read_bits sg input bitSize size = [].
Proof.
  intros H. destruct input; [reflexivity|]. simpl.
  destruct (Z.ltb_spec size bitSize); [lia | reflexivity].
Qed.

(** The source returns the first [bitSize] bits of the payload and nothing
    else, however many bytes follow. *)
Lemma read_bits_firstn input : forall bitSize size,
  read_bits sg input bitSize size
    = firstn (Z.to_nat (bitSize - size)) (flat_map (msb_bits sg 8) input).
Proof.
  induction input as [|c input IH]; intros bitSize size.
  - simpl. now rewrite firstn_nil.
  - cbn [read_bits flat_map]. rewrite byte_bits_firstn.
    destruct (Z.ltb_spec size bitSize) as [Hlt|Hge].
    + rewrite firstn_app, msb_bits_length. f_equal.
      destruct (Z.ltb_spec (bitSize - size) 8) as [Hs|Hb].
      * rewrite length_firstn, msb_bits_length.
        rewrite Nat.min_l by lia.
        rewrite read_bits_done by lia.
        replace (Z.to_nat (bitSize - size) - 8)%nat with O by lia. reflexivity.
      * rewrite firstn_all2 by (rewrite msb_bits_length; lia).
        rewrite msb_bits_length, IH. f_equal. lia.
    + replace (Z.to_nat (bitSize - size)) with O by lia. reflexivity.
Qed.

Lemma pack_bits_byte b7 b6 b5 b4 b3 b2 b1 b0 rest :
  exists c,
    pack_bits (b7 :: b6 :: b5 :: b4 :: b3 :: b2 :: b1 :: b0 :: rest) 0 0
      = c :: pack_bits rest 0 0
    /\ msb_bits sg 8 c = [b7; b6; b5; b4; b3; b2; b1; b0].
Proof.
  destruct sg, b7, b6, b5, b4, b3, b2, b1, b0;
    (eexists; split; [reflexivity | vm_compute; reflexivity]).
Qed.

Lemma pack_bits_tail (bits : list bool) :
  (0 < length bits < 8)%nat ->
  exists c,
    pack_bits bits 0 0 = [c]
    /\ msb_bits sg 8 c = bits ++ repeat false (8 - length bits).
Proof.
  intros H.
  destruct bits as [|b7 [|b6 [|b5 [|b4 [|b3 [|b2 [|b1 [|b0 bits]]]]]]]];
    simpl in H; try lia; clear H.
  - destruct sg, b7; (eexists; split; [reflexivity | vm_compute; reflexivity]).
  - destruct sg, b7, b6; (eexists; split; [reflexivity | vm_compute; reflexivity]).
  - destruct sg, b7, b6, b5;
      (eexists; split; [reflexivity | vm_compute; reflexivity]).
  - destruct sg, b7, b6, b5, b4;
      (eexists; split; [reflexivity | vm_compute; reflexivity]).
  - destruct sg, b7, b6, b5, b4, b3;
      (eexists; split; [reflexivity | vm_compute; reflexivity]).
  - destruct sg, b7, b6, b5, b4, b3, b2;
      (eexists; split; [reflexivity | vm_compute; reflexivity]).
  - destruct sg, b7, b6, b5, b4, b3, b2, b1;
      (eexists; split; [reflexivity | vm_compute; reflexivity]).
Qed.

(** The sink's payload holds the bits in order, most significant bit first,
    followed by fewer than 8 zero bits. *)
Lemma pack_bits_payload n : forall bits,
  (length bits <= n)%nat ->
  exists pad, (pad < 8)%nat
    /\ flat_map (msb_bits sg 8) (pack_bits bits 0 0) = bits ++ repeat false pad.
Proof.
  induction n as [n IH] using lt_wf_ind. intros bits Hlen.
  destruct (Nat.ltb_spec (length bits) 8) as [Hs|Hb].
  - destruct bits as [|b bits'] eqn:Eb.
    + exists O. split; [lia | reflexivity].
    + rewrite <- Eb in *. destruct (pack_bits_tail bits) as (c & Hp & Hm).
      { rewrite Eb in *. cbn [length] in *. lia. }
      exists (8 - length bits)%nat. split; [rewrite Eb; cbn [length]; lia|].
      rewrite Hp. cbn [flat_map]. now rewrite app_nil_r.
  - destruct bits as [|b7 [|b6 [|b5 [|b4 [|b3 [|b2 [|b1 [|b0 rest]]]]]]]];
      simpl in Hb; try lia.
    destruct (pack_bits_byte b7 b6 b5 b4 b3 b2 b1 b0 rest) as (c & Hp & Hm).
    destruct (IH (length rest) ltac:(simpl in Hlen; lia) rest (le_n _))
      as (pad & Hpad & Hrest).
    exists pad. split; [exact Hpad|].
    rewrite Hp. cbn [flat_map]. rewrite Hm, Hrest. reflexivity.
Qed.

Lemma read_write_bits (bits : list bool) :
  Z.of_nat (length bits) < 2 ^ 32 ->
  readBitVector sg (writeBitVector bits) = Ok bits.
Proof.
  intros Hlen. unfold readBitVector, writeBitVector.
  rewrite wrap32_small by lia.
  rewrite read_u32_le32 by lia. cbn [bind].
  rewrite read_bits_firstn, Z.sub_0_r, Nat2Z.id.
  destruct (pack_bits_payload (length bits) bits (le_n _)) as (pad & _ & Hp).
  rewrite Hp, firstn_app, firstn_all, Nat.sub_diag. cbn [firstn].
  now rewrite app_nil_r.
Qed.

(** A count that wraps to 0 makes the source return no bit at all. *)
Lemma read_write_bits_wrapped (bits : list bool) :
  Z.of_nat (length bits) = 2 ^ 32 ->
  readBitVector sg (writeBitVector bits) = Ok [].
Proof.
  intros Hlen. unfold readBitVector, writeBitVector.
  rewrite Hlen. change (wrap32 (2 ^ 32)) with 0.
  rewrite read_u32_le32 by lia. cbn [bind].
  now rewrite read_bits_done.
Qed.

End BitFacts.

(** C6, as the code has it: a bit sequence of fewer than 2^32 bits, of any
    length modulo 8, is written as its length in 32 bits followed by the bits
    packed most significant bit first, the last byte filled up with fewer
    than 8 zero bits, and reading that back returns exactly the sequence. *)
Theorem bit_vector_round_trip (char_signed : bool) (bits : list bool) :
  Z.of_nat (length bits) < 2 ^ 32 ->
  readBitVector char_signed (writeBitVector bits) = Ok bits
  /\ exists payload pad,
       writeBitVector bits = le32 (Z.of_nat (length bits)) ++ payload
       /\ (pad < 8)%nat
       /\ flat_map (msb_bits char_signed 8) payload = bits ++ repeat false pad.
Proof.
  intros Hlen. split; [now apply read_write_bits|].
  destruct (pack_bits_payload char_signed (length bits) bits (le_n _))
    as (pad & Hpad & Hp).
  exists (pack_bits bits 0 0), pad. repeat split; try assumption.
  unfold writeBitVector. rewrite wrap32_small by lia. reflexivity.
Qed.

Lemma bit_vector_round_trip_witness :
  readBitVector true (writeBitVector [true; false; true]) = Ok [true; false; true].
Proof.
  apply (bit_vector_round_trip true [true; false; true]). simpl. lia.
Defined.

Lemma read_write_bits_too_long sg (n : nat) :
  Z.of_nat n = 2 ^ 32 ->
  readBitVector sg (writeBitVector (repeat false n)) <> Ok (repeat false n).
Proof.
  intros Hn.
  rewrite read_write_bits_wrapped by (rewrite repeat_length; exact Hn).
  destruct n as [|n]; [discriminate Hn|].
  cbn [repeat]. discriminate.
Qed.

(** C6 as stated fails for a sequence of 2^32 bits: the 32-bit count wraps
    to 0 and the source returns the empty sequence. *)
Lemma bit_vector_round_trip_cex :
  readBitVector true (writeBitVector (repeat false (Z.to_nat (2 ^ 32))))
    <> Ok (repeat false (Z.to_nat (2 ^ 32))).
Proof.
  exact (read_write_bits_too_long true (Z.to_nat (2 ^ 32))
           (Z2Nat.id (2 ^ 32) (Z.pow_nonneg 2 32 (Z.lt_le_incl 0 2 Z.lt_0_2)))).
Qed.

(** ** The container reader *)

Section ContainerFacts.
Variable sg : bool.

(** The reader takes a container with a complete header apart; nothing is
    compared with the length of what follows. *)
Lemma decompressFile_fields fuel (entries : @cmap Z) text_size bitSize payload :
  Forall (fun pair => 0 <= snd pair < 2 ^ 32) entries ->
  Z.of_nat (length entries) < 2 ^ 32 ->
  0 <= text_size < 2 ^ 32 ->
  0 <= bitSize < 2 ^ 32 ->
  decompressFile sg fuel
      (le32 (Z.of_nat (length entries)) ++ write_table entries
         ++ le32 text_size ++ le32 bitSize ++ payload)
    = decode_bits sg fuel (table_of_entries sg entries) text_size
        (firstn (Z.to_nat bitSize) (flat_map (msb_bits sg 8) payload)).
Proof.
  intros He Hn Ht Hb. unfold decompressFile.
  rewrite read_u32_le32 by lia. cbn [bind]. rewrite Nat2Z.id.
  rewrite read_table_write by assumption. cbn [bind].
  rewrite read_u32_le32 by assumption. cbn [bind].
  unfold readBitVector. rewrite read_u32_le32 by assumption. cbn [bind].
  rewrite read_bits_firstn, Z.sub_0_r. reflexivity.
Qed.

Lemma payload_bits_length (payload : list byte) :
  length (flat_map (msb_bits sg 8) payload) = (8 * length payload)%nat.
Proof.
  induction payload as [|c payload IH]; [reflexivity|].
  cbn [flat_map]. rewrite length_app, msb_bits_length, IH. cbn [length]. lia.
Qed.

Lemma decode_loop_length fuel total n : forall ranges s out s',
  decode_loop sg fuel ranges total n s = Ok (out, s') -> length out = n.
Proof.
  induction n as [|n IH]; intros ranges s out s' H; cbn [decode_loop] in H.
  - injection H as <- _. reflexivity.
  - destruct (decode_symbol sg fuel ranges total s) as [[[rs1 sym] s1]|f|];
      cbn [bind] in H; try discriminate.
    destruct (decode_loop sg fuel rs1 total n s1) as [[rest s2]|f|] eqn:E;
      cbn [bind] in H; try discriminate.
    injection H as <- _. cbn [length]. f_equal. eauto.
Qed.

Lemma decode_bits_length fuel freq text_size bits out :
  decode_bits sg fuel freq text_size bits = Ok out ->
  length out = Z.to_nat text_size.
Proof.
  unfold decode_bits. destruct (buildCumulativeFreq sg freq) as [ranges total].
  destruct (decode_loop sg fuel ranges total _ _) as [[o s']|f|] eqn:E;
    cbn [bind]; try discriminate.
  intros [= <-]. eapply decode_loop_length; eassumption.
Qed.

End ContainerFacts.

(** C5, as the code has it: no field of the container is checked against
    the bytes that follow.  With a complete header, whatever the declared
    bit count and the length of the payload, the bit source hands over the
    first bits of the payload, as many as are declared or as many as there
    are, whichever is less; decoding runs on exactly these bits, with the
    table built from the entries and the declared symbol count; the result
    is that of the container which declares the number of bits that are
    present; and a run that returns has produced exactly
    [originalSymbolCount] symbols. *)
Theorem container_not_validated (char_signed : bool) (fuel : nat)
    (entries : @cmap Z) (text_size bitSize : Z) (payload : list byte) :
  Forall (fun pair => 0 <= snd pair < 2 ^ 32) entries ->
  Z.of_nat (length entries) < 2 ^ 32 ->
  0 <= text_size < 2 ^ 32 ->
  0 <= bitSize < 2 ^ 32 ->
  let container :=
    le32 (Z.of_nat (length entries)) ++ write_table entries
      ++ le32 text_size ++ le32 bitSize ++ payload in
  let present := Z.min bitSize (8 * Z.of_nat (length payload)) in
  let bits := firstn (Z.to_nat bitSize) (flat_map (msb_bits char_signed 8) payload) in
  decompressFile char_signed fuel container
    = decode_bits char_signed fuel (table_of_entries char_signed entries) text_size bits
  /\ bits = firstn (Z.to_nat present) (flat_map (msb_bits char_signed 8) payload)
  /\ Z.of_nat (length bits) = present
  /\ decompressFile char_signed fuel container
     = decompressFile char_signed fuel
         (le32 (Z.of_nat (length entries)) ++ write_table entries
            ++ le32 text_size ++ le32 present ++ payload)
  /\ (forall out, decompressFile char_signed fuel container = Ok out ->
        Z.of_nat (length out) = text_size).
Proof.
  intros He Hn Ht Hb. cbv zeta.
  pose proof (decompressFile_fields char_signed fuel entries text_size bitSize
                payload He Hn Ht Hb) as Hd.
  assert (Hfirst : firstn (Z.to_nat bitSize)
                     (flat_map (msb_bits char_signed 8) payload)
                   = firstn (Z.to_nat (Z.min bitSize (8 * Z.of_nat (length payload))))
                       (flat_map (msb_bits char_signed 8) payload)).
  { destruct (Z.le_gt_cases bitSize (8 * Z.of_nat (length payload))) as [Hle|Hgt].
    - now rewrite Z.min_l by exact Hle.
    - rewrite Z.min_r by lia.
      rewrite !firstn_all2 by (rewrite payload_bits_length; lia). reflexivity. }
  split; [exact Hd|]. split; [exact Hfirst|]. split; [|split].
  - rewrite length_firstn.
    rewrite payload_bits_length. lia.
  - rewrite Hd, decompressFile_fields by (assumption || lia).
    now rewrite Hfirst.
  - intros out Hout. rewrite Hd in Hout.
    apply decode_bits_length in Hout. lia.
Qed.

Lemma container_not_validated_witness :
  Forall (fun pair => 0 <= snd pair < 2 ^ 32) sample_table
  /\ Z.of_nat (length sample_table) < 2 ^ 32
  /\ 0 <= 10 < 2 ^ 32
  /\ 0 <= 19 < 2 ^ 32
  /\ decompressFile true 32 truncated_container
     = decode_bits true 32 (table_of_entries true sample_table) 10
         (firstn (Z.to_nat 19) (flat_map (msb_bits true 8) [x03]))
  /\ firstn (Z.to_nat 19) (flat_map (msb_bits true 8) [x03])
     = firstn (Z.to_nat (Z.min 19 (8 * Z.of_nat (length [x03]))))
         (flat_map (msb_bits true 8) [x03])
  /\ Z.of_nat (length (firstn (Z.to_nat 19) (flat_map (msb_bits true 8) [x03])))
     = Z.min 19 (8 * Z.of_nat (length [x03]))
  /\ decompressFile true 32 truncated_container
     = decompressFile true 32
         (le32 (Z.of_nat (length sample_table)) ++ write_table sample_table
            ++ le32 10 ++ le32 (Z.min 19 (8 * Z.of_nat (length [x03])))
            ++ [x03])
  /\ (forall out, decompressFile true 32 truncated_container = Ok out ->
        Z.of_nat (length out) = 10).
Proof.
  assert (H1 : Forall (fun pair : byte * Z => 0 <= snd pair < 2 ^ 32) sample_table).
  { repeat (constructor; [simpl; lia|]). constructor. }
  assert (H2 : Z.of_nat (length sample_table) < 2 ^ 32) by (simpl; lia).
  assert (H3 : 0 <= 10 < 2 ^ 32) by lia.
  assert (H4 : 0 <= 19 < 2 ^ 32) by lia.
  repeat (split; [assumption|]).
  exact (container_not_validated true 32 sample_table 10 19 [x03] H1 H2 H3 H4).
Defined.

(** C5 as stated fails: the payload of this container holds 8 of the 19
    bits its header declares, and decompression returns ten bytes (not the
    original ones) without reporting anything. *)
Lemma malformed_container_cex :
  truncated_container
    = le32 4 ++ write_table sample_table ++ le32 10 ++ le32 19 ++ [x03]
  /\ decompressFile true 32 truncated_container = Ok (repeat x41 10).
Proof. split; [reflexivity | vm_compute; reflexivity]. Qed.

(** ** The decoder's symbol lookup *)

(** C3, as the code has it: when the scaled value lies in no range of the
    table, nothing is reported.  The symbol keeps its initial value, the
    byte 0.  Where the table has an entry for the byte 0 with a count field
    that is not 0, the interval is narrowed with the range of that entry,
    and the step returns the byte 0 for the output as soon as the
    renormalisation loop that follows has ended (and does not return while
    that loop has not).  Where the table has no entry for the byte 0, or the
    count field is 0, the narrowing divides by zero.  A step that returns
    after an unmatched scaled value returns the byte 0. *)
Theorem unmatched_scaled_value (char_signed : bool) (fuel : nat)
    (ranges : @cmap SymbolRange) (total : Z) (s : decoder) (v : Z) :
  scaled_of s total = Ok v ->
  scan ranges v = None ->
  scan_symbol ranges v = x00
  /\ (forall r, map_find x00 ranges = Some r -> sr_count r <> 0 ->
      exists lo hi,
        narrow (d_low s) (d_high s) r = Ok (lo, hi)
        /\ (forall s1,
              dec_renorm fuel (mkDecoder lo hi (value s) (unread s)) = Ok s1 ->
              decode_symbol char_signed fuel ranges total s
                = Ok (ranges, x00, s1)
              /\ forall n,
                   decode_loop char_signed fuel ranges total (S n) s
                     = ('(rest, s2) <- decode_loop char_signed fuel ranges total
                                         n s1;;
                        Ok (x00 :: rest, s2)))
        /\ (dec_renorm fuel (mkDecoder lo hi (value s) (unread s)) = OutOfFuel ->
            decode_symbol char_signed fuel ranges total s = OutOfFuel))
  /\ (forall r, map_find x00 ranges = Some r -> sr_count r = 0 ->
      decode_symbol char_signed fuel ranges total s = Fault DivisionByZero)
  /\ (map_find x00 ranges = None ->
      decode_symbol char_signed fuel ranges total s = Fault DivisionByZero)
  /\ (forall ranges' symbol s',
      decode_symbol char_signed fuel ranges total s = Ok (ranges', symbol, s') ->
      ranges' = ranges /\ symbol = x00).
Proof.
  intros Hv Hscan.
  assert (Hsym : scan_symbol ranges v = x00)
    by (unfold scan_symbol; now rewrite Hscan).
  split; [exact Hsym|].
  assert (Hstep : decode_symbol char_signed fuel ranges total s
                  = (let (current_range, ranges1) :=
                       map_index char_signed no_range x00 ranges in
                     '(lo, hi) <- narrow (d_low s) (d_high s) current_range;;
                     s1 <- dec_renorm fuel (mkDecoder lo hi (value s) (unread s));;
                     Ok (ranges1, x00, s1))).
  { unfold decode_symbol. rewrite Hv. cbn [bind]. now rewrite Hsym. }
  cbn [decode_loop]. rewrite Hstep. clear Hstep.
  unfold map_index.
  destruct (map_find x00 ranges) as [r|] eqn:E0.
  - split; [|split; [|split]].
    + intros r' [= <-] Hz.
      assert (Hex : exists lo hi, narrow (d_low s) (d_high s) r = Ok (lo, hi)).
      { unfold narrow, div32.
        destruct (Z.eqb_spec (sr_count r) 0); [contradiction|].
        cbn [bind]. eauto. }
      destruct Hex as (lo & hi & Hn).
      exists lo, hi. split; [exact Hn|]. rewrite Hn. cbn [bind].
      split; [|intros ->; reflexivity].
      intros s1 ->. cbn [bind]. split; reflexivity.
    + intros r' [= <-] Hz. unfold narrow, div32. rewrite Hz. reflexivity.
    + discriminate.
    + intros ranges' symbol s' H.
      destruct (narrow (d_low s) (d_high s) r) as [[lo hi]|f|]; cbn [bind] in H;
        try discriminate.
      destruct (dec_renorm fuel _) as [s1|f|]; cbn [bind] in H; try discriminate.
      injection H as <- <- _. split; reflexivity.
  - unfold narrow, div32. cbn [no_range sr_count Z.eqb bind].
    split; [intros r'; discriminate|]. split; [intros r'; discriminate|].
    split; [reflexivity|]. intros ranges' symbol s' H. discriminate H.
Qed.

Lemma unmatched_scaled_value_witness :
  let ranges := fst (buildCumulativeFreq true nomatch_table) in
  let s := mkDecoder 2 32768 33338 [] in
  scaled_of s 65537 = Ok 66677
  /\ scan ranges 66677 = None
  /\ map_find x00 ranges = Some (mkRange 0 32767 65537)
  /\ narrow (d_low s) (d_high s) (mkRange 0 32767 65537) = Ok (2, 16383)
  /\ dec_renorm 64 (mkDecoder 2 16383 (value s) (unread s))
     = Ok (mkDecoder 8 65535 133352 [])
  /\ decode_symbol true 64 ranges 65537 s
     = Ok (ranges, x00, mkDecoder 8 65535 133352 [])
  /\ decode_loop true 64 ranges 65537 1 s
     = Ok ([x00], mkDecoder 8 65535 133352 []).
Proof.
  cbv zeta.
  assert (Hv : scaled_of (mkDecoder 2 32768 33338 []) 65537 = Ok 66677)
    by (vm_compute; reflexivity).
  assert (Hs : scan (fst (buildCumulativeFreq true nomatch_table)) 66677 = None)
    by (vm_compute; reflexivity).
  assert (Hf : map_find x00 (fst (buildCumulativeFreq true nomatch_table))
               = Some (mkRange 0 32767 65537)) by (vm_compute; reflexivity).
  assert (Hr : dec_renorm 64 (mkDecoder 2 16383 33338 [])
               = Ok (mkDecoder 8 65535 133352 [])) by (vm_compute; reflexivity).
  destruct (proj1 (proj2 (unmatched_scaled_value true 64 _ 65537 _ 66677 Hv Hs))
              (mkRange 0 32767 65537) Hf ltac:(discriminate))
    as (lo & hi & Hn & Hok & _).
  assert (Hn' : narrow 2 32768 (mkRange 0 32767 65537) = Ok (2, 16383))
    by (vm_compute; reflexivity).
  cbn [d_low d_high value unread] in *.
  rewrite Hn' in Hn. injection Hn as <- <-.
  repeat (split; [assumption|]).
  destruct (Hok _ Hr) as [Hsym Hloop].
  split; [exact Hsym|]. rewrite (Hloop O). reflexivity.
Defined.

(** C3 as stated fails: decoding this container, the third step computes the
    scaled value 66677, which no range of the table holds (the total is
    65537); the decoder appends the byte 0 and returns normally. *)
Lemma unmatched_scaled_value_cex :
  let ranges := fst (buildCumulativeFreq true nomatch_table) in
  let total := snd (buildCumulativeFreq true nomatch_table) in
  let s0 := mkDecoder 0 TOP 49437 [] in
  let s1 := mkDecoder 2 4294901759 33338 [] in
  let s2 := mkDecoder 2 32768 33338 [] in
  let s3 := mkDecoder 8 65535 133352 [] in
  init_decoder nomatch_bits = s0
  /\ decode_symbol true 64 ranges total s0 = Ok (ranges, x03, s1)
  /\ decode_symbol true 64 ranges total s1 = Ok (ranges, x00, s2)
  /\ scaled_of s2 total = Ok 66677
  /\ scan ranges 66677 = None
  /\ decode_symbol true 64 ranges total s2 = Ok (ranges, x00, s3)
  /\ decompressFile true 64 nomatch_container = Ok [x03; x00; x00].
Proof. vm_compute. repeat split; reflexivity. Qed.

(** ** Register arithmetic without wrap-around *)

Lemma add32_small a b : 0 <= a + b < 2 ^ 32 -> add32 a b = a + b.
Proof. intros H. unfold add32. now apply wrap32_small. Qed.

Lemma sub32_small a b : 0 <= a - b < 2 ^ 32 -> sub32 a b = a - b.
Proof. intros H. unfold sub32. now apply wrap32_small. Qed.

Lemma mul32_small a b : 0 <= a * b < 2 ^ 32 -> mul32 a b = a * b.
Proof. intros H. unfold mul32. now apply wrap32_small. Qed.

Lemma shl1_small x : 0 <= x < 2 ^ 31 -> shl1 x = 2 * x.
Proof.
  intros H. unfold shl1. rewrite Z.shiftl_mul_pow2 by lia.
  change (2 ^ 1) with 2. rewrite wrap32_small; lia.
Qed.

Lemma lor_even_1 x : 0 <= x -> Z.lor (2 * x) 1 = 2 * x + 1.
Proof. intros H. destruct x; [reflexivity | reflexivity | lia]. Qed.

Lemma lor_even_bit x b : 0 <= x -> Z.lor (2 * x) (bit_val b) = 2 * x + bit_val b.
Proof.
  intros H. destruct b; cbn [bit_val]; [now apply lor_even_1|].
  rewrite Z.lor_0_r. lia.
Qed.

Lemma range_of_sane lo hi : sane lo hi -> range_of lo hi = hi - lo + 1.
Proof.
  unfold sane, range_of, TOP. intros H.
  rewrite sub32_small by lia. rewrite add32_small by lia. reflexivity.
Qed.

Lemma div_scale_le R h t : 0 <= R -> 0 < t -> 0 <= h <= t -> 0 <= R * h / t <= R.
Proof.
  intros HR Ht Hh. split; [apply Z.div_pos; nia|].
  apply Z.div_le_upper_bound; nia.
Qed.

Lemma div_scale_mono R l h t : 0 <= R -> 0 < t -> l <= h -> R * l / t <= R * h / t.
Proof. intros HR Ht Hlh. apply Z.div_le_mono; nia. Qed.

(** A symbol of positive count keeps a non-empty share of an interval that
    is at least as wide as the total. *)
Lemma div_scale_lt R l h t : 0 < t <= R -> l < h -> R * l / t < R * h / t.
Proof.
  intros Ht Hlh.
  assert (H1 : R * l / t + 1 = (R * l + 1 * t) / t) by (rewrite Z.div_add; lia).
  assert (H2 : (R * l + 1 * t) / t <= R * h / t) by (apply Z.div_le_mono; nia).
  lia.
Qed.

(** ** One renormalisation step of the encoder *)

Lemma enc_renorm_step_sane s s1 bits :
  sane (low s) (high s) -> enc_renorm_step s = Some (s1, bits) ->
  exists off,
    0 <= off <= low s /\ high s - off < HALF
    /\ low s1 = 2 * (low s - off) /\ high s1 = 2 * (high s - off) + 1.
Proof.
  unfold sane, enc_renorm_step, TOP. intros Hs H.
  destruct (Z.ltb_spec (high s) HALF) as [H1|H1].
  { injection H as <- _. exists 0. cbn [low high]. unfold HALF, FIRST_QTR, TOP in *.
    change ((65535 + 1) / 4) with 16384 in *.
    rewrite !shl1_small by lia. rewrite lor_even_1 by lia. lia. }
  destruct (Z.leb_spec HALF (low s)) as [H2|H2].
  { injection H as <- _. exists HALF. cbn [low high]. unfold HALF, FIRST_QTR, TOP in *.
    change ((65535 + 1) / 4) with 16384 in *.
    rewrite !sub32_small by lia. rewrite !shl1_small by lia.
    rewrite lor_even_1 by lia. lia. }
  destruct (Z.leb_spec FIRST_QTR (low s)) as [H3|H3]; [|discriminate].
  destruct (Z.ltb_spec (high s) THIRD_QTR) as [H4|H4]; [|discriminate].
  injection H as <- _. exists FIRST_QTR. cbn [low high].
  unfold HALF, THIRD_QTR, FIRST_QTR, TOP in *.
  change ((65535 + 1) / 4) with 16384 in *.
  rewrite !sub32_small by lia. rewrite !shl1_small by lia.
  rewrite lor_even_1 by lia. lia.
Qed.

Lemma enc_renorm_step_keeps_sane s s1 bits :
  sane (low s) (high s) -> enc_renorm_step s = Some (s1, bits) ->
  sane (low s1) (high s1) /\ low s1 < high s1.
Proof.
  intros Hs H. destruct (enc_renorm_step_sane s s1 bits Hs H) as (off & ? & ? & ? & ?).
  unfold sane, HALF, FIRST_QTR, TOP in *. change ((65535 + 1) / 4) with 16384 in *. lia.
Qed.

(** When the loop leaves, the interval is wider than a quarter. *)
Lemma enc_renorm_step_None_wide s :
  sane (low s) (high s) -> enc_renorm_step s = None ->
  FIRST_QTR + 2 <= high s - low s + 1.
Proof.
  unfold sane, enc_renorm_step. intros Hs H.
  destruct (Z.ltb_spec (high s) HALF) as [H1|H1]; [discriminate|].
  destruct (Z.leb_spec HALF (low s)) as [H2|H2]; [discriminate|].
  unfold HALF, THIRD_QTR, FIRST_QTR, TOP in *.
  change ((65535 + 1) / 4) with 16384 in *.
  destruct (Z.leb_spec 16384 (low s)) as [H3|H3];
    destruct (Z.ltb_spec (high s) (3 * 16384)) as [H4|H4];
    try discriminate; lia.
Qed.

Lemma enc_renorm_sane fuel : forall s s' bits,
  sane (low s) (high s) -> enc_renorm fuel s = Ok (s', bits) ->
  sane (low s') (high s') /\ enc_renorm_step s' = None.
Proof.
  induction fuel as [|fuel IH]; intros s s' bits Hs H; cbn [enc_renorm] in H.
  - destruct (enc_renorm_step s) as [[s1 bits1]|] eqn:E; [discriminate|].
    injection H as <- _. auto.
  - destruct (enc_renorm_step s) as [[s1 bits1]|] eqn:E.
    + destruct (enc_renorm fuel s1) as [[s2 bits2]|f|] eqn:E2; cbn [bind] in H;
        try discriminate.
      injection H as <- _.
      apply (IH s1 s2 bits2); [|exact E2].
      now apply (enc_renorm_step_keeps_sane s s1 bits1).
    + injection H as <- _. auto.
Qed.

(** A collapsed interval stays collapsed, and some case always applies: the
    loop does not end. *)
Lemma enc_renorm_step_collapsed s :
  collapsed s ->
  exists s1 bits, enc_renorm_step s = Some (s1, bits) /\ collapsed s1.
Proof.
  unfold collapsed, enc_renorm_step, TOP. intros [Hl Hr].
  destruct (Z.ltb_spec (high s) HALF) as [H1|H1].
  { eexists _, _. split; [reflexivity|]. cbn [low high].
    unfold HALF, FIRST_QTR, TOP in *. change ((65535 + 1) / 4) with 16384 in *.
    rewrite !shl1_small by lia. rewrite lor_even_1 by lia. lia. }
  destruct (Z.leb_spec HALF (low s)) as [H2|H2]; [|lia].
  eexists _, _. split; [reflexivity|]. cbn [low high].
  unfold HALF, FIRST_QTR, TOP in *. change ((65535 + 1) / 4) with 16384 in *.
  rewrite !sub32_small by lia. rewrite !shl1_small by lia.
  rewrite lor_even_1 by lia. lia.
Qed.

Lemma enc_renorm_collapsed fuel : forall s,
  collapsed s -> enc_renorm fuel s = OutOfFuel.
Proof.
  induction fuel as [|fuel IH]; intros s Hc;
    destruct (enc_renorm_step_collapsed s Hc) as (s1 & bits & E & Hc1);
    cbn [enc_renorm]; rewrite E; [reflexivity|].
  now rewrite IH.
Qed.

Lemma enc_renorm_wrapped fuel s : wrapped s -> enc_renorm fuel s = Ok (s, []).
Proof.
  unfold wrapped. intros [Hl Hh].
  assert (E : enc_renorm_step s = None).
  { unfold enc_renorm_step. rewrite Hl, Hh. reflexivity. }
  destruct fuel; cbn [enc_renorm]; now rewrite E.
Qed.

(** ** Narrowing *)

Lemma narrow_sane lo hi r total :
  sane lo hi -> valid_range total r -> 0 < total < 2 ^ 16 ->
  narrow lo hi r
    = Ok (lo + (hi - lo + 1) * sr_low r / total,
          wrap32 (lo + (hi - lo + 1) * sr_high r / total - 1)).
Proof.
  intros Hs (Hlh & Hht & Hc) Ht. unfold narrow, div32.
  rewrite range_of_sane by assumption. rewrite Hc.
  destruct (Z.eqb_spec total 0); [lia|]. cbn [bind].
  unfold sane, TOP in Hs.
  pose proof (div_scale_le (hi - lo + 1) (sr_low r) total ltac:(lia) ltac:(lia) ltac:(lia)).
  pose proof (div_scale_le (hi - lo + 1) (sr_high r) total ltac:(lia) ltac:(lia) ltac:(lia)).
  rewrite !mul32_small by nia.
  rewrite !add32_small by lia. reflexivity.
Qed.

Lemma narrow_wrapped r :
  sr_count r <> 0 -> narrow 0 (2 ^ 32 - 1) r = Ok (0, 2 ^ 32 - 1).
Proof.
  intros Hc. unfold narrow, div32.
  change (range_of 0 (2 ^ 32 - 1)) with 0. unfold mul32. rewrite !Z.mul_0_l.
  destruct (Z.eqb_spec (sr_count r) 0); [contradiction|]. reflexivity.
Qed.

(** ** The encoder's loop over the input *)

Section EncoderInvariants.
Variable sg : bool.

Lemma encode_symbol_inv fuel ranges c s ranges1 s1 bits :
  encode_symbol sg fuel ranges c s = Ok (ranges1, s1, bits) ->
  exists r lo hi,
    map_find c ranges = Some r /\ ranges1 = ranges
    /\ narrow (low s) (high s) r = Ok (lo, hi)
    /\ enc_renorm fuel (mkCoder lo hi (pending_bits s)) = Ok (s1, bits).
Proof.
  unfold encode_symbol, map_index.
  destruct (map_find c ranges) as [r|].
  - destruct (narrow (low s) (high s) r) as [[lo hi]|f|] eqn:En; cbn [bind];
      try discriminate.
    destruct (enc_renorm fuel _) as [[s2 bits2]|f|] eqn:E; cbn [bind];
      try discriminate.
    intros [= <- <- <-]. exists r, lo, hi. auto.
  - unfold narrow, div32. cbn [no_range sr_count Z.eqb bind]. discriminate.
Qed.

Lemma encode_symbol_at fuel ranges c s r :
  map_find c ranges = Some r ->
  encode_symbol sg fuel ranges c s
    = ('(lo, hi) <- narrow (low s) (high s) r;;
       '(s1, bits) <- enc_renorm fuel (mkCoder lo hi (pending_bits s));;
       Ok (ranges, s1, bits)).
Proof. intros Hf. unfold encode_symbol, map_index. now rewrite Hf. Qed.

(** The state at the head of the loop when the total is below 2^16. *)
Lemma narrow_head lo hi r total l h :
  sane lo hi \/ (lo = 0 /\ hi = 2 ^ 32 - 1) ->
  valid_range total r -> 0 < total < 2 ^ 16 ->
  narrow lo hi r = Ok (l, h) ->
  sane l h \/ (l = 0 /\ h = 2 ^ 32 - 1) \/ (l = h + 1 /\ 1 <= l <= TOP + 1).
Proof.
  intros [Hs|[-> ->]] Hv Ht H.
  - rewrite (narrow_sane lo hi r total) in H by assumption.
    injection H as <- <-.
    destruct Hv as (Hlh & Hht & Hc). unfold sane, TOP in *.
    pose proof (div_scale_le (hi - lo + 1) (sr_low r) total ltac:(lia) ltac:(lia) ltac:(lia)).
    pose proof (div_scale_le (hi - lo + 1) (sr_high r) total ltac:(lia) ltac:(lia) ltac:(lia)).
    pose proof (div_scale_mono (hi - lo + 1) (sr_low r) (sr_high r) total
                  ltac:(lia) ltac:(lia) ltac:(lia)).
    destruct (Z.eq_dec (lo + (hi - lo + 1) * sr_high r / total) 0) as [Hz|Hz].
    + right. left. rewrite Hz. split; [lia | reflexivity].
    + rewrite wrap32_small by lia. lia.
  - rewrite narrow_wrapped in H by (destruct Hv as (_ & _ & ->); lia).
    injection H as <- <-. right. left. split; reflexivity.
Qed.

Lemma encode_symbol_head fuel ranges total c s ranges1 s1 bits :
  ranges_ok ranges total -> 0 < total < 2 ^ 16 ->
  sane (low s) (high s) \/ wrapped s ->
  encode_symbol sg fuel ranges c s = Ok (ranges1, s1, bits) ->
  ranges1 = ranges /\ (sane (low s1) (high s1) \/ wrapped s1).
Proof.
  intros Hok Ht Hs H.
  apply encode_symbol_inv in H. destruct H as (r & lo & hi & Hf & -> & Hn & Hr).
  split; [reflexivity|].
  apply (narrow_head _ _ r total lo hi Hs (Hok _ _ Hf) Ht) in Hn.
  destruct Hn as [Hn|[Hn|Hn]].
  - left.
    now apply (enc_renorm_sane fuel (mkCoder lo hi (pending_bits s)) s1 bits Hn).
  - rewrite (enc_renorm_wrapped fuel (mkCoder lo hi (pending_bits s)) Hn) in Hr.
    injection Hr as <- _. right. exact Hn.
  - rewrite (enc_renorm_collapsed fuel (mkCoder lo hi (pending_bits s)) Hn) in Hr.
    discriminate.
Qed.

Lemma encode_loop_head fuel ranges total text : forall s s' bits,
  ranges_ok ranges total -> 0 < total < 2 ^ 16 ->
  sane (low s) (high s) \/ wrapped s ->
  encode_loop sg fuel ranges text s = Ok (s', bits) ->
  sane (low s') (high s') \/ wrapped s'.
Proof.
  induction text as [|c text IH]; intros s s' bits Hok Ht Hs H;
    cbn [encode_loop] in H.
  - injection H as <- _. exact Hs.
  - destruct (encode_symbol sg fuel ranges c s) as [[[ranges1 s1] bits1]|f|] eqn:E;
      cbn [bind] in H; try discriminate.
    destruct (encode_symbol_head _ _ _ _ _ _ _ _ Hok Ht Hs E) as [-> Hs1].
    destruct (encode_loop sg fuel ranges text s1) as [[s2 bits2]|f|] eqn:E2;
      cbn [bind] in H; try discriminate.
    injection H as <- _. eapply IH; eassumption.
Qed.

(** The state at the head of the loop when the total is at most
    [FIRST_QTR + 2]: a proper interval wider than a quarter. *)
Lemma narrow_wide lo hi r total l h :
  sane lo hi -> FIRST_QTR + 2 <= hi - lo + 1 ->
  valid_range total r -> 0 < total <= FIRST_QTR + 2 ->
  narrow lo hi r = Ok (l, h) ->
  sane l h /\ lo <= l /\ h <= hi.
Proof.
  intros Hs Hw Hv Ht H. unfold FIRST_QTR, TOP in *.
  change ((65535 + 1) / 4) with 16384 in *.
  rewrite (narrow_sane lo hi r total) in H by (assumption || lia).
  injection H as <- <-.
  destruct Hv as (Hlh & Hht & Hc). unfold sane, TOP in *.
  pose proof (div_scale_le (hi - lo + 1) (sr_low r) total ltac:(lia) ltac:(lia) ltac:(lia)).
  pose proof (div_scale_le (hi - lo + 1) (sr_high r) total ltac:(lia) ltac:(lia) ltac:(lia)).
  pose proof (div_scale_lt (hi - lo + 1) (sr_low r) (sr_high r) total
                ltac:(lia) ltac:(lia)).
  rewrite wrap32_small by lia. lia.
Qed.

Lemma encode_symbol_wide fuel ranges total c s ranges1 s1 bits :
  ranges_ok ranges total -> 0 < total <= FIRST_QTR + 2 ->
  sane (low s) (high s) -> FIRST_QTR + 2 <= high s - low s + 1 ->
  encode_symbol sg fuel ranges c s = Ok (ranges1, s1, bits) ->
  ranges1 = ranges /\ sane (low s1) (high s1)
  /\ FIRST_QTR + 2 <= high s1 - low s1 + 1.
Proof.
  intros Hok Ht Hs Hw H.
  apply encode_symbol_inv in H. destruct H as (r & lo & hi & Hf & -> & Hn & Hr).
  split; [reflexivity|].
  apply (narrow_wide _ _ r total lo hi Hs Hw (Hok _ _ Hf) Ht) in Hn.
  destruct Hn as (Hn & _).
  destruct (enc_renorm_sane fuel (mkCoder lo hi (pending_bits s)) s1 bits Hn Hr)
    as [Hs1 Hnone].
  split; [exact Hs1|]. now apply enc_renorm_step_None_wide.
Qed.

Lemma encode_loop_wide fuel ranges total text : forall s s' bits,
  ranges_ok ranges total -> 0 < total <= FIRST_QTR + 2 ->
  sane (low s) (high s) -> FIRST_QTR + 2 <= high s - low s + 1 ->
  encode_loop sg fuel ranges text s = Ok (s', bits) ->
  sane (low s') (high s') /\ FIRST_QTR + 2 <= high s' - low s' + 1.
Proof.
  induction text as [|c text IH]; intros s s' bits Hok Ht Hs Hw H;
    cbn [encode_loop] in H.
  - injection H as <- _. auto.
  - destruct (encode_symbol sg fuel ranges c s) as [[[ranges1 s1] bits1]|f|] eqn:E;
      cbn [bind] in H; try discriminate.
    destruct (encode_symbol_wide _ _ _ _ _ _ _ _ Hok Ht Hs Hw E) as (-> & Hs1 & Hw1).
    destruct (encode_loop sg fuel ranges text s1) as [[s2 bits2]|f|] eqn:E2;
      cbn [bind] in H; try discriminate.
    injection H as <- _. eapply IH; eassumption.
Qed.

End EncoderInvariants.

(** ** Tables of positive counts *)

Section TableOk.
Variable sg : bool.

Lemma zsum_pos (freq : @cmap Z) :
  counts_pos freq -> Z.of_nat (length freq) <= zsum (map snd freq).
Proof.
  induction 1 as [|[c n] freq Hn _ IH]; [simpl; lia|].
  cbn [length map snd zsum fold_right] in *. fold (zsum (map snd freq)). lia.
Qed.

Lemma counts_ok_pos (freq : @cmap Z) : counts_ok freq -> counts_pos freq.
Proof.
  intros Hok. apply Forall_forall. intros [c n] Hin.
  apply Hok in Hin. simpl. lia.
Qed.

Lemma ranges_from_tiles_pos (freq : @cmap Z) total : forall cumulative,
  counts_pos freq -> 0 <= cumulative ->
  cumulative + zsum (map snd freq) < 2 ^ 32 ->
  tiles cumulative (map snd (ranges_from freq total cumulative))
        (cumulative + zsum (map snd freq)).
Proof.
  induction freq as [|[c n] freq IH]; intros cum Hpos Hc Hlt.
  - simpl. lia.
  - inversion Hpos as [|? ? Hn Hpos']; subst. simpl in Hn.
    pose proof (zsum_pos freq Hpos') as Hb.
    cbn [map snd zsum fold_right ranges_from tiles sr_low sr_high] in *.
    fold (zsum (map snd freq)) in *.
    unfold add32. rewrite wrap32_small by lia.
    split; [reflexivity|]. split; [lia|].
    replace (cum + (n + zsum (map snd freq))) with (cum + n + zsum (map snd freq)) by lia.
    apply IH; [assumption | lia | lia].
Qed.

Lemma table_built (freq : @cmap Z) :
  map_sorted sg freq -> counts_pos freq -> zsum (map snd freq) < 2 ^ 32 ->
  buildCumulativeFreq sg freq
    = (ranges_from freq (zsum (map snd freq)) 0, zsum (map snd freq))
  /\ table_ok (ranges_from freq (zsum (map snd freq)) 0) (zsum (map snd freq)).
Proof.
  intros Hs Hpos Hlt.
  pose proof (zsum_pos freq Hpos) as Hb.
  assert (Hsum : sum_counts freq = zsum (map snd freq)).
  { unfold sum_counts. rewrite sum_counts_acc; try lia.
    eapply Forall_impl; [|exact Hpos]. simpl. intros; lia. }
  split.
  - rewrite buildCumulativeFreq_sorted by assumption. now rewrite Hsum.
  - split; [|split].
    + rewrite keys_ranges_from. eapply sorted_NoDup; eassumption.
    + pose proof (ranges_from_tiles_pos freq (zsum (map snd freq)) 0 Hpos) as H.
      rewrite Z.add_0_l in H. apply H; lia.
    + intros c r. apply ranges_from_count.
Qed.

Lemma table_ok_ranges_ok ranges total : table_ok ranges total -> ranges_ok ranges total.
Proof.
  intros (Hnd & Ht & Hc) c r Hf. apply map_find_In in Hf.
  pose proof (tiles_bounds _ _ _ r Ht (in_map snd _ _ Hf)) as Hb. simpl in Hb.
  unfold valid_range. rewrite (Hc c r Hf). lia.
Qed.

Lemma enc_table text :
  enc_ranges sg text
    = ranges_from (calculateFrequencies sg text) (enc_total sg text) 0
  /\ enc_total sg text = zsum (map snd (calculateFrequencies sg text))
  /\ table_ok (enc_ranges sg text) (enc_total sg text)
  /\ enc_total sg text <= 256 * MAX_FREQ.
Proof.
  pose proof (calculateFrequencies_sorted sg text) as Hs.
  pose proof (calculateFrequencies_ok sg text) as Hok.
  pose proof (table_total_bound sg _ Hs Hok) as Hb. unfold MAX_FREQ in Hb.
  destruct (table_built _ Hs (counts_ok_pos _ Hok) ltac:(lia)) as [Hbuild Htab].
  unfold enc_ranges, enc_total. rewrite Hbuild. cbn [fst snd].
  unfold MAX_FREQ. auto with zarith.
Qed.

End TableOk.

(** ** The decoder's registers *)

Lemma prime_bound n : forall v bits,
  0 <= v -> (v + 1) * 2 ^ Z.of_nat n <= 2 ^ 16 ->
  0 <= fst (prime n v bits) < 2 ^ 16.
Proof.
  induction n as [|n IH]; intros v bits Hv Hb.
  - simpl in *. lia.
  - rewrite Nat2Z.inj_succ, Z.pow_succ_r in Hb by lia.
    assert (Hp : 0 < 2 ^ Z.of_nat n) by (apply Z.pow_pos_nonneg; lia).
    destruct bits as [|b bits]; cbn [prime].
    + cbn [fst]. nia.
    + assert (Hv2 : 0 <= v < 2 ^ 31) by nia.
      rewrite shl1_small by exact Hv2. rewrite lor_even_bit by lia.
      apply IH; destruct b; cbn [bit_val]; nia.
Qed.

Lemma init_decoder_ok bits : dec_ok (init_decoder bits).
Proof.
  unfold init_decoder.
  pose proof (prime_bound 16 0 bits ltac:(lia) ltac:(simpl; lia)) as H.
  destruct (prime 16 0 bits) as [v rest]. cbn [fst] in H.
  unfold dec_ok, sane, TOP. cbn [d_low d_high value]. lia.
Qed.

Lemma pull_bit_even x bits :
  0 <= x ->
  exists b, 0 <= b <= 1 /\ pull_bit (2 * x) bits = (2 * x + b, tl bits).
Proof.
  intros Hx. destruct bits as [|bb bits]; cbn [pull_bit tl].
  - exists 0. split; [lia|]. now rewrite Z.add_0_r.
  - exists (bit_val bb). rewrite lor_even_bit by lia.
    split; [destruct bb; simpl; lia | reflexivity].
Qed.

Lemma Some_eq {A : Type} (a b : A) : Some a = Some b -> a = b.
Proof. congruence. Qed.

Lemma dec_renorm_step_sane s s1 :
  dec_ok s -> dec_renorm_step s = Some s1 ->
  exists off b,
    0 <= off <= d_low s /\ d_high s - off < HALF /\ 0 <= b <= 1
    /\ d_low s1 = 2 * (d_low s - off)
    /\ d_high s1 = 2 * (d_high s - off) + 1
    /\ value s1 = 2 * (value s - off) + b
    /\ unread s1 = tl (unread s).
Proof.
  unfold dec_ok, sane, dec_renorm_step, TOP. intros [Hs Hv] H.
  destruct (Z.ltb_spec (d_high s) HALF) as [H1|H1].
  { unfold HALF, FIRST_QTR, TOP in *. change ((65535 + 1) / 4) with 16384 in *.
    rewrite !shl1_small in H by lia. rewrite lor_even_1 in H by lia.
    destruct (pull_bit_even (value s) (unread s) ltac:(lia)) as (b & Hb & Hp).
    rewrite Hp in H. apply Some_eq in H. subst s1. exists 0, b. cbn [d_low d_high value unread].
    repeat split; try lia. }
  destruct (Z.leb_spec HALF (d_low s)) as [H2|H2].
  { unfold HALF, FIRST_QTR, TOP in *. change ((65535 + 1) / 4) with 16384 in *.
    rewrite !sub32_small in H by lia. rewrite !shl1_small in H by lia.
    rewrite lor_even_1 in H by lia.
    destruct (pull_bit_even (value s - 2 * 16384) (unread s) ltac:(lia))
      as (b & Hb & Hp).
    rewrite Hp in H. apply Some_eq in H. subst s1. exists (2 * 16384), b.
    cbn [d_low d_high value unread]. repeat split; try lia. }
  destruct (Z.leb_spec FIRST_QTR (d_low s)) as [H3|H3]; [|discriminate].
  destruct (Z.ltb_spec (d_high s) THIRD_QTR) as [H4|H4]; [|discriminate].
  cbn [andb] in H.
  unfold HALF, THIRD_QTR, FIRST_QTR, TOP in *.
  change ((65535 + 1) / 4) with 16384 in *.
  rewrite !sub32_small in H by lia. rewrite !shl1_small in H by lia.
  rewrite lor_even_1 in H by lia.
  destruct (pull_bit_even (value s - 16384) (unread s) ltac:(lia))
    as (b & Hb & Hp).
  rewrite Hp in H. apply Some_eq in H. subst s1. exists 16384, b.
  cbn [d_low d_high value unread]. repeat split; try lia.
Qed.

Lemma dec_renorm_step_keeps_ok s s1 :
  dec_ok s -> dec_renorm_step s = Some s1 ->
  dec_ok s1 /\ d_low s1 < d_high s1.
Proof.
  intros Hs H.
  destruct (dec_renorm_step_sane s s1 Hs H) as (off & b & ? & ? & ? & ? & ? & ? & _).
  unfold dec_ok, sane, HALF, FIRST_QTR, TOP in *.
  change ((65535 + 1) / 4) with 16384 in *. lia.
Qed.

Lemma dec_renorm_ok fuel : forall s s',
  dec_ok s -> dec_renorm fuel s = Ok s' ->
  dec_ok s' /\ dec_renorm_step s' = None.
Proof.
  induction fuel as [|fuel IH]; intros s s' Hs H; cbn [dec_renorm] in H.
  - destruct (dec_renorm_step s) as [s1|] eqn:E; [discriminate|].
    injection H as <-. auto.
  - destruct (dec_renorm_step s) as [s1|] eqn:E.
    + apply (IH s1 s'); [|exact H]. now apply (dec_renorm_step_keeps_ok s s1).
    + injection H as <-. auto.
Qed.

(** ** One decoded symbol *)

Section DecoderInvariants.
Variable sg : bool.

Lemma scaled_of_ok s total :
  dec_ok s -> 0 < total < 2 ^ 16 ->
  scaled_of s total
    = Ok (((value s - d_low s + 1) * total - 1) / (d_high s - d_low s + 1))
  /\ 0 <= ((value s - d_low s + 1) * total - 1) / (d_high s - d_low s + 1) < total.
Proof.
  unfold dec_ok, sane, TOP. intros [Hs Hv] Ht. unfold scaled_of, div32.
  rewrite range_of_sane by (unfold sane, TOP; lia).
  rewrite (sub32_small (value s) (d_low s)) by lia. rewrite add32_small by lia.
  rewrite mul32_small by nia. rewrite sub32_small by nia.
  destruct (Z.eqb_spec (d_high s - d_low s + 1) 0); [lia|].
  split; [reflexivity|]. split.
  - apply Z.div_pos; nia.
  - apply Z.div_lt_upper_bound; nia.
Qed.

(** The range found for the scaled value holds [value] after narrowing. *)
Lemma narrow_keeps_value lo hi v r total l h :
  sane lo hi -> lo <= v <= hi -> valid_range total r -> 0 < total < 2 ^ 16 ->
  in_range r (((v - lo + 1) * total - 1) / (hi - lo + 1)) ->
  narrow lo hi r = Ok (l, h) ->
  sane l h /\ l <= v <= h /\ lo <= l /\ h <= hi.
Proof.
  intros Hs Hv Hr Ht Hin H.
  rewrite (narrow_sane lo hi r total) in H by assumption.
  injection H as <- <-.
  destruct Hr as (Hlh & Hht & Hc). unfold sane, TOP, in_range in *.
  set (R := hi - lo + 1) in *. set (x := v - lo + 1) in *.
  assert (HR : 0 < R) by (unfold R; lia).
  assert (Hx : 1 <= x <= R) by (unfold x, R; lia).
  pose proof (div_scale_le R (sr_low r) total ltac:(lia) ltac:(lia) ltac:(lia)) as Hql.
  pose proof (div_scale_le R (sr_high r) total ltac:(lia) ltac:(lia) ltac:(lia)) as Hqh.
  (* the scaled value, times the range, stays below x * total *)
  pose proof (Z.mul_div_le (x * total - 1) R HR) as Hfloor.
  assert (Hlow : R * sr_low r / total < x).
  { apply Z.div_lt_upper_bound; [lia|]. nia. }
  assert (Hhigh : x <= R * sr_high r / total).
  { apply Z.div_le_lower_bound; [lia|].
    assert (Hlt : x * total - 1 < R * sr_high r).
    { destruct (Z.lt_ge_cases (x * total - 1) (R * sr_high r)) as [|Hge];
        [assumption|].
      apply (Z.div_le_lower_bound _ R _ HR) in Hge. lia. }
    lia. }
  rewrite wrap32_small by (unfold x in *; lia).
  unfold x in *. lia.
Qed.

Lemma decode_symbol_inv fuel ranges total s ranges1 symbol s1 :
  table_ok ranges total -> 0 < total < 2 ^ 16 -> dec_ok s ->
  decode_symbol sg fuel ranges total s = Ok (ranges1, symbol, s1) ->
  exists r lo hi,
    ranges1 = ranges
    /\ scan ranges (((value s - d_low s + 1) * total - 1) / (d_high s - d_low s + 1))
         = Some symbol
    /\ map_find symbol ranges = Some r
    /\ in_range r (((value s - d_low s + 1) * total - 1) / (d_high s - d_low s + 1))
    /\ narrow (d_low s) (d_high s) r = Ok (lo, hi)
    /\ dec_renorm fuel (mkDecoder lo hi (value s) (unread s)) = Ok s1.
Proof.
  intros (Hnd & Htiles & Hcount) Ht Hs H. unfold decode_symbol in H.
  destruct (scaled_of_ok s total Hs Ht) as [Hsc Hb]. rewrite Hsc in H.
  cbn [bind] in H.
  destruct (scan_tiles ranges 0 total _ Hnd Htiles Hb)
    as (c & r & Hscan & Hin & Hr & _ & Hf).
  unfold scan_symbol, map_index in H. rewrite Hscan, Hf in H.
  destruct (narrow (d_low s) (d_high s) r) as [[lo hi]|f|] eqn:En;
    cbn [bind] in H; try discriminate.
  destruct (dec_renorm fuel _) as [s2|f|] eqn:Er; cbn [bind] in H;
    try discriminate.
  injection H as <- <- <-. exists r, lo, hi. auto 10.
Qed.

Lemma decode_symbol_ok fuel ranges total s ranges1 symbol s1 :
  table_ok ranges total -> 0 < total < 2 ^ 16 -> dec_ok s ->
  decode_symbol sg fuel ranges total s = Ok (ranges1, symbol, s1) ->
  ranges1 = ranges /\ dec_ok s1.
Proof.
  intros Htab Ht Hs H.
  destruct (decode_symbol_inv _ _ _ _ _ _ _ Htab Ht Hs H)
    as (r & lo & hi & -> & _ & Hf & Hin & Hn & Hr).
  split; [reflexivity|].
  destruct Hs as [Hs Hv].
  pose proof (table_ok_ranges_ok _ _ Htab _ _ Hf) as Hvalid.
  destruct (narrow_keeps_value _ _ _ _ _ _ _ Hs Hv Hvalid Ht Hin Hn)
    as (Hs' & Hv' & _).
  apply (dec_renorm_ok fuel (mkDecoder lo hi (value s) (unread s)) s1);
    [split; assumption | exact Hr].
Qed.

Lemma decode_loop_ok fuel ranges total n : forall s out s',
  table_ok ranges total -> 0 < total < 2 ^ 16 -> dec_ok s ->
  decode_loop sg fuel ranges total n s = Ok (out, s') -> dec_ok s'.
Proof.
  induction n as [|n IH]; intros s out s' Htab Ht Hs H; cbn [decode_loop] in H.
  - injection H as _ <-. exact Hs.
  - destruct (decode_symbol sg fuel ranges total s) as [[[ranges1 sym] s1]|f|] eqn:E;
      cbn [bind] in H; try discriminate.
    destruct (decode_symbol_ok _ _ _ _ _ _ _ Htab Ht Hs E) as [-> Hs1].
    destruct (decode_loop sg fuel ranges total n s1) as [[rest s2]|f|] eqn:E2;
      cbn [bind] in H; try discriminate.
    injection H as _ <-. eapply IH; eassumption.
Qed.

End DecoderInvariants.

(** ** The interval throughout a run *)

Section IntervalInvariant.
Variable sg : bool.

Lemma map_index_range c ranges total :
  ranges_ok ranges total ->
  let r := fst (map_index sg no_range c ranges) in
  valid_range total r \/ r = no_range.
Proof.
  intros Hok. unfold map_index. destruct (map_find c ranges) as [r|] eqn:E.
  - left. exact (Hok _ _ E).
  - right. reflexivity.
Qed.

Lemma narrow_no_range lo hi : narrow lo hi no_range = Fault DivisionByZero.
Proof. reflexivity. Qed.

Lemma init_coder_wide :
  sane (low init_coder) (high init_coder)
  /\ FIRST_QTR + 2 <= high init_coder - low init_coder + 1.
Proof.
  unfold sane, init_coder, FIRST_QTR, TOP. cbn [low high].
  change ((65535 + 1) / 4) with 16384. lia.
Qed.

Lemma enc_visits_sane text p s :
  enc_total sg text <= FIRST_QTR + 2 ->
  enc_visits sg text p s ->
  sane (low s) (high s) /\ (p <> AfterNarrow -> low s < high s).
Proof.
  intros Htot Hv.
  destruct (enc_table sg text) as (_ & _ & Htab & _).
  pose proof (table_ok_ranges_ok _ _ Htab) as Hok.
  induction Hv as [|fuel pre c post s bits lo hi Htext Hrun Hn | p s s1 bits Hv IH Hp Hstep].
  - split; [apply init_coder_wide|]. intros _.
    unfold init_coder, TOP. cbn [low high]. lia.
  - split; [|congruence].
    destruct (map_index_range c _ _ Hok) as [Hr|Hr];
      [|rewrite Hr, narrow_no_range in Hn; discriminate].
    assert (Hpos : 0 < enc_total sg text) by (destruct Hr as (? & ? & _); lia).
    destruct init_coder_wide as [Hi Hw].
    destruct (encode_loop_wide sg fuel _ _ pre _ _ _ Hok (conj Hpos Htot) Hi Hw Hrun)
      as [Hs Hws].
    now destruct (narrow_wide _ _ _ _ _ _ Hs Hws Hr (conj Hpos Htot) Hn).
  - destruct IH as [Hs _].
    destruct (enc_renorm_step_keeps_sane s s1 bits Hs Hstep). auto.
Qed.

Lemma dec_visits_ok freq text_size bits p s :
  map_sorted sg freq -> counts_pos freq -> freq <> [] ->
  zsum (map snd freq) < 2 ^ 16 ->
  dec_visits sg freq text_size bits p s ->
  dec_ok s /\ (p <> AfterNarrow -> d_low s < d_high s).
Proof.
  intros Hs Hpos Hne Hlt Hv.
  destruct (table_built sg freq Hs Hpos ltac:(lia)) as [Hbuild Htab].
  assert (Ht : 0 < zsum (map snd freq) < 2 ^ 16).
  { pose proof (zsum_pos freq Hpos). destruct freq; [congruence|].
    cbn [length] in *. lia. }
  induction Hv as [|fuel k out s sv lo hi Hk Hrun Hsc Hn | p s s1 Hv IH Hp Hstep].
  - split; [apply init_decoder_ok|]. intros _.
    unfold init_decoder. destruct (prime 16 0 bits).
    unfold TOP. cbn [d_low d_high]. lia.
  - split; [|congruence].
    rewrite Hbuild in Hrun, Hsc, Hn. cbn [fst snd] in Hrun, Hsc, Hn.
    pose proof (decode_loop_ok sg fuel _ _ k _ _ _ Htab Ht (init_decoder_ok bits) Hrun)
      as Hok.
    destruct (scaled_of_ok s _ Hok Ht) as [Hsc' Hb].
    rewrite Hsc' in Hsc. injection Hsc as <-.
    destruct Htab as (Hnd & Htiles & Hcount).
    destruct (scan_tiles _ 0 _ _ Hnd Htiles Hb) as (c & r & Hscan & Hin & Hr & _ & Hf).
    unfold scan_symbol, map_index in Hn. rewrite Hscan, Hf in Hn. cbn [fst] in Hn.
    destruct Hok as [Hsane Hval].
    pose proof (table_ok_ranges_ok _ _ (conj Hnd (conj Htiles Hcount)) _ _ Hf) as Hvalid.
    destruct (narrow_keeps_value _ _ _ _ _ _ _ Hsane Hval Hvalid Ht Hr Hn)
      as (Hs' & Hv' & _).
    split; assumption.
  - destruct IH as [Hok _].
    destruct (dec_renorm_step_keeps_ok s s1 Hok Hstep). auto.
Qed.

End IntervalInvariant.

(** X23: Encoding an input whose frequency total is at
    most [FIRST_QTR + 2] = 16386, and decoding with a non-empty table of
    positive counts whose total is below 2^16, the registers always hold a
    proper 16-bit interval: [0 <= low <= high <= TOP] after every narrowing,
    and [low < high] after the initialisation and after every E1, E2 or E3
    step; in the decoder [value] lies in the interval throughout. *)
Theorem interval_invariant (char_signed : bool) (text : list byte)
    (freq : @cmap Z) (text_size : Z) (bits : list bool) :
  enc_total char_signed text <= FIRST_QTR + 2 ->
  map_sorted char_signed freq -> counts_pos freq -> freq <> [] ->
  zsum (map snd freq) < 2 ^ 16 ->
  (forall p s, enc_visits char_signed text p s ->
     0 <= low s <= high s /\ high s <= TOP
     /\ (p <> AfterNarrow -> low s < high s))
  /\ (forall p s, dec_visits char_signed freq text_size bits p s ->
     0 <= d_low s <= d_high s /\ d_high s <= TOP
     /\ d_low s <= value s <= d_high s
     /\ (p <> AfterNarrow -> d_low s < d_high s)).
Proof.
  intros Htot Hs Hpos Hne Hlt. split.
  - intros p s Hv.
    destruct (enc_visits_sane char_signed text p s Htot Hv) as [[H1 H2] H3]. auto.
  - intros p s Hv.
    destruct (dec_visits_ok char_signed freq text_size bits p s Hs Hpos Hne Hlt Hv)
      as [[[H1 H2] H3] H4]. auto.
Qed.

Lemma interval_invariant_witness :
  enc_visits true sample_text AfterNarrow (mkCoder 0 26213 0)
  /\ 0 <= low (mkCoder 0 26213 0) <= high (mkCoder 0 26213 0)
  /\ high (mkCoder 0 26213 0) <= TOP
  /\ (AfterNarrow <> AfterNarrow -> low (mkCoder 0 26213 0) < high (mkCoder 0 26213 0)).
Proof.
  assert (Hv : enc_visits true sample_text AfterNarrow (mkCoder 0 26213 0)).
  { apply (EV_narrow true sample_text 0 [] x41 (skipn 1 sample_text) init_coder []);
      [reflexivity | reflexivity | vm_compute; reflexivity]. }
  split; [exact Hv|].
  apply (proj1 (interval_invariant true sample_text sample_table 10 []
                  ltac:(vm_compute; discriminate)
                  (sample_table_sorted true)
                  (counts_ok_pos _ sample_table_ok)
                  ltac:(discriminate)
                  ltac:(vm_compute; reflexivity))).
  exact Hv.
Defined.

(** ** An input on which the interval collapses *)

Lemma collapsing_table sg :
  calculateFrequencies sg collapsing_text = [(x61, 1); (x62, 16383); (x63, 16383)].
Proof. destruct sg; vm_compute; reflexivity. Qed.

Lemma collapsing_enc_ranges sg : enc_ranges sg collapsing_text = collapsing_ranges.
Proof.
  unfold enc_ranges. rewrite collapsing_table. destruct sg; vm_compute; reflexivity.
Qed.

Section Collapse.
Variable sg : bool.

Lemma collapse_symbol_1 fuel :
  encode_symbol sg fuel collapsing_ranges x62 init_coder
    = Ok (collapsing_ranges, mkCoder 2 32768 0, []).
Proof.
  rewrite (encode_symbol_at sg fuel _ _ _ (mkRange 1 16384 32767)) by reflexivity.
  change (narrow (low init_coder) (high init_coder) (mkRange 1 16384 32767))
    with (@Ok (Z * Z) (2, 32768)).
  cbn [bind]. destruct fuel; reflexivity.
Qed.

Lemma collapse_symbol_2 fuel :
  encode_symbol sg (S fuel) collapsing_ranges x62 (mkCoder 2 32768 0)
    = Ok (collapsing_ranges, mkCoder 6 32771 0, [false]).
Proof.
  rewrite (encode_symbol_at sg _ _ _ _ (mkRange 1 16384 32767)) by reflexivity.
  change (narrow (low (mkCoder 2 32768 0)) (high (mkCoder 2 32768 0))
            (mkRange 1 16384 32767))
    with (@Ok (Z * Z) (3, 16385)).
  cbn [bind]. destruct fuel; reflexivity.
Qed.

Lemma collapse_symbol_2_no_fuel :
  encode_symbol sg 0 collapsing_ranges x62 (mkCoder 2 32768 0) = OutOfFuel.
Proof. reflexivity. Qed.

(** The third symbol, 'a', has the share [0, 1) of a total of 32767 and the
    interval is 32766 wide: its share of it is empty. *)
Lemma collapse_narrow_3 :
  narrow 6 32771 (mkRange 0 1 32767) = Ok (6, 5).
Proof. reflexivity. Qed.

Lemma collapse_symbol_3 fuel :
  encode_symbol sg fuel collapsing_ranges x61 (mkCoder 6 32771 0) = OutOfFuel.
Proof.
  rewrite (encode_symbol_at sg _ _ _ _ (mkRange 0 1 32767)) by reflexivity.
  cbn [low high pending_bits]. rewrite collapse_narrow_3. cbn [bind].
  rewrite enc_renorm_collapsed; [reflexivity|].
  unfold collapsed, TOP. cbn [low high]. lia.
Qed.

Lemma collapse_encode_loop fuel :
  encode_loop sg fuel collapsing_ranges collapsing_text init_coder = OutOfFuel.
Proof.
  unfold collapsing_text. cbn [app encode_loop].
  rewrite collapse_symbol_1. cbn [bind].
  destruct fuel as [|fuel].
  - rewrite collapse_symbol_2_no_fuel. reflexivity.
  - rewrite collapse_symbol_2. cbn [bind].
    rewrite collapse_symbol_3. reflexivity.
Qed.

End Collapse.

Lemma encode_bits_unfold sg fuel text :
  encode_bits sg fuel text
    = ('(s, bits) <- encode_loop sg fuel (enc_ranges sg text) text init_coder;;
       Ok (bits ++ final_bits s)).
Proof.
  unfold encode_bits, enc_ranges.
  destruct (buildCumulativeFreq sg (calculateFrequencies sg text)). reflexivity.
Qed.

Lemma compressFile_OutOfFuel sg fuel text :
  encode_loop sg fuel (enc_ranges sg text) text init_coder = OutOfFuel ->
  compressFile sg fuel text = OutOfFuel.
Proof.
  intros H. unfold compressFile. rewrite encode_bits_unfold, H. reflexivity.
Qed.

(** C1 fails on this input: whatever the fuel, the renormalisation loop for
    the third byte has not ended, and no container is produced. *)
Theorem compress_diverges (char_signed : bool) (fuel : nat) :
  compressFile char_signed fuel collapsing_text = OutOfFuel.
Proof.
  apply compressFile_OutOfFuel.
  rewrite collapsing_enc_ranges. apply collapse_encode_loop.
Qed.

(** ** The products of the coder *)

Lemma all_bytes_In c : In c all_bytes.
Proof.
  unfold all_bytes. apply in_map_iff. exists (Z.to_nat (byte_val c)).
  pose proof (byte_val_range c) as Hr. split.
  - rewrite Z2Nat.id by lia. apply byte_of_Z_val.
  - apply in_seq. lia.
Qed.

Lemma all_bytes_NoDup : NoDup all_bytes.
Proof.
  unfold all_bytes. apply Injective_map_NoDup_in; [|apply seq_NoDup].
  intros x y Hx Hy H. apply in_seq in Hx. apply in_seq in Hy.
  apply (f_equal byte_val) in H. rewrite !byte_val_of_Z in H.
  rewrite !Z.mod_small in H by lia. lia.
Qed.

Lemma all_bytes_length : length all_bytes = 256%nat.
Proof. unfold all_bytes. now rewrite length_map, length_seq. Qed.

Lemma occurrences_app c l1 l2 :
  occurrences c (l1 ++ l2) = occurrences c l1 + occurrences c l2.
Proof. unfold occurrences. rewrite count_occ_app. lia. Qed.

Lemma occurrences_repeat c b n :
  occurrences c (repeat b n) = if Byte.eqb c b then Z.of_nat n else 0.
Proof.
  unfold occurrences. byte_cases c b.
  - now rewrite count_occ_repeat_eq.
  - now rewrite count_occ_repeat_neq.
Qed.

Lemma occurrences_flat_repeat c n l :
  occurrences c (flat_map (fun b => repeat b n) l) = Z.of_nat n * occurrences c l.
Proof.
  induction l as [|b l IH]; [unfold occurrences; simpl; lia|].
  cbn [flat_map]. rewrite occurrences_app, IH, occurrences_repeat, occurrences_cons.
  destruct (Byte.eqb c b); lia.
Qed.

Lemma occurrences_all_bytes c : occurrences c all_bytes = 1.
Proof.
  unfold occurrences.
  rewrite (proj1 (NoDup_count_occ' Byte.byte_eq_dec all_bytes) all_bytes_NoDup c
             (all_bytes_In c)).
  reflexivity.
Qed.

Lemma In_map_find {V} (m : @cmap V) c v :
  NoDup (keys m) -> In (c, v) m -> map_find c m = Some v.
Proof.
  induction m as [|[k w] m IH]; intros Hnd Hin; [destruct Hin|].
  inversion Hnd as [|? ? Hnotin Hnd']; subst. cbn [map_find].
  destruct Hin as [[= -> ->]|Hin].
  - now rewrite eqb_refl.
  - byte_cases c k; [|now apply IH].
    exfalso. apply Hnotin. now apply (in_map fst) in Hin.
Qed.

Lemma zsum_const (freq : @cmap Z) n :
  (forall c k, In (c, k) freq -> k = n) ->
  zsum (map snd freq) = Z.of_nat (length freq) * n.
Proof.
  induction freq as [|[c k] freq IH]; intros H; [reflexivity|].
  cbn [map snd zsum fold_right length]. fold (zsum (map snd freq)).
  rewrite IH by (intros c' k' Hin; apply (H c'); now right).
  rewrite (H c k) by now left. lia.
Qed.

Section Products.
Variable sg : bool.

Lemma total_of_saturated text :
  (forall c, occurrences c text = MAX_FREQ) ->
  enc_total sg text = 256 * MAX_FREQ.
Proof.
  intros Hocc.
  destruct (enc_table sg text) as (_ & -> & _ & _).
  pose proof (calculateFrequencies_sorted sg text) as Hs.
  pose proof (sorted_NoDup sg _ Hs) as Hnd.
  assert (Hall : forall c k, In (c, k) (calculateFrequencies sg text) -> k = MAX_FREQ).
  { intros c k Hin. apply (In_map_find _ c k Hnd) in Hin.
    rewrite calculateFrequencies_find, Hocc in Hin.
    change (MAX_FREQ =? 0) with false in Hin. cbv iota in Hin.
    rewrite Z.min_id in Hin. congruence. }
  assert (Hlen : length (keys (calculateFrequencies sg text)) = 256%nat).
  { apply Nat.le_antisymm; [now apply NoDup_bytes_length|].
    rewrite <- all_bytes_length.
    apply NoDup_incl_length; [apply all_bytes_NoDup|].
    intros c _. apply (proj2 (calculateFrequencies_keys sg text c)).
    apply occurrences_pos. rewrite Hocc. unfold MAX_FREQ. lia. }
  unfold keys in Hlen. rewrite length_map in Hlen.
  rewrite (zsum_const _ MAX_FREQ Hall), Hlen. reflexivity.
Qed.

Lemma saturating_total : enc_total sg saturating_text = 256 * MAX_FREQ.
Proof.
  apply total_of_saturated. intros c. unfold saturating_text.
  rewrite occurrences_flat_repeat, occurrences_all_bytes.
  rewrite Z2Nat.id by (unfold MAX_FREQ; lia). lia.
Qed.

Lemma enc_total_pos text c : In c text -> 0 < enc_total sg text.
Proof.
  intros Hin. destruct (enc_table sg text) as (_ & -> & _ & _).
  pose proof (zsum_pos _ (counts_ok_pos _ (calculateFrequencies_ok sg text))) as Hb.
  apply calculateFrequencies_keys with (sg := sg) in Hin.
  destruct (calculateFrequencies sg text); [destruct Hin|].
  cbn [length] in Hb. lia.
Qed.

Lemma range_of_head s :
  sane (low s) (high s) \/ wrapped s -> 0 <= range_of (low s) (high s) <= 2 ^ 16.
Proof.
  intros [Hs|[Hl Hh]].
  - rewrite range_of_sane by assumption. unfold sane, TOP in Hs. lia.
  - rewrite Hl, Hh. change (range_of 0 (2 ^ 32 - 1)) with 0. lia.
Qed.

Lemma enc_multiplies_fit text a b :
  enc_total sg text < 2 ^ 16 ->
  enc_multiplies sg text a b -> 0 <= a * b < 2 ^ 32.
Proof.
  intros Htot Hm.
  destruct (enc_table sg text) as (_ & _ & Htab & _).
  pose proof (table_ok_ranges_ok _ _ Htab) as Hok.
  assert (Hhead : forall fuel pre c post s bits,
             text = pre ++ c :: post ->
             encode_loop sg fuel (enc_ranges sg text) pre init_coder = Ok (s, bits) ->
             0 <= range_of (low s) (high s) <= 2 ^ 16).
  { intros fuel pre c post s bits Htext Hrun. apply range_of_head.
    assert (Hpos : 0 < enc_total sg text).
    { apply (enc_total_pos text c). rewrite Htext. apply in_or_app. right. now left. }
    apply (encode_loop_head sg fuel _ _ pre _ _ _ Hok (conj Hpos Htot)
             (or_introl (proj1 init_coder_wide)) Hrun). }
  destruct Hm as [fuel pre c post s bits Htext Hrun | fuel pre c post s bits Htext Hrun];
    pose proof (Hhead _ _ _ _ _ _ Htext Hrun) as Ha;
    pose proof (map_index_range sg c _ _ Hok) as Hr; cbv zeta in Hr;
    (destruct Hr as [(Hlh & Hht & _) | Hnr];
     [|rewrite Hnr; cbn [no_range sr_low sr_high]]; nia).
Qed.

Lemma dec_multiplies_fit freq text_size bits a b :
  map_sorted sg freq -> counts_pos freq -> zsum (map snd freq) < 2 ^ 16 ->
  dec_multiplies sg freq text_size bits a b -> 0 <= a * b < 2 ^ 32.
Proof.
  intros Hs Hpos Hlt Hm.
  destruct freq as [|entry freq'] eqn:Ef.
  { destruct Hm as [fuel k out s Hk Hrun | fuel k out s sv hl Hk Hrun Hsc].
    - cbn [buildCumulativeFreq sum_counts fold_left snd].
      rewrite Z.mul_0_r. lia.
    - cbn [buildCumulativeFreq build_ranges fst map_index map_find no_range].
      destruct hl; cbn [sr_high sr_low]; rewrite Z.mul_0_r; lia. }
  rewrite <- Ef in *.
  destruct (table_built sg freq Hs Hpos ltac:(lia)) as [Hbuild Htab].
  assert (Ht : 0 < zsum (map snd freq) < 2 ^ 16).
  { pose proof (zsum_pos freq Hpos). rewrite Ef in *. cbn [length] in *. lia. }
  destruct Hm as [fuel k out s Hk Hrun | fuel k out s sv hl Hk Hrun Hsc];
    rewrite Hbuild in *; cbn [fst snd] in *;
    pose proof (decode_loop_ok sg fuel _ _ k _ _ _ Htab Ht (init_decoder_ok bits) Hrun)
      as Hok.
  - destruct Hok as [Hsane Hv]. unfold sane, TOP in Hsane.
    rewrite sub32_small by lia. rewrite add32_small by lia. nia.
  - destruct (scaled_of_ok s _ Hok Ht) as [Hsc' Hb].
    rewrite Hsc' in Hsc. injection Hsc as <-.
    destruct Htab as (Hnd & Htiles & Hcount).
    destruct (scan_tiles _ 0 _ _ Hnd Htiles Hb) as (c & r & Hscan & Hin & Hr & _ & Hf).
    unfold scan_symbol, map_index. rewrite Hscan, Hf. cbn [fst].
    pose proof (table_ok_ranges_ok _ _ (conj Hnd (conj Htiles Hcount)) _ _ Hf)
      as (Hlh & Hht & _).
    destruct Hok as [Hsane Hv]. rewrite range_of_sane by assumption.
    unfold sane, TOP in Hsane. destruct hl; nia.
Qed.

Lemma narrow_mod lo hi r l h :
  narrow lo hi r = Ok (l, h) ->
  l = (lo + ((range_of lo hi * sr_low r) mod 2 ^ 32) / sr_count r) mod 2 ^ 32
  /\ h = ((lo + ((range_of lo hi * sr_high r) mod 2 ^ 32) / sr_count r) mod 2 ^ 32 - 1)
           mod 2 ^ 32.
Proof.
  unfold narrow, div32. destruct (sr_count r =? 0); [discriminate|].
  cbn [bind]. intros [= <- <-]. split; reflexivity.
Qed.

Lemma scaled_mod s total v :
  scaled_of s total = Ok v ->
  v = (((add32 (sub32 (value s) (d_low s)) 1 * total) mod 2 ^ 32 - 1) mod 2 ^ 32)
        / range_of (d_low s) (d_high s).
Proof.
  unfold scaled_of, div32. destruct (range_of (d_low s) (d_high s) =? 0);
    [discriminate|]. intros [= <-]. reflexivity.
Qed.

End Products.

Lemma wrapping_table sg :
  calculateFrequencies sg wrapping_text
    = [(x01, 16383); (x02, 16383); (x03, 16383); (x04, 16383); (x05, 4)].
Proof. destruct sg; vm_compute; reflexivity. Qed.

Lemma wrapping_enc_ranges sg :
  enc_ranges sg wrapping_text = wrapping_ranges /\ enc_total sg wrapping_text = 65536.
Proof.
  unfold enc_ranges, enc_total. rewrite wrapping_table.
  destruct sg; vm_compute; split; reflexivity.
Qed.

Lemma wrapping_product sg :
  enc_multiplies sg wrapping_text 65536 65536.
Proof.
  pose proof (EM_high sg wrapping_text 0 [] x05
                (repeat x01 16383 ++ repeat x02 16383 ++ repeat x03 16383
                   ++ repeat x04 16383 ++ repeat x05 3)
                init_coder [] eq_refl eq_refl) as H.
  rewrite (proj1 (wrapping_enc_ranges sg)) in H. exact H.
Qed.

(** C10: the products [range * symbolHigh], [range * symbolLow] and
    [(value - low + 1) * total] are reduced modulo 2^32 before they are
    divided.  When the total of the counts is below 2^16, every product the
    encoder or the decoder evaluates is below 2^32, so the reduction changes
    nothing.  Without that bound the total is at most 256 * 16383, the input
    holding every byte value 16383 times reaches it, and on
    [wrapping_text] (total 65536) the first product is 2^32 and wraps. *)
Theorem products_modulo_2_32 (char_signed : bool) (text : list byte)
    (freq : @cmap Z) (text_size : Z) (bits : list bool) :
  enc_total char_signed text < 2 ^ 16 ->
  map_sorted char_signed freq -> counts_pos freq ->
  zsum (map snd freq) < 2 ^ 16 ->
  (forall lo hi r l h,
      narrow lo hi r = Ok (l, h) ->
      l = (lo + ((range_of lo hi * sr_low r) mod 2 ^ 32) / sr_count r) mod 2 ^ 32
      /\ h = ((lo + ((range_of lo hi * sr_high r) mod 2 ^ 32) / sr_count r) mod 2 ^ 32
              - 1) mod 2 ^ 32)
  /\ (forall s total v,
      scaled_of s total = Ok v ->
      v = (((add32 (sub32 (value s) (d_low s)) 1 * total) mod 2 ^ 32 - 1) mod 2 ^ 32)
            / range_of (d_low s) (d_high s))
  /\ (forall a b,
      enc_multiplies char_signed text a b ->
      0 <= a * b < 2 ^ 32 /\ mul32 a b = a * b)
  /\ (forall a b,
      dec_multiplies char_signed freq text_size bits a b ->
      0 <= a * b < 2 ^ 32 /\ mul32 a b = a * b)
  /\ (forall any_text, enc_total char_signed any_text <= 256 * 16383)
  /\ enc_total char_signed saturating_text = 256 * 16383
  /\ (exists a b,
        enc_multiplies char_signed wrapping_text a b
        /\ 2 ^ 32 <= a * b /\ mul32 a b <> a * b).
Proof.
  intros Htot Hs Hpos Hlt.
  split; [apply narrow_mod|]. split; [apply scaled_mod|].
  split.
  { intros a b Hm. pose proof (enc_multiplies_fit char_signed text a b Htot Hm) as H.
    split; [exact H | now apply mul32_small]. }
  split.
  { intros a b Hm.
    pose proof (dec_multiplies_fit char_signed freq text_size bits a b Hs Hpos Hlt Hm)
      as H.
    split; [exact H | now apply mul32_small]. }
  split.
  { intros any_text. now destruct (enc_table char_signed any_text) as (_ & _ & _ & H). }
  split; [apply saturating_total|].
  exists 65536, 65536. split; [apply wrapping_product|].
  split; [vm_compute; discriminate | vm_compute; discriminate].
Qed.

Lemma products_modulo_2_32_witness :
  enc_multiplies true sample_text 65536 4
  /\ 0 <= 65536 * 4 < 2 ^ 32 /\ mul32 65536 4 = 65536 * 4.
Proof.
  assert (Hm : enc_multiplies true sample_text 65536 4).
  { exact (EM_high true sample_text 0 [] x41 (skipn 1 sample_text) init_coder []
             eq_refl eq_refl). }
  split; [exact Hm|].
  apply (proj1 (proj2 (proj2
           (products_modulo_2_32 true sample_text sample_table 10 []
              ltac:(vm_compute; reflexivity)
              (sample_table_sorted true)
              (counts_ok_pos _ sample_table_ok)
              ltac:(vm_compute; reflexivity))))).
  exact Hm.
Defined.

(** ** More fuel changes no result *)

Section FuelMonotone.
Variable sg : bool.

Lemma enc_renorm_mono n : forall s x m,
  enc_renorm n s = Ok x -> (n <= m)%nat -> enc_renorm m s = Ok x.
Proof.
  induction n as [|n IH]; intros s x m H Hle; cbn [enc_renorm] in H.
  - destruct (enc_renorm_step s) as [[s1 bits1]|] eqn:E; [discriminate|].
    destruct m; cbn [enc_renorm]; now rewrite E.
  - destruct m as [|m]; cbn [enc_renorm];
      destruct (enc_renorm_step s) as [[s1 bits1]|] eqn:E; try exact H; [lia|].
    destruct (enc_renorm n s1) as [[s2 bits2]|f|] eqn:E2; cbn [bind] in H;
      try discriminate.
    rewrite (IH s1 _ m E2) by lia. exact H.
Qed.

Lemma encode_symbol_mono n ranges c s x m :
  encode_symbol sg n ranges c s = Ok x -> (n <= m)%nat ->
  encode_symbol sg m ranges c s = Ok x.
Proof.
  unfold encode_symbol. destruct (map_index sg no_range c ranges) as [r ranges1].
  destruct (narrow (low s) (high s) r) as [[lo hi]|f|]; cbn [bind]; try discriminate.
  destruct (enc_renorm n _) as [[s1 bits]|f|] eqn:E; cbn [bind]; try discriminate.
  intros H Hle. rewrite (enc_renorm_mono n _ _ m E Hle). exact H.
Qed.

Lemma encode_loop_mono n text : forall ranges s x m,
  encode_loop sg n ranges text s = Ok x -> (n <= m)%nat ->
  encode_loop sg m ranges text s = Ok x.
Proof.
  induction text as [|c text IH]; intros ranges s x m H Hle; cbn [encode_loop] in *;
    [exact H|].
  destruct (encode_symbol sg n ranges c s) as [[[ranges1 s1] bits1]|f|] eqn:E;
    cbn [bind] in H; try discriminate.
  rewrite (encode_symbol_mono n _ _ _ _ m E Hle). cbn [bind].
  destruct (encode_loop sg n ranges1 text s1) as [[s2 bits2]|f|] eqn:E2;
    cbn [bind] in H; try discriminate.
  rewrite (IH _ _ _ m E2 Hle). exact H.
Qed.

Lemma compressFile_mono n text x m :
  compressFile sg n text = Ok x -> (n <= m)%nat -> compressFile sg m text = Ok x.
Proof.
  unfold compressFile. rewrite !encode_bits_unfold.
  destruct (encode_loop sg n _ text init_coder) as [[s bits]|f|] eqn:E;
    cbn [bind]; try discriminate.
  intros H Hle. rewrite (encode_loop_mono n _ _ _ _ m E Hle). exact H.
Qed.

Lemma dec_renorm_mono n : forall s x m,
  dec_renorm n s = Ok x -> (n <= m)%nat -> dec_renorm m s = Ok x.
Proof.
  induction n as [|n IH]; intros s x m H Hle; cbn [dec_renorm] in H.
  - destruct (dec_renorm_step s) as [s1|] eqn:E; [discriminate|].
    destruct m; cbn [dec_renorm]; now rewrite E.
  - destruct m as [|m]; cbn [dec_renorm];
      destruct (dec_renorm_step s) as [s1|] eqn:E; try exact H; [lia|].
    apply (IH s1 _ m H). lia.
Qed.

Lemma decode_symbol_mono n ranges total s x m :
  decode_symbol sg n ranges total s = Ok x -> (n <= m)%nat ->
  decode_symbol sg m ranges total s = Ok x.
Proof.
  unfold decode_symbol.
  destruct (scaled_of s total) as [sv|f|]; cbn [bind]; try discriminate.
  destruct (map_index sg no_range (scan_symbol ranges sv) ranges) as [r ranges1].
  destruct (narrow (d_low s) (d_high s) r) as [[lo hi]|f|]; cbn [bind];
    try discriminate.
  destruct (dec_renorm n _) as [s1|f|] eqn:E; cbn [bind]; try discriminate.
  intros H Hle. rewrite (dec_renorm_mono n _ _ m E Hle). exact H.
Qed.

Lemma decode_loop_mono n total k : forall ranges s x m,
  decode_loop sg n ranges total k s = Ok x -> (n <= m)%nat ->
  decode_loop sg m ranges total k s = Ok x.
Proof.
  induction k as [|k IH]; intros ranges s x m H Hle; cbn [decode_loop] in *;
    [exact H|].
  destruct (decode_symbol sg n ranges total s) as [[[ranges1 sym] s1]|f|] eqn:E;
    cbn [bind] in H; try discriminate.
  rewrite (decode_symbol_mono n _ _ _ _ m E Hle). cbn [bind].
  destruct (decode_loop sg n ranges1 total k s1) as [[rest s2]|f|] eqn:E2;
    cbn [bind] in H; try discriminate.
  rewrite (IH _ _ _ m E2 Hle). exact H.
Qed.

Lemma decompressFile_mono n input x m :
  decompressFile sg n input = Ok x -> (n <= m)%nat ->
  decompressFile sg m input = Ok x.
Proof.
  unfold decompressFile.
  destruct (read_u32 input) as [[freq_size in1]|f|]; cbn [bind]; try discriminate.
  destruct (read_table sg _ in1 []) as [[freq in2]|f|]; cbn [bind]; try discriminate.
  destruct (read_u32 in2) as [[text_size in3]|f|]; cbn [bind]; try discriminate.
  destruct (readBitVector sg in3) as [bits|f|]; cbn [bind]; try discriminate.
  unfold decode_bits. destruct (buildCumulativeFreq sg freq) as [ranges total].
  destruct (decode_loop sg n ranges total _ _) as [[out s]|f|] eqn:E; cbn [bind];
    try discriminate.
  intros H Hle. rewrite (decode_loop_mono n _ _ _ _ _ m E Hle). exact H.
Qed.

End FuelMonotone.

(** C1 fails on the input ["AB"]: it is compressed to the four bits 0101;
    the decoder primes [value] with the bits it finds, which gives 5 and not
    0x5000, and returns ["AA"].  This holds for every fuel that lets the two
    runs end. *)
Theorem round_trip_fails_on_short_output (char_signed : bool) (fuel : nat) :
  encode_bits char_signed (S fuel) short_text = Ok [false; true; false; true]
  /\ init_decoder [false; true; false; true] = mkDecoder 0 TOP 5 []
  /\ (container <- compressFile char_signed (S fuel) short_text;;
      decompressFile char_signed (S fuel) container) = Ok [x41; x41].
Proof.
  assert (Hc : exists container,
             compressFile char_signed 1 short_text = Ok container
             /\ decompressFile char_signed 1 container = Ok [x41; x41]
             /\ encode_bits char_signed 1 short_text = Ok [false; true; false; true]).
  { destruct char_signed; eexists; repeat split; vm_compute; reflexivity. }
  destruct Hc as (container & Hcomp & Hdec & Hbits).
  split.
  - unfold compressFile in Hcomp.
    rewrite encode_bits_unfold in *.
    destruct (encode_loop char_signed 1 _ short_text init_coder)
      as [[s bits]|f|] eqn:E; cbn [bind] in Hbits; try discriminate.
    rewrite (encode_loop_mono char_signed 1 _ _ _ _ (S fuel) E) by lia.
    exact Hbits.
  - split; [reflexivity|].
    rewrite (compressFile_mono char_signed 1 _ _ (S fuel) Hcomp) by lia.
    cbn [bind]. apply (decompressFile_mono char_signed 1 _ _ (S fuel) Hdec). lia.
Qed.

(** ** Windows of a bit sequence *)

Lemma hdbit_range bits : 0 <= hdbit bits <= 1.
Proof. destruct bits as [|[] ?]; simpl; lia. Qed.

Lemma window_nil n : window n [] = 0.
Proof. destruct n; reflexivity. Qed.

Lemma skipn_S_tl {A} n (l : list A) : skipn (S n) l = tl (skipn n l).
Proof.
  revert l. induction n as [|n IH]; intros l.
  - destruct l; reflexivity.
  - destruct l as [|a l]; [now rewrite !skipn_nil|].
    change (skipn (S (S n)) (a :: l)) with (skipn (S n) l).
    change (skipn (S n) (a :: l)) with (skipn n l). apply IH.
Qed.

(** One more bit of the window. *)
Lemma window_S n : forall bits,
  window (S n) bits = 2 * window n bits + hdbit (skipn n bits).
Proof.
  induction n as [|n IH]; intros bits.
  - destruct bits as [|b bits]; cbn [window skipn hdbit]; [reflexivity|].
    change (2 ^ Z.of_nat 0) with 1. lia.
  - destruct bits as [|b bits].
    + cbn [window skipn hdbit]. lia.
    + change (window (S (S n)) (b :: bits))
        with (bit_val b * 2 ^ Z.of_nat (S n) + window (S n) bits).
      change (window (S n) (b :: bits))
        with (bit_val b * 2 ^ Z.of_nat n + window n bits).
      change (skipn (S n) (b :: bits)) with (skipn n bits).
      rewrite IH. rewrite Nat2Z.inj_succ, Z.pow_succ_r by lia. lia.
Qed.

Lemma window_range n bits : 0 <= window n bits < 2 ^ Z.of_nat n.
Proof.
  revert bits. induction n as [|n IH]; intros bits.
  - simpl. lia.
  - rewrite window_S. pose proof (IH bits). pose proof (hdbit_range (skipn n bits)).
    rewrite Nat2Z.inj_succ, Z.pow_succ_r by lia. lia.
Qed.

Lemma prime_window n : forall v bits,
  (n <= length bits)%nat -> 0 <= v -> (v + 1) * 2 ^ Z.of_nat n <= 2 ^ 31 ->
  prime n v bits = (v * 2 ^ Z.of_nat n + window n bits, skipn n bits).
Proof.
  induction n as [|n IH]; intros v bits Hlen Hv Hb.
  - cbn [prime window skipn]. f_equal. change (2 ^ Z.of_nat 0) with 1. lia.
  - destruct bits as [|b bits]; [cbn [length] in Hlen; lia|].
    cbn [length] in Hlen.
    rewrite Nat2Z.inj_succ, Z.pow_succ_r in * by lia.
    assert (Hp : 0 < 2 ^ Z.of_nat n) by (apply Z.pow_pos_nonneg; lia).
    cbn [prime]. rewrite shl1_small by nia. rewrite lor_even_bit by lia.
    rewrite IH; [| lia | destruct b; cbn [bit_val]; lia
                 | destruct b; cbn [bit_val]; nia].
    change (window (S n) (b :: bits))
      with (bit_val b * 2 ^ Z.of_nat n + window n bits).
    change (skipn (S n) (b :: bits)) with (skipn n bits).
    f_equal. lia.
Qed.

Lemma init_decoder_window bits :
  (16 <= length bits)%nat -> init_decoder bits = decoder_at 0 TOP bits.
Proof.
  intros Hlen. unfold init_decoder, decoder_at.
  rewrite (prime_window 16 0 bits Hlen) by (simpl; lia).
  rewrite Z.mul_0_l, Z.add_0_l. reflexivity.
Qed.

(** ** Frames *)

Lemma frames_0 F : F <> [] -> frames 0 F F.
Proof.
  destruct F as [|b rest]; [congruence|]. intros _. exists b, rest. auto.
Qed.

Lemma frames_0_inv F V : frames 0 F V -> V = F.
Proof. intros (b & rest & -> & ->). reflexivity. Qed.

Lemma frames_fun p F V V' : frames p F V -> frames p F V' -> V = V'.
Proof.
  intros (b & rest & HF & ->) (b' & rest' & HF' & ->).
  rewrite HF in HF'. injection HF' as <- H.
  apply app_inv_head in H. now subst.
Qed.

Lemma frames_emit p b F' :
  frames p ((b :: repeat (negb b) p) ++ F') (b :: F').
Proof. exists b, F'. auto. Qed.

(** One more pending bit: the complement reappears in the frame. *)
Lemma frames_pending p F b t :
  frames (S p) F (b :: t) -> frames p F (b :: negb b :: t).
Proof.
  intros (b' & rest & HF & HV). injection HV as <- <-.
  exists b, (negb b :: t). split; [|reflexivity].
  rewrite HF. f_equal. cbn [repeat]. rewrite repeat_cons, <- app_assoc.
  reflexivity.
Qed.

Lemma frames_cons p F V : frames p F V -> exists b t, V = b :: t.
Proof. intros (b & rest & _ & ->). eauto. Qed.

(** ** Encoder and decoder renormalise in lockstep *)

Lemma pull_bit_exact x bits :
  0 <= x -> pull_bit (2 * x) bits = (2 * x + hdbit bits, tl bits).
Proof.
  intros Hx. destruct bits as [|b bits]; cbn [pull_bit hdbit tl].
  - now rewrite Z.add_0_r.
  - now rewrite lor_even_bit.
Qed.

Lemma lockstep s d s1 bits1 :
  sane (low s) (high s) ->
  0 <= pending_bits s -> pending_bits s + 1 < 2 ^ 32 ->
  d_low d = low s -> d_high d = high s ->
  enc_renorm_step s = Some (s1, bits1) ->
  exists off,
    0 <= off <= low s /\ high s - off < HALF
    /\ low s1 = 2 * (low s - off) /\ high s1 = 2 * (high s - off) + 1
    /\ (low s <= value d <= high s ->
        dec_renorm_step d
          = Some (mkDecoder (low s1) (high s1)
                    (2 * (value d - off) + hdbit (unread d)) (tl (unread d))))
    /\ ((off = 0 /\ bits1 = false :: repeat true (Z.to_nat (pending_bits s))
         /\ pending_bits s1 = 0)
        \/ (off = HALF /\ bits1 = true :: repeat false (Z.to_nat (pending_bits s))
            /\ pending_bits s1 = 0)
        \/ (off = FIRST_QTR /\ bits1 = []
            /\ pending_bits s1 = pending_bits s + 1)).
Proof.
  unfold sane, enc_renorm_step, dec_renorm_step, TOP.
  intros Hs Hp0 Hp1 Hdl Hdh H. rewrite Hdl, Hdh.
  destruct (Z.ltb_spec (high s) HALF) as [H1|H1].
  { apply Some_eq in H. injection H as <- <-. exists 0.
    unfold HALF, FIRST_QTR, TOP in *. change ((65535 + 1) / 4) with 16384 in *.
    cbn [low high pending_bits].
    rewrite !shl1_small by lia. rewrite lor_even_1 by lia.
    repeat (split; [lia|]). split; [|left; auto].
    intros Hv. rewrite shl1_small by lia. rewrite pull_bit_exact by lia.
    rewrite Z.sub_0_r. reflexivity. }
  destruct (Z.leb_spec HALF (low s)) as [H2|H2].
  { apply Some_eq in H. injection H as <- <-. exists HALF.
    unfold HALF, FIRST_QTR, TOP in *. change ((65535 + 1) / 4) with 16384 in *.
    cbn [low high pending_bits].
    rewrite !sub32_small by lia. rewrite !shl1_small by lia.
    rewrite lor_even_1 by lia.
    repeat (split; [lia|]). split; [|right; left; auto].
    intros Hv. rewrite sub32_small by lia. rewrite shl1_small by lia.
    rewrite pull_bit_exact by lia. reflexivity. }
  destruct (Z.leb_spec FIRST_QTR (low s)) as [H3|H3]; [|discriminate].
  destruct (Z.ltb_spec (high s) THIRD_QTR) as [H4|H4]; [|discriminate].
  cbn [andb] in *.
  apply Some_eq in H. injection H as <- <-. exists FIRST_QTR.
  unfold HALF, THIRD_QTR, FIRST_QTR, TOP in *.
  change ((65535 + 1) / 4) with 16384 in *.
  cbn [low high pending_bits].
  rewrite !sub32_small by lia. rewrite !shl1_small by lia.
  rewrite lor_even_1 by lia. rewrite add32_small by lia.
  repeat (split; [lia|]). split; [|right; right; auto].
  intros Hv. rewrite sub32_small by lia. rewrite shl1_small by lia.
  rewrite pull_bit_exact by lia. reflexivity.
Qed.

Lemma lockstep_none s d :
  d_low d = low s -> d_high d = high s ->
  enc_renorm_step s = None -> dec_renorm_step d = None.
Proof.
  unfold enc_renorm_step, dec_renorm_step. intros -> -> H.
  destruct (high s <? HALF); [discriminate|].
  destruct (HALF <=? low s); [discriminate|].
  destruct ((FIRST_QTR <=? low s) && (high s <? THIRD_QTR)); [discriminate|].
  reflexivity.
Qed.

(** The register contents before a step, from those after it. *)
Lemma window_shift V1 c :
  2 * (window 16 (c :: V1) - bit_val c * 2 ^ 15) + hdbit (skipn 16 (c :: V1))
    = window 16 V1
  /\ tl (skipn 16 (c :: V1)) = skipn 16 V1.
Proof.
  change (window 16 (c :: V1)) with (bit_val c * 2 ^ 15 + window 15 V1).
  change (skipn 16 (c :: V1)) with (skipn 15 V1).
  rewrite (window_S 15 V1), (skipn_S_tl 15 V1). split; [lia | reflexivity].
Qed.

Lemma window_shift_pending b t :
  2 * (window 16 (b :: negb b :: t) - 2 ^ 14) + hdbit (skipn 16 (b :: negb b :: t))
    = window 16 (b :: t)
  /\ tl (skipn 16 (b :: negb b :: t)) = skipn 16 (b :: t).
Proof.
  change (window 16 (b :: negb b :: t))
    with (bit_val b * 2 ^ 15 + (bit_val (negb b) * 2 ^ 14 + window 14 t)).
  change (window 16 (b :: t)) with (bit_val b * 2 ^ 15 + window 15 t).
  change (skipn 16 (b :: negb b :: t)) with (skipn 14 t).
  change (skipn 16 (b :: t)) with (skipn 15 t).
  rewrite (window_S 14 t), (skipn_S_tl 14 t).
  split; [destruct b; cbn [negb bit_val]; lia | reflexivity].
Qed.

Lemma step_narrower s s1 bits1 :
  sane (low s) (high s) -> enc_renorm_step s = Some (s1, bits1) ->
  high s - low s + 1 <= HALF
  /\ high s1 - low s1 + 1 = 2 * (high s - low s + 1).
Proof.
  intros Hs H.
  destruct (enc_renorm_step_sane s s1 bits1 Hs H) as (off & ? & ? & ? & ?). lia.
Qed.

(** The renormalisation loop of the encoder from [s], and that of the
    decoder from the registers that hold the frame of the encoder's
    output. *)
Lemma renorm_sim fuel : forall s s2 bits k F2 V2,
  sane (low s) (high s) ->
  0 <= pending_bits s -> 1 <= k ->
  2 ^ 16 < (high s - low s + 1) * 2 ^ k ->
  pending_bits s + k < 2 ^ 32 ->
  enc_renorm fuel s = Ok (s2, bits) ->
  frames (Z.to_nat (pending_bits s2)) F2 V2 ->
  low s2 <= window 16 V2 <= high s2 ->
  0 <= pending_bits s2
  /\ Z.of_nat (length bits) + pending_bits s2 <= pending_bits s + k - 1
  /\ exists V,
       frames (Z.to_nat (pending_bits s)) (bits ++ F2) V
       /\ low s <= window 16 V <= high s
       /\ dec_renorm fuel (decoder_at (low s) (high s) V)
            = Ok (decoder_at (low s2) (high s2) V2).
Proof.
  induction fuel as [|fuel IH]; intros s s2 bits k F2 V2 Hs Hp0 Hk HR Hpk H HF HV;
    cbn [enc_renorm] in H;
    destruct (enc_renorm_step s) as [[s1 bits1]|] eqn:E; try discriminate.
  1, 3: injection H as <- <-; split; [exact Hp0|]; split; [cbn [length]; lia|];
        exists V2; split; [exact HF|]; split; [exact HV|];
        assert (En : dec_renorm_step (decoder_at (low s) (high s) V2) = None)
          by (now apply (lockstep_none s));
        cbn [dec_renorm]; now rewrite En.
  destruct (enc_renorm fuel s1) as [[s2' bits2]|f|] eqn:E2; cbn [bind] in H;
    try discriminate.
  injection H as Hs2 Hbits. subst s2' bits.
  destruct (step_narrower s s1 bits1 Hs E) as [Hnarrow Hdouble].
  assert (Hk2 : 2 <= k).
  { destruct (Z.eq_dec k 1) as [->|]; [|lia].
    unfold HALF, FIRST_QTR, TOP in Hnarrow. change ((65535 + 1) / 4) with 16384 in *.
    lia. }
  assert (HR1 : 2 ^ 16 < (high s1 - low s1 + 1) * 2 ^ (k - 1)).
  { rewrite Hdouble. replace k with (Z.succ (k - 1)) in HR by lia.
    rewrite Z.pow_succ_r in HR by lia. lia. }
  destruct (enc_renorm_step_keeps_sane s s1 bits1 Hs E) as [Hs1 _].
  destruct (lockstep s (decoder_at (low s) (high s) (false :: V2)) s1 bits1 Hs Hp0
              ltac:(lia) eq_refl eq_refl E)
    as (off & Hoff & Hhalf & Hl1 & Hh1 & _ & Hcase).
  assert (Hp1 : 0 <= pending_bits s1 /\ pending_bits s1 <= pending_bits s + 1
                /\ Z.of_nat (length bits1) + pending_bits s1 = pending_bits s + 1).
  { destruct Hcase as [(_ & -> & ->)|[(_ & -> & ->)|(_ & -> & ->)]];
      cbn [length]; rewrite ?repeat_length; lia. }
  destruct (IH s1 s2 bits2 (k - 1) F2 V2 Hs1 ltac:(lia) ltac:(lia) HR1 ltac:(lia)
              E2 HF HV) as (Hp2 & Hlen & V1 & HF1 & HV1 & Hdec).
  split; [exact Hp2|]. split; [rewrite length_app; lia|].
  (* the frame before the step *)
  assert (Hstep : forall V,
             frames (Z.to_nat (pending_bits s)) (bits1 ++ bits2 ++ F2) V ->
             2 * (window 16 V - off) + hdbit (skipn 16 V) = window 16 V1 ->
             tl (skipn 16 V) = skipn 16 V1 ->
             exists V,
               frames (Z.to_nat (pending_bits s)) ((bits1 ++ bits2) ++ F2) V
               /\ low s <= window 16 V <= high s
               /\ dec_renorm (S fuel) (decoder_at (low s) (high s) V)
                    = Ok (decoder_at (low s2) (high s2) V2)).
  { intros V HFV Hw Ht. exists V. rewrite <- app_assoc.
    split; [exact HFV|].
    pose proof (hdbit_range (skipn 16 V)) as Hb.
    assert (Hin : low s <= window 16 V <= high s) by lia.
    split; [exact Hin|].
    destruct (lockstep s (decoder_at (low s) (high s) V) s1 bits1 Hs Hp0
                ltac:(lia) eq_refl eq_refl E)
      as (off' & _ & _ & Hl1' & _ & Hd & _).
    assert (off' = off) by lia. subst off'.
    cbn [dec_renorm]. rewrite (Hd Hin).
    cbn [decoder_at value unread]. rewrite Hw, Ht. exact Hdec. }
  destruct Hcase as [(-> & -> & Hp)|[(-> & -> & Hp)|(-> & -> & Hp)]].
  - rewrite Hp in HF1. change (Z.to_nat 0) with O in HF1.
    apply frames_0_inv in HF1.
    destruct (window_shift V1 false) as [Hw Ht].
    apply (Hstep (false :: V1)).
    + rewrite HF1. apply (frames_emit _ false).
    + cbn [bit_val] in Hw. rewrite <- Hw. lia.
    + exact Ht.
  - rewrite Hp in HF1. change (Z.to_nat 0) with O in HF1.
    apply frames_0_inv in HF1.
    destruct (window_shift V1 true) as [Hw Ht].
    apply (Hstep (true :: V1)).
    + rewrite HF1. apply (frames_emit _ true).
    + cbn [bit_val] in Hw. rewrite <- Hw. unfold HALF, FIRST_QTR, TOP.
      change ((65535 + 1) / 4) with 16384. lia.
    + exact Ht.
  - rewrite Hp in HF1.
    replace (Z.to_nat (pending_bits s + 1)) with (S (Z.to_nat (pending_bits s)))
      in HF1 by lia.
    destruct (frames_cons _ _ _ HF1) as (b & t & ->).
    destruct (window_shift_pending b t) as [Hw Ht].
    apply (Hstep (b :: negb b :: t)).
    + cbn [app]. now apply frames_pending.
    + rewrite <- Hw. unfold FIRST_QTR, TOP. change ((65535 + 1) / 4) with 16384. lia.
    + exact Ht.
Qed.

(** ** Termination and bit budget of the encoder's renormalisation *)

Lemma enc_renorm_total fuel : forall s k,
  sane (low s) (high s) -> 0 <= k ->
  2 ^ 16 < (high s - low s + 1) * 2 ^ k ->
  k <= Z.of_nat fuel + 1 ->
  exists s2 bits, enc_renorm fuel s = Ok (s2, bits).
Proof.
  induction fuel as [|fuel IH]; intros s k Hs Hk HR Hf; cbn [enc_renorm];
    destruct (enc_renorm_step s) as [[s1 bits1]|] eqn:E; eauto.
  - exfalso. destruct (step_narrower s s1 bits1 Hs E) as [Hn _].
    unfold HALF, FIRST_QTR, TOP in Hn. change ((65535 + 1) / 4) with 16384 in Hn.
    assert (Hk1 : k = 0 \/ k = 1) by lia.
    destruct Hk1 as [-> | ->]; simpl in HR; lia.
  - destruct (step_narrower s s1 bits1 Hs E) as [Hn Hd].
    destruct (enc_renorm_step_keeps_sane s s1 bits1 Hs E) as [Hs1 _].
    assert (Hk2 : 2 <= k).
    { unfold HALF, FIRST_QTR, TOP in Hn. change ((65535 + 1) / 4) with 16384 in Hn.
      assert (Hk1 : k = 0 \/ k = 1 \/ 2 <= k) by lia.
      destruct Hk1 as [-> | [-> | ?]]; [simpl in HR; lia | simpl in HR; lia | assumption]. }
    destruct (IH s1 (k - 1) Hs1 ltac:(lia)) as (s2 & bits2 & E2).
    + rewrite Hd. replace k with (Z.succ (k - 1)) in HR by lia.
      rewrite Z.pow_succ_r in HR by lia. lia.
    + lia.
    + rewrite E2. cbn [bind]. eauto.
Qed.

Lemma enc_renorm_budget fuel : forall s s2 bits k,
  sane (low s) (high s) ->
  0 <= pending_bits s -> 1 <= k ->
  2 ^ 16 < (high s - low s + 1) * 2 ^ k ->
  pending_bits s + k < 2 ^ 32 ->
  enc_renorm fuel s = Ok (s2, bits) ->
  0 <= pending_bits s2
  /\ Z.of_nat (length bits) + pending_bits s2 <= pending_bits s + k - 1.
Proof.
  induction fuel as [|fuel IH]; intros s s2 bits k Hs Hp0 Hk HR Hpk H;
    cbn [enc_renorm] in H;
    destruct (enc_renorm_step s) as [[s1 bits1]|] eqn:E; try discriminate.
  1, 3: injection H as <- <-; cbn [length]; lia.
  destruct (enc_renorm fuel s1) as [[s2' bits2]|f|] eqn:E2; cbn [bind] in H;
    try discriminate.
  injection H as Hs2 Hbits. subst s2' bits.
  destruct (step_narrower s s1 bits1 Hs E) as [Hnarrow Hdouble].
  assert (Hk2 : 2 <= k).
  { destruct (Z.eq_dec k 1) as [->|]; [|lia].
    unfold HALF, FIRST_QTR, TOP in Hnarrow. change ((65535 + 1) / 4) with 16384 in *.
    lia. }
  assert (HR1 : 2 ^ 16 < (high s1 - low s1 + 1) * 2 ^ (k - 1)).
  { rewrite Hdouble. replace k with (Z.succ (k - 1)) in HR by lia.
    rewrite Z.pow_succ_r in HR by lia. lia. }
  destruct (enc_renorm_step_keeps_sane s s1 bits1 Hs E) as [Hs1 _].
  destruct (lockstep s (mkDecoder (low s) (high s) 0 []) s1 bits1 Hs Hp0
              ltac:(lia) eq_refl eq_refl E)
    as (off & _ & _ & _ & _ & _ & Hcase).
  assert (Hp1 : 0 <= pending_bits s1
                /\ Z.of_nat (length bits1) + pending_bits s1 = pending_bits s + 1).
  { destruct Hcase as [(_ & -> & ->)|[(_ & -> & ->)|(_ & -> & ->)]];
      cbn [length]; rewrite ?repeat_length; lia. }
  destruct (IH s1 s2 bits2 (k - 1) Hs1 ltac:(lia) ltac:(lia) HR1 ltac:(lia) E2)
    as [Hp2 Hlen].
  split; [exact Hp2|]. rewrite length_app. lia.
Qed.

Lemma enc_renorm_step_None_straddles s :
  enc_renorm_step s = None -> low s < HALF <= high s.
Proof.
  unfold enc_renorm_step. intros H.
  destruct (Z.ltb_spec (high s) HALF); [discriminate|].
  destruct (Z.leb_spec HALF (low s)); [discriminate|]. lia.
Qed.

(** ** The scaled value selects the encoded symbol *)

Lemma value_selects lo hi v r total l h :
  sane lo hi -> valid_range total r -> 0 < total < 2 ^ 16 ->
  narrow lo hi r = Ok (l, h) -> h <= hi -> l <= v <= h ->
  in_range r (((v - lo + 1) * total - 1) / (hi - lo + 1)).
Proof.
  intros Hs Hr Ht H Hh Hv.
  rewrite (narrow_sane lo hi r total) in H by assumption.
  injection H as <- Eh.
  destruct Hr as (Hlh & Hht & Hc). unfold sane, TOP, in_range in *.
  set (R := hi - lo + 1) in *.
  assert (HR : 0 < R) by (unfold R; lia).
  pose proof (div_scale_le R (sr_low r) total ltac:(lia) ltac:(lia) ltac:(lia)) as Hql.
  pose proof (div_scale_le R (sr_high r) total ltac:(lia) ltac:(lia) ltac:(lia)) as Hqh.
  assert (Hnowrap : 0 <= lo + R * sr_high r / total - 1).
  { destruct (Z.eq_dec (lo + R * sr_high r / total) 0) as [Hz|]; [|lia].
    rewrite Hz in Eh. change (wrap32 (0 - 1)) with (2 ^ 32 - 1) in Eh. lia. }
  rewrite wrap32_small in Eh by lia. subst h.
  pose proof (Z.mul_succ_div_gt (R * sr_low r) total ltac:(lia)) as Hgt.
  pose proof (Z.mul_div_le (R * sr_high r) total ltac:(lia)) as Hle.
  split.
  - apply Z.div_le_lower_bound; [lia|]. nia.
  - apply Z.div_lt_upper_bound; [lia|]. nia.
Qed.

(** ** The final bits *)

Lemma final_frame s :
  low s < HALF <= high s -> 0 <= pending_bits s -> pending_bits s + 1 < 2 ^ 32 ->
  Z.of_nat (length (final_bits s)) = pending_bits s + 2
  /\ exists V,
       frames (Z.to_nat (pending_bits s)) (final_bits s) V
       /\ low s <= window 16 V <= high s.
Proof.
  intros Hst Hp0 Hp1. unfold final_bits. rewrite add32_small by lia.
  replace (Z.to_nat (pending_bits s + 1)) with (S (Z.to_nat (pending_bits s))) by lia.
  unfold HALF, FIRST_QTR, TOP in *. change ((65535 + 1) / 4) with 16384 in *.
  destruct (Z.ltb_spec (low s) 16384) as [Hq|Hq].
  - split; [cbn [length]; rewrite repeat_length; lia|].
    exists [false; true]. split.
    + exists false, [true]. split; [|reflexivity].
      cbn [repeat negb]. now rewrite repeat_cons.
    + change (window 16 [false; true]) with 16384. lia.
  - split; [cbn [length]; rewrite repeat_length; lia|].
    exists [true; false]. split.
    + exists true, [false]. split; [|reflexivity].
      cbn [repeat negb]. now rewrite repeat_cons.
    + change (window 16 [true; false]) with 32768. lia.
Qed.

(** ** The decoder follows the encoder *)

Section RoundTrip.
Variable sg : bool.

Lemma at_head_init n :
  16 * Z.of_nat n + 2 < 2 ^ 32 -> at_head init_coder n.
Proof.
  intros Hn. unfold at_head, sane, init_coder, HALF, FIRST_QTR, TOP.
  cbn [low high pending_bits]. change ((65535 + 1) / 4) with 16384. lia.
Qed.

(** One symbol of the encoder, from the head of the loop to the next. *)
Lemma encode_symbol_at_head fuel ranges total c s n ranges1 s1 bits1 :
  ranges_ok ranges total -> total <= FIRST_QTR + 2 ->
  at_head s (S n) ->
  encode_symbol sg fuel ranges c s = Ok (ranges1, s1, bits1) ->
  exists r l h,
    map_find c ranges = Some r /\ valid_range total r /\ ranges1 = ranges
    /\ narrow (low s) (high s) r = Ok (l, h)
    /\ sane l h /\ low s <= l /\ h <= high s
    /\ enc_renorm fuel (mkCoder l h (pending_bits s)) = Ok (s1, bits1)
    /\ at_head s1 n
    /\ Z.of_nat (length bits1) + pending_bits s1 <= pending_bits s + 16.
Proof.
  intros Hok Htot (Hs & Hw & Hst & Hp0 & Hpn) H.
  apply encode_symbol_inv in H. destruct H as (r & l & h & Hf & -> & Hn & Hr).
  pose proof (Hok _ _ Hf) as Hv.
  assert (Hpos : 0 < total) by (destruct Hv as (? & ? & _); lia).
  destruct (narrow_wide _ _ r total l h Hs Hw Hv (conj Hpos Htot) Hn)
    as (Hs1 & Hl & Hh).
  exists r, l, h.
  split; [exact Hf|]. split; [exact Hv|]. split; [reflexivity|].
  split; [exact Hn|]. split; [exact Hs1|]. split; [exact Hl|].
  split; [exact Hh|]. split; [exact Hr|].
  rewrite Nat2Z.inj_succ in Hpn.
  assert (HR' : 2 ^ 16 < (h - l + 1) * 2 ^ 17).
  { unfold sane in Hs1. change (2 ^ 17) with 131072. change (2 ^ 16) with 65536. lia. }
  destruct (enc_renorm_budget fuel (mkCoder l h (pending_bits s)) s1 bits1 17
              Hs1 Hp0 ltac:(lia) HR' ltac:(cbn [pending_bits]; lia) Hr)
    as [Hp1 Hlen].
  cbn [pending_bits] in Hlen.
  destruct (enc_renorm_sane fuel (mkCoder l h (pending_bits s)) s1 bits1 Hs1 Hr)
    as [Hsane1 Hnone].
  split; [|lia].
  unfold at_head. split; [exact Hsane1|].
  split; [now apply enc_renorm_step_None_wide|].
  split; [now apply enc_renorm_step_None_straddles|].
  split; [exact Hp1|]. lia.
Qed.

Lemma encode_loop_total fuel ranges total text : forall s,
  ranges_ok ranges total -> total <= FIRST_QTR + 2 ->
  (forall c, In c text -> map_find c ranges <> None) ->
  (16 <= fuel)%nat ->
  at_head s (length text) ->
  exists s' bits, encode_loop sg fuel ranges text s = Ok (s', bits).
Proof.
  induction text as [|c text IH]; intros s Hok Htot Hin Hfuel Hhead;
    cbn [encode_loop]; [eauto|].
  destruct (map_find c ranges) as [r|] eqn:Hf;
    [|exfalso; apply (Hin c); [now left | exact Hf]].
  pose proof (Hok _ _ Hf) as Hv.
  assert (Hpos : 0 < total) by (destruct Hv as (? & ? & _); lia).
  destruct Hhead as (Hs & Hw & Hst & Hp0 & Hpn).
  assert (Hnar : exists l h, narrow (low s) (high s) r = Ok (l, h)).
  { rewrite (narrow_sane _ _ r total) by
      (try assumption; unfold FIRST_QTR, TOP in Htot;
       change ((65535 + 1) / 4) with 16384 in Htot; lia).
    eauto. }
  destruct Hnar as (l & h & Hn).
  destruct (narrow_wide _ _ r total l h Hs Hw Hv (conj Hpos Htot) Hn)
    as (Hs1 & _ & _).
  destruct (enc_renorm_total fuel (mkCoder l h (pending_bits s)) 17 Hs1 ltac:(lia))
    as (s1 & bits1 & Hr).
  { unfold sane in Hs1. cbn [low high].
    change (2 ^ 17) with 131072. change (2 ^ 16) with 65536. lia. }
  { lia. }
  assert (Hsym : encode_symbol sg fuel ranges c s = Ok (ranges, s1, bits1)).
  { rewrite (encode_symbol_at sg fuel ranges c s r Hf), Hn. cbn [bind].
    rewrite Hr. reflexivity. }
  rewrite Hsym. cbn [bind].
  destruct (encode_symbol_at_head fuel ranges total c s (length text) _ _ _
              Hok Htot (conj Hs (conj Hw (conj Hst (conj Hp0 Hpn)))) Hsym)
    as (r0 & l0 & h0 & _ & _ & _ & _ & _ & _ & _ & _ & Hhead1 & _).
  destruct (IH s1 Hok Htot (fun c' H' => Hin c' (or_intror H')) Hfuel Hhead1)
    as (s' & bits & Hl).
  rewrite Hl. cbn [bind]. eauto.
Qed.

(** Decoding the frame of what the encoder emits from [s] on returns the
    symbols the encoder consumed. *)
Lemma loop_sim fuel ranges total text : forall s s' bits,
  table_ok ranges total -> total <= FIRST_QTR + 2 ->
  at_head s (length text) ->
  encode_loop sg fuel ranges text s = Ok (s', bits) ->
  Z.of_nat (length (bits ++ final_bits s'))
    <= pending_bits s + 16 * Z.of_nat (length text) + 2
  /\ exists V,
       frames (Z.to_nat (pending_bits s)) (bits ++ final_bits s') V
       /\ low s <= window 16 V <= high s
       /\ exists d',
            decode_loop sg fuel ranges total (length text)
              (decoder_at (low s) (high s) V) = Ok (text, d').
Proof.
  induction text as [|c text IH]; intros s s' bits Htab Htot Hhead H;
    cbn [encode_loop] in H.
  - injection H as <- <-. cbn [app length].
    destruct Hhead as (Hs & Hw & Hst & Hp0 & Hpn).
    destruct (final_frame s Hst Hp0 ltac:(cbn [length] in Hpn; lia))
      as (Hlen & V & HF & HV).
    split; [lia|]. exists V. split; [exact HF|]. split; [exact HV|].
    eexists. reflexivity.
  - pose proof (table_ok_ranges_ok _ _ Htab) as Hok.
    destruct (encode_symbol sg fuel ranges c s) as [[[ranges1 s1] bits1]|f|] eqn:E;
      cbn [bind] in H; try discriminate.
    cbn [length] in Hhead.
    destruct (encode_symbol_at_head fuel ranges total c s (length text) _ _ _
                Hok Htot Hhead E)
      as (r & l & h & Hf & Hv & -> & Hn & Hs1 & Hl & Hh & Hr & Hhead1 & Hlen1).
    destruct (encode_loop sg fuel ranges text s1) as [[s2 bits2]|f|] eqn:E2;
      cbn [bind] in H; try discriminate.
    injection H as Hs2 Hbits. subst s2 bits.
    destruct (IH s1 s' bits2 Htab Htot Hhead1 E2)
      as (Hlen2 & V2 & HF2 & HV2 & d' & Hdec2).
    destruct Hhead as (Hs & Hw & Hst & Hp0 & Hpn).
    rewrite Nat2Z.inj_succ in Hpn.
    assert (HR' : 2 ^ 16 < (h - l + 1) * 2 ^ 17).
    { unfold sane in Hs1. change (2 ^ 17) with 131072.
      change (2 ^ 16) with 65536. lia. }
    destruct (renorm_sim fuel (mkCoder l h (pending_bits s)) s1 bits1 17
                (bits2 ++ final_bits s') V2 Hs1 Hp0 ltac:(lia) HR'
                ltac:(cbn [pending_bits]; lia) Hr HF2 HV2)
      as (_ & _ & V & HF & HV & Hdec).
    cbn [low high pending_bits] in HF, HV, Hdec.
    split.
    { rewrite <- app_assoc, length_app. cbn [length].
      rewrite Nat2Z.inj_succ.
      destruct Hhead1 as (_ & _ & _ & Hp1 & _). lia. }
    exists V. rewrite <- app_assoc. split; [exact HF|]. split; [lia|].
    exists d'.
    (* the decoder's iteration for this symbol *)
    assert (Hpos : 0 < total < 2 ^ 16).
    { destruct Hv as (? & ? & _). unfold FIRST_QTR, TOP in Htot.
      change ((65535 + 1) / 4) with 16384 in Htot. lia. }
    assert (Hdok : dec_ok (decoder_at (low s) (high s) V)).
    { unfold dec_ok, decoder_at. cbn [d_low d_high value]. split; [exact Hs | lia]. }
    destruct (scaled_of_ok _ total Hdok Hpos) as [Hsc Hb].
    cbn [decoder_at d_low d_high value] in Hsc, Hb.
    pose proof (value_selects _ _ (window 16 V) r total l h Hs Hv Hpos Hn Hh HV)
      as Hsel.
    destruct Htab as (Hnd & Htiles & Hcount).
    destruct (scan_tiles ranges 0 total _ Hnd Htiles Hb)
      as (c' & r' & Hscan & _ & _ & Huniq & _).
    destruct (Huniq c r (map_find_In c r ranges Hf) Hsel) as [-> ->].
    cbn [length decode_loop]. unfold decode_symbol.
    change (scaled_of (decoder_at (low s) (high s) V) total)
      with (scaled_of (mkDecoder (low s) (high s) (window 16 V) (skipn 16 V)) total).
    unfold decoder_at in Hsc. rewrite Hsc. cbn [bind].
    unfold scan_symbol. rewrite Hscan. unfold map_index. rewrite Hf.
    cbn [d_low d_high value unread decoder_at]. rewrite Hn. cbn [bind].
    unfold decoder_at in Hdec. rewrite Hdec. cbn [bind].
    unfold decoder_at in Hdec2. rewrite Hdec2. reflexivity.
Qed.

(** What [decompressFile] does with a container [compressFile] wrote. *)
Lemma decompress_container fuel text (bits : list bool) :
  Z.of_nat (length text) < 2 ^ 32 -> Z.of_nat (length bits) < 2 ^ 32 ->
  decompressFile sg fuel
      (write_container (calculateFrequencies sg text)
         (wrap32 (Z.of_nat (length text))) bits)
    = decode_bits sg fuel (calculateFrequencies sg text)
        (Z.of_nat (length text)) bits.
Proof.
  intros Ht Hb. unfold write_container, writeBitVector.
  pose proof (calculateFrequencies_sorted sg text) as Hs.
  pose proof (calculateFrequencies_ok sg text) as Hok.
  pose proof (NoDup_bytes_length _ (sorted_NoDup sg _ Hs)) as Hl.
  unfold keys in Hl. rewrite length_map in Hl.
  rewrite !wrap32_small by lia.
  rewrite decompressFile_fields; try lia.
  - rewrite table_of_sorted by assumption.
    destruct (pack_bits_payload sg (length bits) bits (le_n _)) as (pad & _ & Hp).
    rewrite Hp, Nat2Z.id, firstn_app, firstn_all, Nat.sub_diag. cbn [firstn].
    now rewrite app_nil_r.
  - apply Forall_forall. intros [c n] Hin. apply Hok in Hin. simpl.
    unfold MAX_FREQ in Hin. lia.
Qed.

Lemma round_trip_bits fuel text :
  enc_total sg text <= FIRST_QTR + 2 ->
  Z.of_nat (length text) < 2 ^ 27 ->
  (16 <= fuel)%nat ->
  exists bits,
    encode_bits sg fuel text = Ok bits
    /\ Z.of_nat (length bits) <= 16 * Z.of_nat (length text) + 2
    /\ ((16 <= length bits)%nat ->
        decode_bits sg fuel (calculateFrequencies sg text)
          (Z.of_nat (length text)) bits = Ok text).
Proof.
  intros Htot Hlen Hfuel.
  destruct (enc_table sg text) as (_ & _ & Htab & _).
  pose proof (table_ok_ranges_ok _ _ Htab) as Hok.
  assert (Hhead : at_head init_coder (length text)) by (apply at_head_init; lia).
  destruct (encode_loop_total fuel _ _ text init_coder Hok Htot) as (s' & bits & Hl);
    try assumption.
  { intros c Hin Hnone. apply map_find_None in Hnone. apply Hnone.
    destruct (enc_table sg text) as (-> & _).
    rewrite keys_ranges_from. now apply calculateFrequencies_keys. }
  destruct (loop_sim fuel _ _ text init_coder s' bits Htab Htot Hhead Hl)
    as (Hblen & V & HF & HV & d' & Hdec).
  exists (bits ++ final_bits s').
  split; [rewrite encode_bits_unfold, Hl; reflexivity|].
  split; [cbn [init_coder pending_bits] in Hblen; lia|].
  intros H16. unfold decode_bits.
  rewrite (surjective_pairing (buildCumulativeFreq sg (calculateFrequencies sg text))).
  fold (enc_ranges sg text). fold (enc_total sg text).
  rewrite init_decoder_window by exact H16.
  cbn [init_coder pending_bits low high] in HF, Hdec.
  change (Z.to_nat 0) with O in HF. apply frames_0_inv in HF. subst V.
  rewrite Nat2Z.id, Hdec. reflexivity.
Qed.

End RoundTrip.

(** X1: The round trip where the code does achieve it: an input whose frequency
    total is at most [FIRST_QTR + 2] = 16386 and which is shorter than 2^27
    bytes is compressed (16 units of fuel suffice for every loop) and, when
    the bit sequence has at least 16 bits, decompressed to itself. *)
Theorem round_trip_when_long_enough (char_signed : bool) (fuel : nat)
    (text : list byte) :
  enc_total char_signed text <= FIRST_QTR + 2 ->
  Z.of_nat (length text) < 2 ^ 27 ->
  (16 <= fuel)%nat ->
  exists bits container,
    encode_bits char_signed fuel text = Ok bits
    /\ compressFile char_signed fuel text = Ok container
    /\ ((16 <= length bits)%nat ->
        decompressFile char_signed fuel container = Ok text).
Proof.
  intros Htot Hlen Hfuel.
  destruct (round_trip_bits char_signed fuel text Htot Hlen Hfuel)
    as (bits & Hbits & Hblen & Hdec).
  exists bits. eexists. split; [exact Hbits|]. split.
  - unfold compressFile. rewrite Hbits. reflexivity.
  - intros H16. rewrite decompress_container by lia. now apply Hdec.
Qed.

Lemma round_trip_when_long_enough_witness :
  (container <- compressFile true 16 sample_text;;
   decompressFile true 16 container) = Ok sample_text.
Proof.
  destruct (round_trip_when_long_enough true 16 sample_text
              ltac:(vm_compute; discriminate) ltac:(vm_compute; reflexivity)
              (le_n _))
    as (bits & container & Hbits & Hcomp & Hdec).
  rewrite Hcomp. cbn [bind]. apply Hdec.
  assert (Hb : encode_bits true 16 sample_text
               = Ok [false; false; false; false; false; false; true; true; true;
                     true; false; false; true; true; false; false; false; true;
                     true]) by (vm_compute; reflexivity).
  rewrite Hb in Hbits. injection Hbits as <-. cbn [length]. lia.
Defined.


(** The empty input makes the round trip: two bits are written and no symbol
    is decoded. *)
Lemma round_trip_empty (char_signed : bool) (fuel : nat) :
  (container <- compressFile char_signed fuel [];;
   decompressFile char_signed fuel container) = Ok [].
Proof.
  destruct char_signed, fuel; reflexivity.
Qed.

(** * Further properties of the code *)

(** ** The total of the table and the length of the input *)

Lemma zsum_cons x l : zsum (x :: l) = x + zsum l.
Proof. reflexivity. Qed.

Lemma zsum_map_add {A : Type} (f g : A -> Z) l :
  zsum (map (fun a => f a + g a) l) = zsum (map f l) + zsum (map g l).
Proof.
  induction l as [|a l IH]; [reflexivity|].
  cbn [map]. rewrite !zsum_cons, IH. lia.
Qed.

Lemma zsum_indicator x l :
  NoDup l ->
  zsum (map (fun c => if Byte.eqb c x then 1 else 0) l)
    = if in_dec Byte.byte_eq_dec x l then 1 else 0.
Proof.
  induction 1 as [|a l Hnotin Hnd IH]; [reflexivity|].
  cbn [map]. rewrite zsum_cons, IH.
  destruct (in_dec Byte.byte_eq_dec x l) as [Hi|Hi];
    destruct (in_dec Byte.byte_eq_dec x (a :: l)) as [Hj|Hj];
    byte_cases a x; try reflexivity; exfalso.
  - contradiction.
  - apply Hj. now right.
  - apply Hj. now right.
  - destruct Hj as [Hj|Hj]; [congruence | contradiction].
  - apply Hj. now left.
Qed.

Lemma zsum_occurrences l text :
  NoDup l -> (forall c, In c text -> In c l) ->
  zsum (map (fun c => occurrences c text) l) = Z.of_nat (length text).
Proof.
  intros Hnd. induction text as [|x text IH]; intros Hin.
  - change (fun c => occurrences c []) with (fun _ : byte => 0).
    clear. induction l as [|a l IH]; [reflexivity|].
    cbn [map]. rewrite zsum_cons, IH. reflexivity.
  - rewrite (map_ext _ (fun c => (if Byte.eqb c x then 1 else 0) + occurrences c text))
      by (intros c; apply occurrences_cons).
    rewrite zsum_map_add, zsum_indicator, IH by (auto with datatypes).
    destruct (in_dec Byte.byte_eq_dec x l) as [_|Hn];
      [|exfalso; apply Hn, Hin; now left].
    cbn [length]. lia.
Qed.

Lemma zsum_table (freq : @cmap Z) (f : byte -> Z) :
  (forall c n, In (c, n) freq -> n = f c) ->
  zsum (map snd freq) = zsum (map f (keys freq)).
Proof.
  induction freq as [|[c n] freq IH]; intros H; [reflexivity|].
  cbn [map snd fst keys]. rewrite !zsum_cons.
  rewrite (H c n) by now left.
  unfold keys in IH. rewrite IH by (intros c' n' Hin; apply (H c'); now right).
  reflexivity.
Qed.

Lemma zsum_le_pointwise {A : Type} (f g : A -> Z) l :
  (forall a, In a l -> f a <= g a) ->
  zsum (map f l) <= zsum (map g l)
  /\ (zsum (map f l) = zsum (map g l) -> forall a, In a l -> f a = g a).
Proof.
  induction l as [|a l IH]; intros H.
  - split; [reflexivity | intros _ a []].
  - cbn [map]. rewrite !zsum_cons.
    destruct IH as [IH1 IH2]; [intros b Hb; apply H; now right|].
    pose proof (H a (or_introl eq_refl)) as Ha.
    split; [lia|]. intros E b [<-|Hb]; [lia|]. apply IH2; [lia | exact Hb].
Qed.

(** X2: The counts of the table [compressFile] builds add up to at most the
    length of the input, and to exactly the length when and only when no
    byte occurs more than [MAX_FREQ] = 16383 times; so an input of at most
    16383 bytes has the total of its table equal to its length. *)
Theorem table_total_length (char_signed : bool) (text : list byte) :
  enc_total char_signed text <= Z.of_nat (length text)
  /\ (enc_total char_signed text = Z.of_nat (length text)
      <-> forall c, occurrences c text <= MAX_FREQ)
  /\ (Z.of_nat (length text) <= MAX_FREQ ->
      enc_total char_signed text = Z.of_nat (length text)).
Proof.
  destruct (enc_table char_signed text) as (_ & Htot & _ & _).
  pose proof (calculateFrequencies_sorted char_signed text) as Hs.
  pose proof (sorted_NoDup char_signed _ Hs) as Hnd.
  set (freq := calculateFrequencies char_signed text) in *.
  assert (Hcount : zsum (map snd freq)
                   = zsum (map (fun c => Z.min (occurrences c text) MAX_FREQ)
                               (keys freq))).
  { apply zsum_table. intros c n Hin.
    apply (In_map_find _ c n Hnd) in Hin. unfold freq in Hin.
    rewrite calculateFrequencies_find in Hin.
    destruct (occurrences c text =? 0); congruence. }
  assert (Hlen : zsum (map (fun c => occurrences c text) (keys freq))
                 = Z.of_nat (length text)).
  { apply zsum_occurrences; [exact Hnd|].
    intros c. apply (calculateFrequencies_keys char_signed text c). }
  destruct (zsum_le_pointwise (fun c => Z.min (occurrences c text) MAX_FREQ)
              (fun c => occurrences c text) (keys freq)) as [Hle Heq];
    [intros; lia|].
  assert (Hiff : enc_total char_signed text = Z.of_nat (length text)
                 <-> forall c, occurrences c text <= MAX_FREQ).
  { rewrite Htot, Hcount, <- Hlen. split.
    - intros E c.
      destruct (in_dec Byte.byte_eq_dec c (keys freq)) as [Hi|Hi].
      + specialize (Heq E c Hi). cbv beta in Heq. lia.
      + assert (Hz : ~ 0 < occurrences c text).
        { intros Hp. apply Hi.
          apply (calculateFrequencies_keys char_signed text c).
          now apply occurrences_pos. }
        unfold MAX_FREQ. lia.
    - intros H. f_equal. apply map_ext. intros c. specialize (H c). lia. }
  split; [rewrite Htot, Hcount, <- Hlen; exact Hle|].
  split; [exact Hiff|].
  intros Hshort. apply Hiff. intros c.
  assert (occurrences c text <= Z.of_nat (length text)); [|lia].
  unfold occurrences. pose proof (count_occ_bound Byte.byte_eq_dec c text). lia.
Qed.

(** ** The encoder has no undefined step *)






(** ** Inputs of one repeated byte *)

Section SingleSymbol.
Variable sg : bool.
Variable c : byte.

Lemma count_repeat n : forall k,
  0 < k <= MAX_FREQ ->
  fold_left (count_char sg) (repeat c n) [(c, k)]
    = [(c, Z.min (k + Z.of_nat n) MAX_FREQ)].
Proof.
  induction n as [|n IH]; intros k Hk.
  - cbn [repeat fold_left]. f_equal. f_equal. lia.
  - cbn [repeat fold_left].
    assert (Hstep : count_char sg [(c, k)] c = [(c, Z.min (k + 1) MAX_FREQ)]).
    { unfold count_char, map_index. cbn [map_find]. rewrite eqb_refl.
      unfold MAX_FREQ in *.
      destruct (Z.ltb_spec k 16383).
      - cbn [map_set]. rewrite eqb_refl, add32_small by lia.
        f_equal. f_equal. lia.
      - f_equal. f_equal. lia. }
    rewrite Hstep, IH by (unfold MAX_FREQ in *; lia).
    f_equal. f_equal. unfold MAX_FREQ in *. lia.
Qed.

Lemma table_of_repeat n :
  calculateFrequencies sg (repeat c (S n))
    = [(c, Z.min (Z.of_nat (S n)) MAX_FREQ)].
Proof.
  unfold calculateFrequencies. cbn [repeat fold_left].
  assert (Hfirst : count_char sg [] c = [(c, 1)]).
  { unfold count_char, map_index. cbn [map_find map_set].
    change (0 <? MAX_FREQ) with true. cbv iota.
    cbn [map_set]. now rewrite eqb_refl. }
  rewrite Hfirst, count_repeat by (unfold MAX_FREQ; lia).
  f_equal. f_equal. lia.
Qed.

Lemma ranges_of_single t :
  0 < t <= MAX_FREQ ->
  buildCumulativeFreq sg [(c, t)] = ([(c, mkRange 0 t t)], t).
Proof.
  intros Ht. unfold MAX_FREQ in Ht.
  unfold buildCumulativeFreq, sum_counts.
  cbn [fold_left snd build_ranges map_set].
  now rewrite add32_small by lia.
Qed.

Lemma narrow_single t :
  0 < t <= MAX_FREQ -> narrow 0 TOP (mkRange 0 t t) = Ok (0, TOP).
Proof.
  intros Ht. unfold MAX_FREQ in Ht.
  rewrite (narrow_sane 0 TOP (mkRange 0 t t) t);
    [| unfold sane, TOP; lia
     | unfold valid_range; cbn [sr_low sr_high sr_count]; lia
     | lia].
  cbn [sr_low sr_high]. unfold TOP.
  rewrite Z.mul_0_r, Z.div_0_l by lia.
  rewrite Z.div_mul by lia. reflexivity.
Qed.

Lemma encode_loop_single fuel t n :
  0 < t <= MAX_FREQ ->
  encode_loop sg fuel [(c, mkRange 0 t t)] (repeat c n) init_coder
    = Ok (init_coder, []).
Proof.
  intros Ht. induction n as [|n IH]; [reflexivity|].
  cbn [repeat encode_loop].
  rewrite (encode_symbol_at sg fuel _ c init_coder (mkRange 0 t t))
    by (cbn [map_find]; now rewrite eqb_refl).
  cbn [init_coder low high pending_bits]. rewrite narrow_single by exact Ht.
  cbn [bind].
  assert (Hr : enc_renorm fuel (mkCoder 0 TOP 0) = Ok (mkCoder 0 TOP 0, []))
    by (destruct fuel; reflexivity).
  rewrite Hr. cbn [bind]. fold init_coder. rewrite IH. reflexivity.
Qed.

Lemma decode_loop_single fuel t n :
  0 < t <= MAX_FREQ ->
  decode_loop sg fuel [(c, mkRange 0 t t)] t n (mkDecoder 0 TOP 1 [])
    = Ok (repeat c n, mkDecoder 0 TOP 1 []).
Proof.
  intros Ht. induction n as [|n IH]; [reflexivity|].
  cbn [repeat decode_loop]. unfold decode_symbol.
  assert (Hok : dec_ok (mkDecoder 0 TOP 1 []))
    by (unfold dec_ok, sane, TOP; cbn [d_low d_high value]; lia).
  destruct (scaled_of_ok (mkDecoder 0 TOP 1 []) t Hok) as [Hsc _];
    [unfold MAX_FREQ in Ht; lia|].
  rewrite Hsc. cbn [d_low d_high value unread bind].
  assert (Hz : ((1 - 0 + 1) * t - 1) / (TOP - 0 + 1) = 0)
    by (apply Z.div_small; unfold TOP, MAX_FREQ in *; lia).
  rewrite Hz. unfold scan_symbol, map_index.
  cbn [scan sr_low sr_high Z.leb Z.compare andb].
  destruct (Z.ltb_spec 0 t); [|lia].
  cbn [map_find]. rewrite eqb_refl.
  rewrite narrow_single by exact Ht. cbn [bind].
  assert (Hr : dec_renorm fuel (mkDecoder 0 TOP 1 []) = Ok (mkDecoder 0 TOP 1 []))
    by (destruct fuel; reflexivity).
  rewrite Hr. cbn [bind]. rewrite IH. reflexivity.
Qed.

End SingleSymbol.

(** X4: An input that repeats one byte, of any length below 2^32 (the empty
    input included), is encoded without a single renormalisation step as the
    two bits 0, 1, whatever the byte and the length, and its container
    decompresses to the input.  No fuel is needed: the inner loops end at
    their first test. *)
Theorem single_symbol_round_trip (char_signed : bool) (fuel : nat)
    (c : byte) (n : nat) :
  Z.of_nat n < 2 ^ 32 ->
  encode_bits char_signed fuel (repeat c n) = Ok [false; true]
  /\ exists container,
       compressFile char_signed fuel (repeat c n) = Ok container
       /\ decompressFile char_signed fuel container = Ok (repeat c n).
Proof.
  intros Hn. destruct n as [|n].
  - split; [destruct char_signed; reflexivity|].
    eexists. split; [destruct char_signed; reflexivity|].
    destruct char_signed, fuel; reflexivity.
  - set (t := Z.min (Z.of_nat (S n)) MAX_FREQ).
    assert (Ht : 0 < t <= MAX_FREQ) by (unfold t, MAX_FREQ; lia).
    assert (Hbits : encode_bits char_signed fuel (repeat c (S n))
                    = Ok [false; true]).
    { unfold encode_bits. rewrite table_of_repeat. fold t.
      rewrite ranges_of_single by exact Ht.
      rewrite encode_loop_single by exact Ht. reflexivity. }
    split; [exact Hbits|].
    eexists. split; [unfold compressFile; rewrite Hbits; reflexivity|].
    rewrite decompress_container;
      [| rewrite repeat_length; exact Hn | simpl; lia].
    unfold decode_bits. rewrite table_of_repeat. fold t.
    rewrite ranges_of_single by exact Ht.
    rewrite repeat_length, Nat2Z.id.
    change (init_decoder [false; true]) with (mkDecoder 0 TOP 1 []).
    rewrite decode_loop_single by exact Ht. reflexivity.
Qed.

Lemma single_symbol_round_trip_witness :
  Z.of_nat 3 < 2 ^ 32
  /\ encode_bits true 0 (repeat x41 3) = Ok [false; true]
  /\ exists container,
       compressFile true 0 (repeat x41 3) = Ok container
       /\ decompressFile true 0 container = Ok (repeat x41 3).
Proof.
  split; [simpl; lia|].
  apply (single_symbol_round_trip true 0 x41 3). simpl. lia.
Defined.

(** ** The size of the container *)

Lemma le32_length x : length (le32 x) = 4%nat.
Proof. reflexivity. Qed.

Lemma write_table_length (freq : @cmap Z) :
  length (write_table freq) = (5 * length freq)%nat.
Proof.
  induction freq as [|[c n] freq IH]; [reflexivity|].
  change (write_table ((c, n) :: freq)) with ((c :: le32 n) ++ write_table freq).
  rewrite length_app, IH. cbn [length le32]. lia.
Qed.

Lemma pack_bits_length (bits : list bool) :
  Z.of_nat (length (pack_bits bits 0 0)) = compressed_size bits
  /\ (length bits <= 8 * length (pack_bits bits 0 0))%nat.
Proof.
  destruct (pack_bits_payload false (length bits) bits (le_n _))
    as (pad & Hpad & Hp).
  apply (f_equal (@length bool)) in Hp.
  rewrite payload_bits_length, length_app, repeat_length in Hp.
  split; [|lia]. unfold compressed_size.
  apply (Z.div_unique _ _ _ (7 - Z.of_nat pad)); lia.
Qed.

Lemma table_length sg text :
  length (calculateFrequencies sg text) = length (nodup Byte.byte_eq_dec text).
Proof.
  pose proof (sorted_NoDup sg _ (calculateFrequencies_sorted sg text)) as Hnd.
  rewrite <- (length_map fst (calculateFrequencies sg text)).
  fold (keys (calculateFrequencies sg text)).
  apply Nat.le_antisymm; apply NoDup_incl_length;
    try assumption; try apply NoDup_nodup; intros c Hc.
  - apply nodup_In. now apply (calculateFrequencies_keys sg text c).
  - apply (calculateFrequencies_keys sg text c). now apply nodup_In in Hc.
Qed.

Lemma write_container_length (freq : @cmap Z) text_size bits :
  Z.of_nat (length (write_container freq text_size bits))
    = 12 + 5 * Z.of_nat (length freq) + compressed_size bits.
Proof.
  unfold write_container, writeBitVector.
  rewrite !length_app, !le32_length, write_table_length.
  destruct (pack_bits_length bits) as [<- _]. lia.
Qed.

(** X5: The container [compressFile] writes is 12 bytes of counts, 5 bytes for
    each distinct byte of the input, and the packed bits; the number it
    prints as the compressed size, [(output_bits.size() + 7) / 8], is the
    length of the packed bits alone. *)
Theorem container_size (char_signed : bool) (fuel : nat) (text : list byte)
    (bits : list bool) :
  encode_bits char_signed fuel text = Ok bits ->
  exists container,
    compressFile char_signed fuel text = Ok container
    /\ Z.of_nat (length container)
       = 12 + 5 * Z.of_nat (length (nodup Byte.byte_eq_dec text))
         + compressed_size bits
    /\ Z.of_nat (length (writeBitVector bits)) = 4 + compressed_size bits.
Proof.
  intros Hbits. eexists. split; [unfold compressFile; rewrite Hbits; reflexivity|].
  split.
  - rewrite write_container_length, table_length. reflexivity.
  - unfold writeBitVector. rewrite length_app, le32_length.
    destruct (pack_bits_length bits) as [<- _]. lia.
Qed.

Lemma container_size_witness :
  encode_bits true 16 sample_text
    = Ok [false; false; false; false; false; false; true; true; true;
          true; false; false; true; true; false; false; false; true;
          true]
  /\ exists container,
       compressFile true 16 sample_text = Ok container
       /\ Z.of_nat (length container)
          = 12 + 5 * Z.of_nat (length (nodup Byte.byte_eq_dec sample_text))
            + compressed_size
                [false; false; false; false; false; false; true; true; true;
                 true; false; false; true; true; false; false; false; true;
                 true]
       /\ Z.of_nat (length (writeBitVector
                [false; false; false; false; false; false; true; true; true;
                 true; false; false; true; true; false; false; false; true;
                 true]))
          = 4 + compressed_size
                [false; false; false; false; false; false; true; true; true;
                 true; false; false; true; true; false; false; false; true;
                 true].
Proof.
  assert (H : encode_bits true 16 sample_text
    = Ok [false; false; false; false; false; false; true; true; true;
          true; false; false; true; true; false; false; false; true;
          true]) by (vm_compute; reflexivity).
  split; [exact H|].
  exact (container_size true 16 sample_text _ H).
Defined.

(** ** The length of the output *)

Lemma encode_loop_at_head sg fuel ranges total text : forall s s' bits,
  ranges_ok ranges total -> total <= FIRST_QTR + 2 ->
  at_head s (length text) ->
  encode_loop sg fuel ranges text s = Ok (s', bits) ->
  at_head s' 0.
Proof.
  induction text as [|c text IH]; intros s s' bits Hok Htot Hhead H;
    cbn [encode_loop] in H.
  - injection H as <- _. exact Hhead.
  - destruct (encode_symbol sg fuel ranges c s) as [[[ranges1 s1] bits1]|f|] eqn:E;
      cbn [bind] in H; try discriminate.
    cbn [length] in Hhead.
    destruct (encode_symbol_at_head sg fuel ranges total c s (length text) _ _ _
                Hok Htot Hhead E)
      as (r & l & h & _ & _ & -> & _ & _ & _ & _ & _ & Hhead1 & _).
    destruct (encode_loop sg fuel ranges text s1) as [[s2 bits2]|f|] eqn:E2;
      cbn [bind] in H; try discriminate.
    injection H as Hs2 _. subst s2. eapply IH; eassumption.
Qed.

(** X6: For an input whose table total is at most [FIRST_QTR + 2] = 16386 and
    which is shorter than 2^27 bytes, the encoder ends (16 rounds of each
    inner loop suffice) and writes at least 2 and at most 16 bits for each
    input byte plus 2; the container is at most twice the input plus 1293
    bytes long. *)
Theorem output_length_bound (char_signed : bool) (fuel : nat)
    (text : list byte) :
  enc_total char_signed text <= FIRST_QTR + 2 ->
  Z.of_nat (length text) < 2 ^ 27 ->
  (16 <= fuel)%nat ->
  exists bits container,
    encode_bits char_signed fuel text = Ok bits
    /\ compressFile char_signed fuel text = Ok container
    /\ 2 <= Z.of_nat (length bits) <= 16 * Z.of_nat (length text) + 2
    /\ Z.of_nat (length container) <= 2 * Z.of_nat (length text) + 1293.
Proof.
  intros Htot Hlen Hfuel.
  destruct (round_trip_bits char_signed fuel text Htot Hlen Hfuel)
    as (bits & Hbits & Hup & _).
  exists bits. eexists.
  split; [exact Hbits|].
  split; [unfold compressFile; rewrite Hbits; reflexivity|].
  assert (Hlow : 2 <= Z.of_nat (length bits)).
  { rewrite encode_bits_unfold in Hbits.
    destruct (encode_loop char_signed fuel (enc_ranges char_signed text) text
                init_coder) as [[s' bits0]|f|] eqn:El; cbn [bind] in Hbits;
      try discriminate.
    injection Hbits as <-.
    destruct (enc_table char_signed text) as (_ & _ & Htab & _).
    pose proof (encode_loop_at_head char_signed fuel _ _ text init_coder s' bits0
                  (table_ok_ranges_ok _ _ Htab) Htot
                  (at_head_init (length text) ltac:(lia)) El)
      as (_ & _ & Hst & Hp0 & Hp1).
    destruct (final_frame s' Hst Hp0 ltac:(simpl in Hp1; lia)) as [Hf _].
    rewrite length_app. lia. }
  split; [lia|].
  rewrite write_container_length, table_length.
  pose proof (NoDup_bytes_length _ (NoDup_nodup Byte.byte_eq_dec text)) as Hd.
  assert (Hc : compressed_size bits < 2 * Z.of_nat (length text) + 2).
  { unfold compressed_size. apply Z.div_lt_upper_bound; lia. }
  lia.
Qed.

Lemma output_length_bound_witness :
  enc_total true sample_text <= FIRST_QTR + 2
  /\ Z.of_nat (length sample_text) < 2 ^ 27
  /\ (16 <= 16)%nat
  /\ exists bits container,
       encode_bits true 16 sample_text = Ok bits
       /\ compressFile true 16 sample_text = Ok container
       /\ 2 <= Z.of_nat (length bits) <= 16 * Z.of_nat (length sample_text) + 2
       /\ Z.of_nat (length container) <= 2 * Z.of_nat (length sample_text) + 1293.
Proof.
  assert (H1 : enc_total true sample_text <= FIRST_QTR + 2)
    by (vm_compute; discriminate).
  assert (H2 : Z.of_nat (length sample_text) < 2 ^ 27)
    by (vm_compute; reflexivity).
  split; [exact H1|]. split; [exact H2|]. split; [apply le_n|].
  exact (output_length_bound true 16 sample_text H1 H2 (le_n 16)).
Defined.

(** ** Bytes after the payload *)

Lemma flat_map_bits_app sg (l1 l2 : list byte) :
  flat_map (msb_bits sg 8) (l1 ++ l2)
    = flat_map (msb_bits sg 8) l1 ++ flat_map (msb_bits sg 8) l2.
Proof. apply flat_map_app. Qed.

(** X7: Whatever bytes follow the container [compressFile] wrote, for any input,
    [decompressFile] does the same as on the container alone: the bit source
    stops at the declared count. *)
Theorem trailing_bytes_ignored (char_signed : bool) (fuel fuel' : nat)
    (text container junk : list byte) :
  compressFile char_signed fuel text = Ok container ->
  decompressFile char_signed fuel' (container ++ junk)
    = decompressFile char_signed fuel' container.
Proof.
  unfold compressFile. intros H.
  destruct (encode_bits char_signed fuel text) as [bits|f|]; cbn [bind] in H;
    try discriminate.
  injection H as <-.
  pose proof (calculateFrequencies_sorted char_signed text) as Hs.
  pose proof (calculateFrequencies_ok char_signed text) as Hok.
  pose proof (NoDup_bytes_length _ (sorted_NoDup char_signed _ Hs)) as Hl.
  unfold keys in Hl. rewrite length_map in Hl.
  assert (He : Forall (fun pair : byte * Z => 0 <= snd pair < 2 ^ 32)
                 (calculateFrequencies char_signed text)).
  { apply Forall_forall. intros [c n] Hin. apply Hok in Hin. simpl.
    unfold MAX_FREQ in Hin. lia. }
  unfold write_container, writeBitVector.
  rewrite (wrap32_small (Z.of_nat (length (calculateFrequencies char_signed text))))
    by lia.
  rewrite <- !app_assoc.
  pose proof (wrap32_range (Z.of_nat (length text))) as Ht.
  pose proof (wrap32_range (Z.of_nat (length bits))) as Hb.
  rewrite !decompressFile_fields by (assumption || lia).
  f_equal. rewrite flat_map_bits_app, firstn_app.
  rewrite payload_bits_length.
  destruct (pack_bits_length bits) as [_ Hp].
  assert (Hw : wrap32 (Z.of_nat (length bits)) <= Z.of_nat (length bits))
    by (unfold wrap32; apply Z.mod_le; lia).
  replace (Z.to_nat (wrap32 (Z.of_nat (length bits)))
           - 8 * length (pack_bits bits 0 0))%nat with O by lia.
  cbn [firstn]. now rewrite app_nil_r.
Qed.

Lemma trailing_bytes_ignored_witness :
  compressFile true 16 sample_text
    = Ok [x04; x00; x00; x00; x41; x04; x00; x00; x00; x42; x03; x00; x00;
          x00; x43; x02; x00; x00; x00; x44; x01; x00; x00; x00; x0a; x00;
          x00; x00; x13; x00; x00; x00; x03; xcc; x60]
  /\ decompressFile true 16
       ([x04; x00; x00; x00; x41; x04; x00; x00; x00; x42; x03; x00; x00;
         x00; x43; x02; x00; x00; x00; x44; x01; x00; x00; x00; x0a; x00;
         x00; x00; x13; x00; x00; x00; x03; xcc; x60] ++ [xff; xff])
     = decompressFile true 16
         [x04; x00; x00; x00; x41; x04; x00; x00; x00; x42; x03; x00; x00;
          x00; x43; x02; x00; x00; x00; x44; x01; x00; x00; x00; x0a; x00;
          x00; x00; x13; x00; x00; x00; x03; xcc; x60].
Proof.
  assert (H : compressFile true 16 sample_text
    = Ok [x04; x00; x00; x00; x41; x04; x00; x00; x00; x42; x03; x00; x00;
          x00; x43; x02; x00; x00; x00; x44; x01; x00; x00; x00; x0a; x00;
          x00; x00; x13; x00; x00; x00; x03; xcc; x60])
    by (vm_compute; reflexivity).
  split; [exact H|].
  exact (trailing_bytes_ignored true 16 16 sample_text _ [xff; xff] H).
Defined.

(** ** Inputs on which the signedness of [char] does not matter *)

Lemma char_ltb_same_half a b :
  (byte_val a < 128 /\ byte_val b < 128)
  \/ (128 <= byte_val a /\ 128 <= byte_val b) ->
  char_ltb true a b = char_ltb false a b.
Proof.
  unfold char_ltb, char_val. cbn [andb].
  intros H.
  destruct (Z.leb_spec 128 (byte_val a)), (Z.leb_spec 128 (byte_val b));
    try lia;
    destruct (Z.ltb_spec (byte_val a) (byte_val b));
    match goal with |- (?x <? ?y) = _ => destruct (Z.ltb_spec x y) end;
    try reflexivity; lia.
Qed.

Section SameOrder.
(** A set of bytes that both orders of [char] arrange alike. *)
Variable Same : byte -> Prop.
Hypothesis same_order :
  forall a b, Same a -> Same b -> char_ltb true a b = char_ltb false a b.

Lemma map_set_same {V : Type} c (v : V) m :
  Same c -> (forall k, In k (keys m) -> Same k) ->
  map_set true c v m = map_set false c v m.
Proof.
  intros Hc. induction m as [|[k w] m IH]; intros Hm; [reflexivity|].
  cbn [map_set].
  rewrite (same_order c k Hc) by (apply Hm; now left).
  rewrite IH by (intros k' Hk'; apply Hm; now right). reflexivity.
Qed.

Lemma count_char_same m x :
  Same x -> (forall k, In k (keys m) -> Same k) ->
  count_char true m x = count_char false m x
  /\ (forall k, In k (keys (count_char false m x)) -> Same k).
Proof.
  intros Hx Hm. unfold count_char, map_index.
  destruct (map_find x m) as [n|].
  - destruct (n <? MAX_FREQ).
    + split; [now apply map_set_same|].
      intros k Hk. apply keys_set_In in Hk. destruct Hk as [->|Hk]; auto.
    + split; [reflexivity | exact Hm].
  - change (0 <? MAX_FREQ) with true. cbv iota.
    rewrite (map_set_same x 0 m Hx Hm).
    assert (Hm1 : forall k, In k (keys (map_set false x 0 m)) -> Same k).
    { intros k Hk. apply keys_set_In in Hk. destruct Hk as [->|Hk]; auto. }
    split; [now apply map_set_same|].
    intros k Hk. apply keys_set_In in Hk. destruct Hk as [->|Hk]; auto.
Qed.

Lemma calculateFrequencies_same text : forall m,
  (forall c, In c text -> Same c) -> (forall k, In k (keys m) -> Same k) ->
  fold_left (count_char true) text m = fold_left (count_char false) text m.
Proof.
  induction text as [|x text IH]; intros m Ht Hm; [reflexivity|].
  cbn [fold_left].
  destruct (count_char_same m x (Ht x (or_introl eq_refl)) Hm) as [-> Hm1].
  apply IH; [intros c Hc; apply Ht; now right | exact Hm1].
Qed.

End SameOrder.

Lemma encode_loop_same fuel ranges text : forall s,
  (forall c, In c text -> map_find c ranges <> None) ->
  encode_loop true fuel ranges text s = encode_loop false fuel ranges text s.
Proof.
  induction text as [|c text IH]; intros s Hin; [reflexivity|].
  cbn [encode_loop].
  destruct (map_find c ranges) as [r|] eqn:Ef;
    [|exfalso; apply (Hin c); [now left | exact Ef]].
  rewrite !(encode_symbol_at _ fuel ranges c s r Ef).
  destruct (narrow (low s) (high s) r) as [[lo hi]|f|]; cbn [bind];
    try reflexivity.
  destruct (enc_renorm fuel _) as [[s1 bits1]|f|]; cbn [bind]; try reflexivity.
  rewrite IH by (intros c' Hc'; apply Hin; now right). reflexivity.
Qed.

(** X8: For an input whose bytes are all below 128 (ASCII text), or all from 128
    up, [compressFile] writes the same container whether [char] is signed or
    not: the two orders of [std::map<char, _>] differ only in where they put
    the upper half of the bytes relative to the lower. *)
Theorem container_same_for_either_char (fuel : nat) (text : list byte) :
  (forall c, In c text -> byte_val c < 128)
  \/ (forall c, In c text -> 128 <= byte_val c) ->
  calculateFrequencies true text = calculateFrequencies false text
  /\ compressFile true fuel text = compressFile false fuel text.
Proof.
  intros Hhalf.
  assert (Hfreq : calculateFrequencies true text = calculateFrequencies false text).
  { unfold calculateFrequencies.
    apply (calculateFrequencies_same (fun c => In c text)).
    - intros a b Ha Hb. apply char_ltb_same_half.
      destruct Hhalf as [H|H]; [left | right]; auto.
    - auto.
    - intros k []. }
  split; [exact Hfreq|].
  assert (Hbuild : buildCumulativeFreq true (calculateFrequencies true text)
                   = buildCumulativeFreq false (calculateFrequencies false text)).
  { rewrite (buildCumulativeFreq_sorted true)
      by apply calculateFrequencies_sorted.
    rewrite (buildCumulativeFreq_sorted false)
      by apply calculateFrequencies_sorted.
    now rewrite Hfreq. }
  unfold compressFile. rewrite !encode_bits_unfold. unfold enc_ranges.
  rewrite Hbuild, Hfreq.
  rewrite encode_loop_same; [reflexivity|].
  intros c Hin Hnone. apply map_find_None in Hnone. apply Hnone.
  fold (enc_ranges false text).
  destruct (enc_table false text) as (-> & _).
  rewrite keys_ranges_from. now apply calculateFrequencies_keys.
Qed.

Lemma container_same_for_either_char_witness :
  ((forall c, In c sample_text -> byte_val c < 128)
   \/ (forall c, In c sample_text -> 128 <= byte_val c))
  /\ calculateFrequencies true sample_text = calculateFrequencies false sample_text
  /\ compressFile true 16 sample_text = compressFile false 16 sample_text.
Proof.
  assert (H : (forall c, In c sample_text -> byte_val c < 128)
              \/ (forall c, In c sample_text -> 128 <= byte_val c)).
  { left. intros c Hc. unfold sample_text in Hc. cbn [In] in Hc.
    repeat (destruct Hc as [<-|Hc]; [reflexivity|]). destruct Hc. }
  split; [exact H|].
  exact (container_same_for_either_char 16 sample_text H).
Defined.

(** ** The decoder on a container with a valid table *)

Lemma dec_renorm_total fuel : forall s k,
  dec_ok s -> 0 <= k ->
  2 ^ 16 <= (d_high s - d_low s + 1) * 2 ^ k ->
  k <= Z.of_nat fuel ->
  exists s', dec_renorm fuel s = Ok s'.
Proof.
  induction fuel as [|fuel IH]; intros s k Hs Hk HR Hf; cbn [dec_renorm];
    destruct (dec_renorm_step s) as [s1|] eqn:E; eauto.
  - exfalso.
    destruct (dec_renorm_step_sane s s1 Hs E) as (off & b & ? & ? & _).
    assert (k = 0) by lia. subst k.
    unfold HALF, FIRST_QTR, TOP in *. change ((65535 + 1) / 4) with 16384 in *.
    simpl in HR. lia.
  - destruct (dec_renorm_step_sane s s1 Hs E)
      as (off & b & Ho & Hh & _ & Hl1 & Hh1 & _).
    destruct (dec_renorm_step_keeps_ok s s1 Hs E) as [Hs1 _].
    assert (Hk1 : 1 <= k).
    { destruct (Z.eq_dec k 0) as [->|]; [|lia].
      unfold HALF, FIRST_QTR, TOP in *. change ((65535 + 1) / 4) with 16384 in *.
      simpl in HR. lia. }
    apply (IH s1 (k - 1)); [exact Hs1 | lia | | lia].
    rewrite Hl1, Hh1. replace k with (Z.succ (k - 1)) in HR by lia.
    rewrite Z.pow_succ_r in HR by lia. lia.
Qed.

Lemma decode_symbol_total sg fuel ranges total s :
  table_ok ranges total -> 0 < total < 2 ^ 16 -> dec_ok s ->
  (16 <= fuel)%nat ->
  exists symbol s1,
    decode_symbol sg fuel ranges total s = Ok (ranges, symbol, s1)
    /\ dec_ok s1 /\ In symbol (keys ranges).
Proof.
  intros Htab Ht Hs Hfuel.
  destruct (scaled_of_ok s total Hs Ht) as [Hsc Hb].
  pose proof Htab as (Hnd & Htiles & Hcount).
  destruct (scan_tiles ranges 0 total _ Hnd Htiles Hb)
    as (c & r & Hscan & Hin & Hr & _ & Hf).
  pose proof (table_ok_ranges_ok _ _ Htab _ _ Hf) as Hvalid.
  destruct Hs as [Hsane Hv].
  pose proof (narrow_sane _ _ r total Hsane Hvalid Ht) as Hn.
  destruct (narrow_keeps_value _ _ _ _ _ _ _ Hsane Hv Hvalid Ht Hr Hn)
    as (Hs' & Hv' & _).
  set (l := d_low s + (d_high s - d_low s + 1) * sr_low r / total) in *.
  set (h := wrap32 (d_low s + (d_high s - d_low s + 1) * sr_high r / total - 1))
    in *.
  assert (Hok1 : dec_ok (mkDecoder l h (value s) (unread s)))
    by (split; assumption).
  destruct (dec_renorm_total fuel (mkDecoder l h (value s) (unread s)) 16 Hok1)
    as (s1 & Hren); [lia | | lia |].
  { cbn [d_low d_high]. unfold sane in Hs'.
    change (2 ^ 16) with 65536. lia. }
  exists c, s1. split; [|split].
  - unfold decode_symbol. rewrite Hsc. cbn [bind].
    unfold scan_symbol, map_index. rewrite Hscan, Hf, Hn. cbn [bind].
    rewrite Hren. reflexivity.
  - now apply (dec_renorm_ok fuel _ s1 Hok1).
  - apply (in_map fst) in Hin. exact Hin.
Qed.

Lemma decode_loop_total sg fuel ranges total n : forall s,
  table_ok ranges total -> 0 < total < 2 ^ 16 -> dec_ok s ->
  (16 <= fuel)%nat ->
  exists out s',
    decode_loop sg fuel ranges total n s = Ok (out, s')
    /\ length out = n /\ Forall (fun c => In c (keys ranges)) out.
Proof.
  induction n as [|n IH]; intros s Htab Ht Hs Hfuel; cbn [decode_loop].
  - exists [], s. auto.
  - destruct (decode_symbol_total sg fuel ranges total s Htab Ht Hs Hfuel)
      as (sym & s1 & -> & Hs1 & Hin).
    cbn [bind].
    destruct (IH s1 Htab Ht Hs1 Hfuel) as (out & s' & -> & Hlen & Hall).
    cbn [bind]. exists (sym :: out), s'.
    split; [reflexivity|]. split; [cbn [length]; now rewrite Hlen|].
    now constructor.
Qed.

Lemma count_le_zsum (freq : @cmap Z) c n :
  counts_pos freq -> In (c, n) freq -> 0 < n <= zsum (map snd freq).
Proof.
  induction 1 as [|[c' n'] freq Hn Hpos IH]; intros Hin; [destruct Hin|].
  cbn [map snd]. rewrite zsum_cons. simpl in Hn.
  pose proof (zsum_pos freq Hpos) as Hz.
  destruct Hin as [[= -> ->]|Hin]; [lia|]. specialize (IH Hin). lia.
Qed.

(** X9: A container whose table is sorted, not empty, with positive counts of
    total below 2^16, is decoded to the end whatever its bits and its
    declared counts are: no undefined operation, 16 rounds of the inner
    loop at most for each symbol, exactly [originalSymbolCount] symbols of
    output, every one of them a byte of the table. *)
Theorem decoder_total_on_valid_table (char_signed : bool) (fuel : nat)
    (freq : @cmap Z) (text_size bitSize : Z) (payload : list byte) :
  map_sorted char_signed freq -> counts_pos freq -> freq <> [] ->
  zsum (map snd freq) < 2 ^ 16 ->
  0 <= text_size < 2 ^ 32 -> 0 <= bitSize < 2 ^ 32 ->
  (16 <= fuel)%nat ->
  exists out,
    decompressFile char_signed fuel
        (le32 (Z.of_nat (length freq)) ++ write_table freq
           ++ le32 text_size ++ le32 bitSize ++ payload)
      = Ok out
    /\ Z.of_nat (length out) = text_size
    /\ Forall (fun c => In c (keys freq)) out.
Proof.
  intros Hs Hpos Hne Hsum Hts Hbs Hfuel.
  pose proof (NoDup_bytes_length _ (sorted_NoDup char_signed _ Hs)) as Hl.
  unfold keys in Hl. rewrite length_map in Hl.
  rewrite decompressFile_fields; [| | lia | assumption | assumption].
  2: { apply Forall_forall. intros [c n] Hin.
       pose proof (count_le_zsum freq c n Hpos Hin). simpl. lia. }
  rewrite table_of_sorted by assumption.
  destruct (table_built char_signed freq Hs Hpos ltac:(lia)) as [Hbuild Htab].
  pose proof (zsum_pos freq Hpos) as Hz.
  assert (Ht : 0 < zsum (map snd freq) < 2 ^ 16).
  { destruct freq; [contradiction|]. cbn [length] in Hz. lia. }
  unfold decode_bits. rewrite Hbuild.
  destruct (decode_loop_total char_signed fuel _ _ (Z.to_nat text_size)
              (init_decoder (firstn (Z.to_nat bitSize)
                 (flat_map (msb_bits char_signed 8) payload)))
              Htab Ht (init_decoder_ok _) Hfuel)
    as (out & s' & -> & Hlen & Hall).
  cbn [bind]. exists out. split; [reflexivity|]. split; [lia|].
  now rewrite keys_ranges_from in Hall.
Qed.

Lemma decoder_total_on_valid_table_witness :
  map_sorted true sample_table /\ counts_pos sample_table /\ sample_table <> []
  /\ zsum (map snd sample_table) < 2 ^ 16
  /\ 0 <= 10 < 2 ^ 32 /\ 0 <= 19 < 2 ^ 32 /\ (16 <= 16)%nat
  /\ exists out,
       decompressFile true 16
           (le32 (Z.of_nat (length sample_table)) ++ write_table sample_table
              ++ le32 10 ++ le32 19 ++ [x03])
         = Ok out
       /\ Z.of_nat (length out) = 10
       /\ Forall (fun c => In c (keys sample_table)) out.
Proof.
  assert (H1 : map_sorted true sample_table) by apply sample_table_sorted.
  assert (H2 : counts_pos sample_table)
    by (apply counts_ok_pos, sample_table_ok).
  assert (H3 : sample_table <> []) by discriminate.
  assert (H4 : zsum (map snd sample_table) < 2 ^ 16) by reflexivity.
  assert (H5 : 0 <= 10 < 2 ^ 32) by lia.
  assert (H6 : 0 <= 19 < 2 ^ 32) by lia.
  repeat (split; [assumption|]). split; [apply le_n|].
  exact (decoder_total_on_valid_table true 16 sample_table 10 19 [x03]
           H1 H2 H3 H4 H5 H6 (le_n 16)).
Defined.

(** ** Bits past the end of the payload *)

Lemma pull_bit_pads v bits k :
  exists k',
    pull_bit v (bits ++ repeat false k)
      = (fst (pull_bit v bits), snd (pull_bit v bits) ++ repeat false k').
Proof.
  destruct bits as [|b bits].
  - destruct k as [|k].
    + exists O. reflexivity.
    + exists k. cbn [app repeat pull_bit bit_val fst snd].
      now rewrite Z.lor_0_r.
  - exists k. reflexivity.
Qed.

Lemma dec_renorm_step_pads d d' :
  pads d d' ->
  match dec_renorm_step d with
  | Some d1 => exists d1', dec_renorm_step d' = Some d1' /\ pads d1 d1'
  | None => dec_renorm_step d' = None
  end.
Proof.
  intros (Hl & Hh & Hv & k & Hu). unfold dec_renorm_step.
  rewrite Hl, Hh, Hv, Hu.
  destruct (if d_high d <? HALF then _ else _) as [[[lo hi] v]|];
    [|reflexivity].
  destruct (pull_bit_pads v (unread d) k) as (k' & ->).
  destruct (pull_bit v (unread d)) as [v' bits']. cbn [fst snd].
  eexists. split; [reflexivity|].
  unfold pads. cbn [d_low d_high value unread]. eauto.
Qed.

Lemma dec_renorm_pads fuel : forall d d',
  pads d d' ->
  match dec_renorm fuel d with
  | Ok s => exists s', dec_renorm fuel d' = Ok s' /\ pads s s'
  | Fault f => dec_renorm fuel d' = Fault f
  | OutOfFuel => dec_renorm fuel d' = OutOfFuel
  end.
Proof.
  induction fuel as [|fuel IH]; intros d d' Hp; cbn [dec_renorm];
    pose proof (dec_renorm_step_pads d d' Hp) as Hstep;
    destruct (dec_renorm_step d) as [d1|].
  - destruct Hstep as (d1' & -> & _). reflexivity.
  - rewrite Hstep. eauto.
  - destruct Hstep as (d1' & -> & Hp1). now apply IH.
  - rewrite Hstep. eauto.
Qed.

Lemma decode_symbol_pads sg fuel ranges total d d' :
  pads d d' ->
  match decode_symbol sg fuel ranges total d with
  | Ok (ranges1, symbol, s) =>
      exists s', decode_symbol sg fuel ranges total d' = Ok (ranges1, symbol, s')
                 /\ pads s s'
  | Fault f => decode_symbol sg fuel ranges total d' = Fault f
  | OutOfFuel => decode_symbol sg fuel ranges total d' = OutOfFuel
  end.
Proof.
  intros Hp. pose proof Hp as (Hl & Hh & Hv & k & Hu).
  unfold decode_symbol, scaled_of. rewrite Hl, Hh, Hv.
  destruct (div32 _ _) as [scaled_value|f|]; cbn [bind]; try reflexivity.
  destruct (map_index sg no_range (scan_symbol ranges scaled_value) ranges)
    as [current_range ranges1].
  destruct (narrow (d_low d) (d_high d) current_range) as [[lo hi]|f|];
    cbn [bind]; try reflexivity.
  assert (Hp1 : pads (mkDecoder lo hi (value d) (unread d))
                     (mkDecoder lo hi (value d) (unread d'))).
  { unfold pads. cbn [d_low d_high value unread]. eauto. }
  pose proof (dec_renorm_pads fuel _ _ Hp1) as Hr.
  destruct (dec_renorm fuel (mkDecoder lo hi (value d) (unread d)))
    as [s|f|]; cbn [bind].
  - destruct Hr as (s' & -> & Hps). cbn [bind]. eauto.
  - now rewrite Hr.
  - now rewrite Hr.
Qed.

Lemma decode_loop_pads sg fuel total n : forall ranges d d',
  pads d d' ->
  match decode_loop sg fuel ranges total n d with
  | Ok (out, s) =>
      exists s', decode_loop sg fuel ranges total n d' = Ok (out, s')
                 /\ pads s s'
  | Fault f => decode_loop sg fuel ranges total n d' = Fault f
  | OutOfFuel => decode_loop sg fuel ranges total n d' = OutOfFuel
  end.
Proof.
  induction n as [|n IH]; intros ranges d d' Hp; cbn [decode_loop]; [eauto|].
  pose proof (decode_symbol_pads sg fuel ranges total d d' Hp) as Hsym.
  destruct (decode_symbol sg fuel ranges total d) as [[[ranges1 sym] s1]|f|];
    cbn [bind].
  - destruct Hsym as (s1' & -> & Hp1). cbn [bind].
    specialize (IH ranges1 s1 s1' Hp1).
    destruct (decode_loop sg fuel ranges1 total n s1) as [[rest s2]|f|];
      cbn [bind].
    + destruct IH as (s2' & -> & Hp2). cbn [bind]. eauto.
    + now rewrite IH.
    + now rewrite IH.
  - now rewrite Hsym.
  - now rewrite Hsym.
Qed.

Lemma window_app n : forall bits more,
  (n <= length bits)%nat -> window n (bits ++ more) = window n bits.
Proof.
  induction n as [|n IH]; intros bits more Hlen; [reflexivity|].
  destruct bits as [|b bits]; cbn [length] in Hlen; [lia|].
  cbn [app window]. rewrite IH by lia. reflexivity.
Qed.

(** X10: Once the 16 bits of [value] have been read, a bit the decoder would read
    past the end of the sequence counts as 0: appending zero bits to a
    sequence of at least 16 bits changes nothing in what [decompressFile]
    does with it, whatever the table. *)
Theorem missing_bits_read_as_zero (char_signed : bool) (fuel : nat)
    (freq : @cmap Z) (text_size : Z) (bits : list bool) (k : nat) :
  (16 <= length bits)%nat ->
  decode_bits char_signed fuel freq text_size (bits ++ repeat false k)
    = decode_bits char_signed fuel freq text_size bits.
Proof.
  intros Hlen. unfold decode_bits.
  destruct (buildCumulativeFreq char_signed freq) as [ranges total].
  assert (Hp : pads (init_decoder bits) (init_decoder (bits ++ repeat false k))).
  { rewrite !init_decoder_window by (rewrite ?length_app; lia).
    unfold pads, decoder_at. cbn [d_low d_high value unread].
    rewrite window_app by exact Hlen.
    repeat (split; [reflexivity|]). exists k.
    rewrite skipn_app. replace (16 - length bits)%nat with O by lia.
    reflexivity. }
  pose proof (decode_loop_pads char_signed fuel total (Z.to_nat text_size)
                ranges _ _ Hp) as H.
  destruct (decode_loop char_signed fuel ranges total (Z.to_nat text_size)
              (init_decoder bits)) as [[out s]|f|]; cbn [bind].
  - destruct H as (s' & -> & _). reflexivity.
  - now rewrite H.
  - now rewrite H.
Qed.

Lemma missing_bits_read_as_zero_witness :
  (16 <= length nomatch_bits)%nat
  /\ decode_bits true 16 sample_table 10 (nomatch_bits ++ repeat false 3)
     = decode_bits true 16 sample_table 10 nomatch_bits.
Proof.
  assert (H : (16 <= length nomatch_bits)%nat) by apply le_n.
  split; [exact H|].
  exact (missing_bits_read_as_zero true 16 sample_table 10 nomatch_bits 3 H).
Defined.

(** ** The declared symbol count *)

Lemma decode_symbol_ranges sg fuel ranges total s ranges1 symbol s1 :
  decode_symbol sg fuel ranges total s = Ok (ranges1, symbol, s1) ->
  ranges1 = ranges.
Proof.
  unfold decode_symbol, map_index.
  destruct (scaled_of s total) as [scaled_value|f|]; cbn [bind];
    try discriminate.
  destruct (map_find (scan_symbol ranges scaled_value) ranges) as [r|].
  - destruct (narrow (d_low s) (d_high s) r) as [[lo hi]|f|]; cbn [bind];
      try discriminate.
    destruct (dec_renorm fuel _) as [s2|f|]; cbn [bind]; try discriminate.
    now intros [= <- _ _].
  - rewrite narrow_no_range. discriminate.
Qed.

Lemma decode_loop_app sg fuel ranges total n m : forall s out s',
  decode_loop sg fuel ranges total (n + m) s = Ok (out, s') ->
  exists out1 s1 out2,
    decode_loop sg fuel ranges total n s = Ok (out1, s1)
    /\ decode_loop sg fuel ranges total m s1 = Ok (out2, s')
    /\ out = out1 ++ out2 /\ length out1 = n.
Proof.
  induction n as [|n IH]; intros s out s' H.
  - exists [], s, out. auto.
  - cbn [Nat.add decode_loop] in *.
    destruct (decode_symbol sg fuel ranges total s) as [[[ranges1 sym] s1]|f|] eqn:E;
      cbn [bind] in *; try discriminate.
    apply decode_symbol_ranges in E. subst ranges1.
    destruct (decode_loop sg fuel ranges total (n + m) s1) as [[rest s2]|f|] eqn:E2;
      cbn [bind] in H; try discriminate.
    injection H as <- <-.
    destruct (IH s1 rest s2 E2) as (out1 & s1' & out2 & -> & H2 & -> & Hlen).
    cbn [bind]. exists (sym :: out1), s1', out2.
    split; [reflexivity|]. split; [exact H2|].
    split; [reflexivity|]. cbn [length]. now rewrite Hlen.
Qed.

(** X11: The symbol count of the container only says where decoding stops: when
    decoding [m] symbols from a table and a bit sequence returns, decoding
    [n <= m] symbols from the same table and bits returns the first [n] of
    them. *)
Theorem smaller_count_decodes_prefix (char_signed : bool) (fuel : nat)
    (freq : @cmap Z) (n m : Z) (bits : list bool) (out : list byte) :
  0 <= n <= m ->
  decode_bits char_signed fuel freq m bits = Ok out ->
  decode_bits char_signed fuel freq n bits = Ok (firstn (Z.to_nat n) out).
Proof.
  intros Hnm. unfold decode_bits.
  destruct (buildCumulativeFreq char_signed freq) as [ranges total].
  replace (Z.to_nat m) with (Z.to_nat n + (Z.to_nat m - Z.to_nat n))%nat by lia.
  destruct (decode_loop char_signed fuel ranges total
              (Z.to_nat n + (Z.to_nat m - Z.to_nat n)) (init_decoder bits))
    as [[o s']|f|] eqn:E; cbn [bind]; try discriminate.
  intros [= <-].
  destruct (decode_loop_app _ _ _ _ _ _ _ _ _ E)
    as (out1 & s1 & out2 & -> & _ & -> & Hlen).
  cbn [bind]. rewrite firstn_app, <- Hlen, firstn_all, Nat.sub_diag.
  cbn [firstn]. now rewrite app_nil_r.
Qed.

Lemma smaller_count_decodes_prefix_witness :
  0 <= 4 <= 10
  /\ decode_bits true 16 sample_table 10 nomatch_bits
     = Ok [x43; x41; x42; x44; x41; x43; x42; x41; x41; x43]
  /\ decode_bits true 16 sample_table 4 nomatch_bits
     = Ok (firstn (Z.to_nat 4)
             [x43; x41; x42; x44; x41; x43; x42; x41; x41; x43]).
Proof.
  assert (H1 : 0 <= 4 <= 10) by lia.
  assert (H2 : decode_bits true 16 sample_table 10 nomatch_bits
               = Ok [x43; x41; x42; x44; x41; x43; x42; x41; x41; x43])
    by (vm_compute; reflexivity).
  split; [exact H1|]. split; [exact H2|].
  exact (smaller_count_decodes_prefix true 16 sample_table 4 10 nomatch_bits _
           H1 H2).
Defined.

(** ** The table the decoder reads *)

Lemma map_find_app {V : Type} c (l1 l2 : @cmap V) :
  map_find c (l1 ++ l2)
    = match map_find c l1 with
      | Some v => Some v
      | None => map_find c l2
      end.
Proof.
  induction l1 as [|[k v] l1 IH]; [reflexivity|].
  cbn [app map_find]. destruct (Byte.eqb c k); [reflexivity | exact IH].
Qed.

Lemma table_of_entries_find sg (entries : list (byte * Z)) c : forall acc,
  map_find c (fold_left (fun m pair => map_set sg (fst pair) (snd pair) m)
                entries acc)
    = match map_find c (rev entries) with
      | Some v => Some v
      | None => map_find c acc
      end.
Proof.
  induction entries as [|[k v] entries IH]; intros acc; [reflexivity|].
  cbn [fold_left fst snd rev]. rewrite IH, map_find_app.
  destruct (map_find c (rev entries)); [reflexivity|].
  cbn [map_find]. byte_cases c k.
  - apply map_find_set_same.
  - now apply map_find_set_other.
Qed.

Lemma table_of_entries_sorted sg (entries : list (byte * Z)) : forall acc,
  map_sorted sg acc ->
  map_sorted sg (fold_left (fun m pair => map_set sg (fst pair) (snd pair) m)
                   entries acc).
Proof.
  induction entries as [|[k v] entries IH]; intros acc Hs; [exact Hs|].
  cbn [fold_left]. apply IH. now apply map_set_sorted.
Qed.

(** X12: Whatever entries a container lists, in whatever order and with whatever
    repetitions, the table [decompressFile] builds from them is sorted by
    [char] value, has one entry for each byte listed, at most 256, and
    gives each byte the count of its last entry in the container. *)
Theorem table_read_last_entry_wins (char_signed : bool)
    (entries : list (byte * Z)) (rest : list byte) :
  Forall (fun pair => 0 <= snd pair < 2 ^ 32) entries ->
  exists freq,
    read_table char_signed (length entries) (write_table entries ++ rest) []
      = Ok (freq, rest)
    /\ map_sorted char_signed freq
    /\ (forall c, map_find c freq = map_find c (rev entries))
    /\ (forall c, In c (keys freq) <-> In c (map fst entries))
    /\ (length freq <= 256)%nat.
Proof.
  intros He. eexists. split; [now apply read_table_write|].
  assert (Hs : map_sorted char_signed
                 (fold_left (fun m pair => map_set char_signed (fst pair) (snd pair) m)
                    entries [])).
  { apply table_of_entries_sorted. constructor. }
  assert (Hfind : forall c,
            map_find c (fold_left
                          (fun m pair => map_set char_signed (fst pair) (snd pair) m)
                          entries [])
              = map_find c (rev entries)).
  { intros c. rewrite table_of_entries_find.
    destruct (map_find c (rev entries)); reflexivity. }
  split; [exact Hs|]. split; [exact Hfind|]. split.
  - intros c.
    pose proof (map_find_None c (fold_left
                  (fun m pair => map_set char_signed (fst pair) (snd pair) m)
                  entries [])) as H1.
    pose proof (map_find_None c (rev entries)) as H2.
    rewrite Hfind in H1. unfold keys in H2. rewrite map_rev, <- in_rev in H2.
    destruct (in_dec Byte.byte_eq_dec c (map fst entries)) as [Hi|Hi];
      destruct (in_dec Byte.byte_eq_dec c
                  (keys (fold_left
                     (fun m pair => map_set char_signed (fst pair) (snd pair) m)
                     entries []))) as [Hj|Hj]; try tauto.
  - pose proof (NoDup_bytes_length _ (sorted_NoDup char_signed _ Hs)) as Hl.
    unfold keys in Hl. now rewrite length_map in Hl.
Qed.

Lemma table_read_last_entry_wins_witness :
  Forall (fun pair => 0 <= snd pair < 2 ^ 32) [(x42, 7); (x41, 1); (x42, 3)]
  /\ exists freq,
       read_table true (length [(x42, 7); (x41, 1); (x42, 3)])
           (write_table [(x42, 7); (x41, 1); (x42, 3)] ++ [xff]) []
         = Ok (freq, [xff])
       /\ map_sorted true freq
       /\ (forall c, map_find c freq = map_find c (rev [(x42, 7); (x41, 1); (x42, 3)]))
       /\ (forall c, In c (keys freq) <-> In c (map fst [(x42, 7); (x41, 1); (x42, 3)]))
       /\ (length freq <= 256)%nat.
Proof.
  assert (H : Forall (fun pair : byte * Z => 0 <= snd pair < 2 ^ 32)
                [(x42, 7); (x41, 1); (x42, 3)]).
  { repeat (constructor; [simpl; lia|]). constructor. }
  split; [exact H|].
  exact (table_read_last_entry_wins true [(x42, 7); (x41, 1); (x42, 3)] [xff] H).
Defined.

(** ** The program *)

Lemma store_same name data d :
  Program.file (Program.store name data d) name = Some data.
Proof. cbn [Program.store Program.file]. now rewrite String.eqb_refl. Qed.

Lemma store_other name data d other :
  other <> name ->
  Program.file (Program.store name data d) other = Program.file d other.
Proof.
  intros H. cbn [Program.store Program.file].
  apply String.eqb_neq in H. now rewrite H.
Qed.

Lemma contents_create_other name d other data :
  other <> name -> Program.file d other = Some data ->
  Program.contents (Program.create name d) other = data.
Proof.
  intros Hne Hf. unfold Program.contents, Program.create.
  now rewrite store_other, Hf.
Qed.

Lemma contents_create_same name d :
  Program.contents (Program.create name d) name = [].
Proof.
  unfold Program.contents, Program.create. now rewrite store_same.
Qed.

(** X13: [main] returns 1 and leaves every file as it is when the input file
    cannot be opened, when the choice is neither [1] nor [2], and when the
    output file cannot be created.  When it returns at all, it returns 1 in
    those cases, with the disk unchanged, or 0 with the output file
    ([encoded.txt] for choice [1], [decoded.txt] for choice [2]) written and
    every other file as it was. *)
Theorem main_exit_and_files (char_signed : bool) (fuel : nat)
    (filename choice : String.string) (d : Program.disk) :
  (Program.file d filename = None ->
   Program.main char_signed fuel filename choice d = Ok (1, d))
  /\ (choice <> Program.compress_choice ->
      choice <> Program.decompress_choice ->
      Program.main char_signed fuel filename choice d = Ok (1, d))
  /\ (choice = Program.compress_choice ->
      Program.creatable d Program.encoded_txt = false ->
      Program.main char_signed fuel filename choice d = Ok (1, d))
  /\ (choice = Program.decompress_choice ->
      Program.creatable d Program.decoded_txt = false ->
      Program.main char_signed fuel filename choice d = Ok (1, d))
  /\ (forall code d',
      Program.main char_signed fuel filename choice d = Ok (code, d') ->
      (code = 1 /\ d' = d)
      \/ (code = 0 /\ Program.file d filename <> None
          /\ exists out_name data,
               ((choice = Program.compress_choice
                 /\ out_name = Program.encoded_txt)
                \/ (choice = Program.decompress_choice
                    /\ out_name = Program.decoded_txt))
               /\ Program.file d' out_name = Some data
               /\ (forall name, name <> out_name ->
                     Program.file d' name = Program.file d name))).
Proof.
  unfold Program.main.
  split; [intros ->; reflexivity|].
  split.
  { intros H1 H2. apply String.eqb_neq in H1. apply String.eqb_neq in H2.
    rewrite H1, H2. now destruct (Program.file d filename). }
  split.
  { intros -> Hc. rewrite Hc. now destruct (Program.file d filename). }
  split.
  { intros -> Hc. rewrite Hc. now destruct (Program.file d filename). }
  intros code d' H.
  destruct (Program.file d filename) as [text|] eqn:Ef;
    [|injection H as <- <-; now left].
  destruct (String.eqb choice Program.compress_choice) eqn:E1.
  { apply String.eqb_eq in E1.
    destruct (Program.creatable d Program.encoded_txt);
      [|injection H as <- <-; now left].
    cbv zeta in H.
    destruct (compressFile char_signed fuel _) as [container|f|];
      cbn [bind] in H; try discriminate.
    injection H as <- <-. right. split; [reflexivity|]. split; [discriminate|].
    exists Program.encoded_txt, container.
    split; [left; now split|]. split; [apply store_same|].
    intros name Hn. unfold Program.create. now rewrite !store_other. }
  destruct (String.eqb choice Program.decompress_choice) eqn:E2;
    [|injection H as <- <-; now left].
  apply String.eqb_eq in E2.
  destruct (Program.creatable d Program.decoded_txt);
    [|injection H as <- <-; now left].
  cbv zeta in H.
  destruct (decompressFile char_signed fuel _) as [out|f|];
    cbn [bind] in H; try discriminate.
  injection H as <- <-. right. split; [reflexivity|]. split; [discriminate|].
  exists Program.decoded_txt, out.
  split; [right; now split|]. split; [apply store_same|].
  intros name Hn. unfold Program.create. now rewrite !store_other.
Qed.

(** X14: Compressing a file with choice [1] and then decompressing [encoded.txt]
    with choice [2] leaves the file's bytes in [decoded.txt], when the file
    is not [encoded.txt] itself, both output files can be created, and the
    input is one the codec round-trips: table total at most 16386, fewer
    than 2^27 bytes, at least 16 bits of output. *)
Theorem main_round_trip (char_signed : bool) (fuel : nat)
    (filename : String.string) (d : Program.disk) (text : list byte)
    (bits : list bool) :
  Program.file d filename = Some text ->
  filename <> Program.encoded_txt ->
  Program.creatable d Program.encoded_txt = true ->
  Program.creatable d Program.decoded_txt = true ->
  enc_total char_signed text <= FIRST_QTR + 2 ->
  Z.of_nat (length text) < 2 ^ 27 ->
  (16 <= fuel)%nat ->
  encode_bits char_signed fuel text = Ok bits ->
  (16 <= length bits)%nat ->
  exists d1 d2,
    Program.main char_signed fuel filename Program.compress_choice d = Ok (0, d1)
    /\ Program.main char_signed fuel Program.encoded_txt
         Program.decompress_choice d1 = Ok (0, d2)
    /\ Program.file d2 Program.decoded_txt = Some text
    /\ (forall name, name <> Program.encoded_txt ->
          name <> Program.decoded_txt ->
          Program.file d2 name = Program.file d name).
Proof.
  intros Hf Hne Hc1 Hc2 Htot Hlen Hfuel Hbits H16.
  destruct (round_trip_bits char_signed fuel text Htot Hlen Hfuel)
    as (bits' & Hbits' & Hblen & Hdec).
  rewrite Hbits in Hbits'. injection Hbits' as <-.
  set (container := write_container (calculateFrequencies char_signed text)
                      (wrap32 (Z.of_nat (length text))) bits).
  assert (Hcomp : compressFile char_signed fuel text = Ok container)
    by (unfold compressFile; rewrite Hbits; reflexivity).
  assert (Hdecomp : decompressFile char_signed fuel container = Ok text)
    by (unfold container; rewrite decompress_container by lia; now apply Hdec).
  set (d1 := Program.store Program.encoded_txt container
               (Program.create Program.encoded_txt d)).
  set (d2 := Program.store Program.decoded_txt text
               (Program.create Program.decoded_txt d1)).
  exists d1, d2.
  assert (Hd1 : Program.file d1 Program.encoded_txt = Some container)
    by apply store_same.
  split; [|split; [|split]].
  - unfold Program.main. rewrite Hf, Hc1. cbv zeta.
    rewrite (contents_create_other _ _ _ text Hne Hf), Hcomp. reflexivity.
  - unfold Program.main. rewrite Hd1.
    change (String.eqb Program.decompress_choice Program.compress_choice)
      with false.
    change (String.eqb Program.decompress_choice Program.decompress_choice)
      with true.
    cbv iota.
    change (Program.creatable d1 Program.decoded_txt)
      with (Program.creatable d Program.decoded_txt).
    rewrite Hc2. cbv zeta.
    rewrite (contents_create_other _ _ _ container) by (discriminate || exact Hd1).
    rewrite Hdecomp. reflexivity.
  - apply store_same.
  - intros name H1 H2. unfold d2, d1, Program.create.
    now rewrite !store_other.
Qed.

Lemma main_round_trip_witness :
  exists d1 d2,
    Program.main true 16 Program.compress_choice Program.compress_choice
        (Program.mkDisk
           (fun n => if String.eqb n Program.compress_choice
                     then Some sample_text else None)
           (fun _ => true))
      = Ok (0, d1)
    /\ Program.main true 16 Program.encoded_txt Program.decompress_choice d1
       = Ok (0, d2)
    /\ Program.file d2 Program.decoded_txt = Some sample_text
    /\ (forall name, name <> Program.encoded_txt ->
          name <> Program.decoded_txt ->
          Program.file d2 name
            = Program.file
                (Program.mkDisk
                   (fun n => if String.eqb n Program.compress_choice
                             then Some sample_text else None)
                   (fun _ => true)) name).
Proof.
  assert (Hb : encode_bits true 16 sample_text
               = Ok [false; false; false; false; false; false; true; true; true;
                     true; false; false; true; true; false; false; false; true;
                     true]) by (vm_compute; reflexivity).
  apply (main_round_trip true 16 Program.compress_choice
           (Program.mkDisk
              (fun n => if String.eqb n Program.compress_choice
                        then Some sample_text else None)
              (fun _ => true))
           sample_text _ eq_refl ltac:(discriminate) eq_refl eq_refl
           ltac:(vm_compute; discriminate) ltac:(vm_compute; reflexivity)
           (le_n 16) Hb).
  cbn [length]. lia.
Defined.

(** X15: The output file is emptied before the input is read.  So choice [1] on
    [encoded.txt] itself replaces it, whatever it held, by the 13-byte
    container of the empty input, and choice [2] on [decoded.txt] itself
    reads an empty file: the first read of [decompressFile] fails and
    [freq_size] is used without ever having been set. *)
Theorem main_on_its_own_output (char_signed : bool) (fuel : nat)
    (d : Program.disk) (old : list byte) :
  (Program.file d Program.encoded_txt = Some old ->
   Program.creatable d Program.encoded_txt = true ->
   exists d',
     Program.main char_signed fuel Program.encoded_txt Program.compress_choice d
       = Ok (0, d')
     /\ Program.file d' Program.encoded_txt
        = Some [x00; x00; x00; x00; x00; x00; x00; x00;
                x02; x00; x00; x00; x40])
  /\ (Program.file d Program.decoded_txt = Some old ->
      Program.creatable d Program.decoded_txt = true ->
      Program.main char_signed fuel Program.decoded_txt
        Program.decompress_choice d = Fault IndeterminateRead).
Proof.
  split.
  - intros Hf Hc. eexists. split.
    + unfold Program.main. rewrite Hf, Hc. cbv zeta.
      rewrite contents_create_same.
      change (String.eqb Program.compress_choice Program.compress_choice)
        with true.
      cbv iota.
      assert (He : compressFile char_signed fuel []
                   = Ok [x00; x00; x00; x00; x00; x00; x00; x00;
                         x02; x00; x00; x00; x40])
        by (destruct char_signed; reflexivity).
      rewrite He. reflexivity.
    + apply store_same.
  - intros Hf Hc. unfold Program.main. rewrite Hf, Hc. cbv zeta.
    change (String.eqb Program.decompress_choice Program.compress_choice)
      with false.
    change (String.eqb Program.decompress_choice Program.decompress_choice)
      with true.
    cbv iota. rewrite contents_create_same. reflexivity.
Qed.

Lemma main_on_its_own_output_witness :
  exists d',
    Program.main true 0 Program.encoded_txt Program.compress_choice
        (Program.mkDisk (fun _ => Some sample_text) (fun _ => true))
      = Ok (0, d')
    /\ Program.file d' Program.encoded_txt
       = Some [x00; x00; x00; x00; x00; x00; x00; x00;
               x02; x00; x00; x00; x40].
Proof.
  exact (proj1 (main_on_its_own_output true 0
                  (Program.mkDisk (fun _ => Some sample_text) (fun _ => true))
                  sample_text)
           eq_refl eq_refl).
Defined.

(** ** A container cut inside its header *)

Lemma read_u32_cases input :
  ((length input < 4)%nat /\ read_u32 input = Fault IndeterminateRead)
  \/ exists x rest,
       read_u32 input = Ok (x, rest)
       /\ length input = (4 + length rest)%nat /\ 0 <= x < 2 ^ 32.
Proof.
  destruct input as [|b0 [|b1 [|b2 [|b3 rest]]]];
    try (left; split; [cbn [length]; lia | reflexivity]).
  right. eexists. exists rest. split; [reflexivity|]. split; [reflexivity|].
  pose proof (byte_val_range b0). pose proof (byte_val_range b1).
  pose proof (byte_val_range b2). pose proof (byte_val_range b3). lia.
Qed.

Lemma read_table_cases sg n : forall input acc,
  ((length input < 5 * n)%nat
   /\ read_table sg n input acc = Fault IndeterminateRead)
  \/ exists freq rest,
       read_table sg n input acc = Ok (freq, rest)
       /\ length input = (5 * n + length rest)%nat.
Proof.
  induction n as [|n IH]; intros input acc.
  - right. exists acc, input. split; reflexivity.
  - cbn [read_table]. destruct input as [|c in1].
    + left. split; [cbn [length]; lia | reflexivity].
    + cbn [read_char bind].
      destruct (read_u32_cases in1) as [[Hs ->]|(x & in2 & -> & Hl & _)];
        cbn [bind].
      * left. split; [cbn [length]; lia | reflexivity].
      * destruct (IH in2 (map_set sg c x acc))
          as [[Hs ->]|(freq & rest & -> & Hl2)].
        -- left. split; [cbn [length]; lia | reflexivity].
        -- right. exists freq, rest. split; [reflexivity|].
           cbn [length]. lia.
Qed.

Lemma div32_fault a b f : div32 a b = Fault f -> f = DivisionByZero.
Proof. unfold div32. destruct (b =? 0); [congruence | discriminate]. Qed.

Lemma narrow_fault lo hi r f : narrow lo hi r = Fault f -> f = DivisionByZero.
Proof.
  unfold narrow.
  destruct (div32 (mul32 (range_of lo hi) (sr_high r)) (sr_count r)) eqn:E1;
    cbn [bind]; [| intros [= <-]; eapply div32_fault; eassumption | discriminate].
  destruct (div32 (mul32 (range_of lo hi) (sr_low r)) (sr_count r)) eqn:E2;
    cbn [bind]; [discriminate | intros [= <-]; eapply div32_fault; eassumption
                | discriminate].
Qed.

Lemma dec_renorm_no_fault fuel : forall s f, dec_renorm fuel s <> Fault f.
Proof.
  induction fuel as [|fuel IH]; intros s f; cbn [dec_renorm];
    destruct (dec_renorm_step s); try discriminate. apply IH.
Qed.

Lemma decode_symbol_fault sg fuel ranges total s f :
  decode_symbol sg fuel ranges total s = Fault f -> f = DivisionByZero.
Proof.
  unfold decode_symbol, scaled_of.
  destruct (div32 _ _) as [scaled_value|f'|] eqn:E; cbn [bind];
    [| intros [= <-]; eapply div32_fault; eassumption | discriminate].
  destruct (map_index sg no_range (scan_symbol ranges scaled_value) ranges)
    as [current_range ranges1].
  destruct (narrow (d_low s) (d_high s) current_range) as [[lo hi]|f'|] eqn:En;
    cbn [bind];
    [| intros [= <-]; eapply narrow_fault; eassumption | discriminate].
  pose proof (dec_renorm_no_fault fuel (mkDecoder lo hi (value s) (unread s)))
    as Hr.
  destruct (dec_renorm fuel _) as [s1|f'|]; cbn [bind]; try discriminate.
  now specialize (Hr f').
Qed.

Lemma decode_loop_fault sg fuel total n : forall ranges s f,
  decode_loop sg fuel ranges total n s = Fault f -> f = DivisionByZero.
Proof.
  induction n as [|n IH]; intros ranges s f; cbn [decode_loop]; [discriminate|].
  destruct (decode_symbol sg fuel ranges total s) as [[[ranges1 sym] s1]|f'|] eqn:E;
    cbn [bind];
    [| intros [= <-]; eapply decode_symbol_fault; eassumption | discriminate].
  destruct (decode_loop sg fuel ranges1 total n s1) as [[rest s2]|f'|] eqn:E2;
    cbn [bind]; [discriminate | intros [= <-]; eapply IH; eassumption
                | discriminate].
Qed.

Lemma decode_bits_fault sg fuel freq text_size bits f :
  decode_bits sg fuel freq text_size bits = Fault f -> f = DivisionByZero.
Proof.
  unfold decode_bits. destruct (buildCumulativeFreq sg freq) as [ranges total].
  destruct (decode_loop sg fuel ranges total _ _) as [[out s]|f'|] eqn:E;
    cbn [bind]; [discriminate | intros [= <-]; eapply decode_loop_fault; eassumption
                | discriminate].
Qed.

(** X16: [decompressFile] uses a variable that no read has set exactly when the
    input ends inside the header: when it has fewer than 4 bytes, or fewer
    than the 5 bytes for each declared table entry plus the 8 bytes of the
    two counts after its first 4.  Nothing is reported in that case; with a
    complete header every variable is set, whatever the payload. *)
Theorem header_cut_short (char_signed : bool) (fuel : nat) (input : list byte) :
  decompressFile char_signed fuel input = Fault IndeterminateRead
  <-> (length input < 4)%nat
      \/ exists freq_size rest,
           read_u32 input = Ok (freq_size, rest)
           /\ Z.of_nat (length rest) < 5 * freq_size + 8.
Proof.
  unfold decompressFile, readBitVector.
  destruct (read_u32_cases input) as [[Hs ->]|(fs & in1 & -> & Hl & Hfs)];
    cbn [bind].
  { split; [now left | reflexivity]. }
  destruct (read_table_cases char_signed (Z.to_nat fs) in1 [])
    as [[Hs1 ->]|(freq & in2 & -> & Hl1)]; cbn [bind].
  { split; [|reflexivity]. intros _. right. exists fs, in1.
    split; [reflexivity | lia]. }
  destruct (read_u32_cases in2) as [[Hs2 ->]|(ts & in3 & -> & Hl2 & _)];
    cbn [bind].
  { split; [|reflexivity]. intros _. right. exists fs, in1.
    split; [reflexivity | lia]. }
  destruct (read_u32_cases in3) as [[Hs3 ->]|(bs & in4 & -> & Hl3 & _)];
    cbn [bind].
  { split; [|reflexivity]. intros _. right. exists fs, in1.
    split; [reflexivity | lia]. }
  split.
  - intros H. apply decode_bits_fault in H. discriminate.
  - intros [Hs|(fs' & rest & [= <- <-] & Hs)]; exfalso; lia.
Qed.

(** ** The table depends on the counts only *)

Lemma sorted_head_least sg {V : Type} k (v : V) m c :
  map_sorted sg ((k, v) :: m) -> In c (keys m) -> char_lt sg k c.
Proof.
  unfold map_sorted. cbn [keys map fst]. intros Hs Hin.
  apply StronglySorted_inv in Hs. destruct Hs as [_ Hall].
  rewrite Forall_forall in Hall. now apply Hall.
Qed.

Lemma sorted_tail sg {V : Type} k (v : V) m :
  map_sorted sg ((k, v) :: m) -> map_sorted sg m.
Proof.
  unfold map_sorted. cbn [keys map fst]. intros Hs.
  now apply StronglySorted_inv in Hs.
Qed.

Lemma char_lt_irrefl sg c : ~ char_lt sg c c.
Proof. unfold char_lt. lia. Qed.

Lemma map_find_head_other sg {V : Type} k (v : V) m c :
  map_sorted sg ((k, v) :: m) -> char_lt sg c k ->
  map_find c ((k, v) :: m) = None.
Proof.
  intros Hs Hlt. apply map_find_None. cbn [keys map fst]. intros [->|Hin].
  - now apply char_lt_irrefl in Hlt.
  - pose proof (sorted_head_least sg k v m c Hs Hin) as H.
    unfold char_lt in *. lia.
Qed.

Lemma sorted_map_ext sg {V : Type} (m1 : @cmap V) : forall m2,
  map_sorted sg m1 -> map_sorted sg m2 ->
  (forall c, map_find c m1 = map_find c m2) -> m1 = m2.
Proof.
  induction m1 as [|[k1 v1] m1 IH]; intros m2 Hs1 Hs2 H.
  - destruct m2 as [|[k2 v2] m2]; [reflexivity|].
    specialize (H k2). cbn [map_find] in H. now rewrite eqb_refl in H.
  - destruct m2 as [|[k2 v2] m2].
    { specialize (H k1). cbn [map_find] in H. now rewrite eqb_refl in H. }
    assert (Hk : k1 = k2).
    { destruct (Z.lt_total (char_val sg k1) (char_val sg k2)) as [Hlt|[He|Hgt]].
      - pose proof (map_find_head_other sg k2 v2 m2 k1 Hs2 Hlt) as Hn.
        rewrite <- H in Hn. cbn [map_find] in Hn. now rewrite eqb_refl in Hn.
      - now apply char_val_inj in He.
      - pose proof (map_find_head_other sg k1 v1 m1 k2 Hs1 Hgt) as Hn.
        rewrite H in Hn. cbn [map_find] in Hn. now rewrite eqb_refl in Hn. }
    subst k2.
    pose proof (H k1) as Hv. cbn [map_find] in Hv. rewrite eqb_refl in Hv.
    injection Hv as <-. f_equal.
    apply IH; [now apply sorted_tail in Hs1 | now apply sorted_tail in Hs2|].
    intros c. specialize (H c). cbn [map_find] in H.
    byte_cases c k1; [|exact H].
    assert (Hn1 : map_find k1 m1 = None).
    { apply map_find_None. intros Hin.
      exact (char_lt_irrefl sg k1 (sorted_head_least sg k1 _ m1 k1 Hs1 Hin)). }
    assert (Hn2 : map_find k1 m2 = None).
    { apply map_find_None. intros Hin.
      exact (char_lt_irrefl sg k1 (sorted_head_least sg k1 _ m2 k1 Hs2 Hin)). }
    now rewrite Hn1, Hn2.
Qed.

(** X17: Two inputs in which every byte occurs equally often, or in which the
    occurrences of every byte agree once clamped at [MAX_FREQ], have the
    same frequency table and so the same table in their containers: the
    order of the bytes in the input, and occurrences beyond the 16383rd,
    leave no trace in it. *)
Theorem table_depends_on_counts (char_signed : bool) (text text' : list byte) :
  (forall c, Z.min (occurrences c text) MAX_FREQ
             = Z.min (occurrences c text') MAX_FREQ) ->
  calculateFrequencies char_signed text = calculateFrequencies char_signed text'.
Proof.
  intros H.
  apply (sorted_map_ext char_signed); try apply calculateFrequencies_sorted.
  intros c. rewrite !calculateFrequencies_find. specialize (H c).
  pose proof (occurrences_nonneg c text). pose proof (occurrences_nonneg c text').
  unfold MAX_FREQ in *.
  destruct (Z.eqb_spec (occurrences c text) 0),
           (Z.eqb_spec (occurrences c text') 0); try lia; try reflexivity.
  now rewrite H.
Qed.

Lemma table_depends_on_counts_witness :
  (forall c, Z.min (occurrences c [x41; x42; x41]) MAX_FREQ
             = Z.min (occurrences c [x42; x41; x41]) MAX_FREQ)
  /\ calculateFrequencies true [x41; x42; x41]
     = calculateFrequencies true [x42; x41; x41].
Proof.
  assert (H : forall c, Z.min (occurrences c [x41; x42; x41]) MAX_FREQ
                        = Z.min (occurrences c [x42; x41; x41]) MAX_FREQ).
  { intros c. rewrite !occurrences_cons.
    destruct (Byte.eqb c x41), (Byte.eqb c x42); reflexivity. }
  split; [exact H|].
  exact (table_depends_on_counts true [x41; x42; x41] [x42; x41; x41] H).
Defined.

(** ** The length of what is decompressed *)

(** X18: When decompressing a container that [compressFile] wrote returns, its
    output has the length of the input modulo 2^32, the width of the stored
    symbol count; so an input of 2^32 bytes or more never comes back. *)
Theorem decompressed_length (char_signed : bool) (fuel fuel' : nat)
    (text container out : list byte) :
  compressFile char_signed fuel text = Ok container ->
  decompressFile char_signed fuel' container = Ok out ->
  Z.of_nat (length out) = Z.of_nat (length text) mod 2 ^ 32
  /\ (2 ^ 32 <= Z.of_nat (length text) -> out <> text).
Proof.
  unfold compressFile. intros H Hd.
  destruct (encode_bits char_signed fuel text) as [bits|f|]; cbn [bind] in H;
    try discriminate.
  injection H as <-.
  pose proof (calculateFrequencies_sorted char_signed text) as Hs.
  pose proof (calculateFrequencies_ok char_signed text) as Hok.
  pose proof (NoDup_bytes_length _ (sorted_NoDup char_signed _ Hs)) as Hl.
  unfold keys in Hl. rewrite length_map in Hl.
  assert (He : Forall (fun pair : byte * Z => 0 <= snd pair < 2 ^ 32)
                 (calculateFrequencies char_signed text)).
  { apply Forall_forall. intros [c n] Hin. apply Hok in Hin. simpl.
    unfold MAX_FREQ in Hin. lia. }
  unfold write_container, writeBitVector in Hd.
  rewrite (wrap32_small (Z.of_nat (length (calculateFrequencies char_signed text))))
    in Hd by lia.
  pose proof (wrap32_range (Z.of_nat (length text))) as Ht.
  pose proof (wrap32_range (Z.of_nat (length bits))) as Hb.
  rewrite decompressFile_fields in Hd by (assumption || lia).
  apply decode_bits_length in Hd.
  assert (Hlen : Z.of_nat (length out) = Z.of_nat (length text) mod 2 ^ 32)
    by (fold (wrap32 (Z.of_nat (length text))); lia).
  split; [exact Hlen|].
  intros Hbig ->. unfold wrap32 in Ht. lia.
Qed.

Lemma decompressed_length_witness :
  compressFile true 16 sample_text
    = Ok [x04; x00; x00; x00; x41; x04; x00; x00; x00; x42; x03; x00; x00;
          x00; x43; x02; x00; x00; x00; x44; x01; x00; x00; x00; x0a; x00;
          x00; x00; x13; x00; x00; x00; x03; xcc; x60]
  /\ decompressFile true 16
       [x04; x00; x00; x00; x41; x04; x00; x00; x00; x42; x03; x00; x00;
        x00; x43; x02; x00; x00; x00; x44; x01; x00; x00; x00; x0a; x00;
        x00; x00; x13; x00; x00; x00; x03; xcc; x60]
     = Ok sample_text
  /\ Z.of_nat (length sample_text) = Z.of_nat (length sample_text) mod 2 ^ 32
  /\ (2 ^ 32 <= Z.of_nat (length sample_text) -> sample_text <> sample_text).
Proof.
  assert (H1 : compressFile true 16 sample_text
    = Ok [x04; x00; x00; x00; x41; x04; x00; x00; x00; x42; x03; x00; x00;
          x00; x43; x02; x00; x00; x00; x44; x01; x00; x00; x00; x0a; x00;
          x00; x00; x13; x00; x00; x00; x03; xcc; x60])
    by (vm_compute; reflexivity).
  assert (H2 : decompressFile true 16
       [x04; x00; x00; x00; x41; x04; x00; x00; x00; x42; x03; x00; x00;
        x00; x43; x02; x00; x00; x00; x44; x01; x00; x00; x00; x0a; x00;
        x00; x00; x13; x00; x00; x00; x03; xcc; x60]
     = Ok sample_text) by (vm_compute; reflexivity).
  split; [exact H1|]. split; [exact H2|].
  exact (decompressed_length true 16 16 sample_text _ sample_text H1 H2).
Defined.

(** ** A symbol whose share of the interval is empty *)

(** X19: When the share of the interval that the narrowing gives a symbol is
    empty (both bounds of its range scale to the same offset, which happens
    only when the total exceeds the width of the interval), the registers
    are left with [high = low - 1], every pass of the inner loop takes its
    first or its second branch again, and the loop does not end, however
    many rounds it is given. *)
Theorem empty_share_never_ends (char_signed : bool) (fuel : nat)
    (ranges : @cmap SymbolRange) (total : Z) (c : byte) (s : coder)
    (r : SymbolRange) :
  sane (low s) (high s) -> 0 < total < 2 ^ 16 ->
  map_find c ranges = Some r -> valid_range total r ->
  (high s - low s + 1) * sr_high r / total
    = (high s - low s + 1) * sr_low r / total ->
  1 <= low s + (high s - low s + 1) * sr_low r / total ->
  high s - low s + 1 < total
  /\ encode_symbol char_signed fuel ranges c s = OutOfFuel.
Proof.
  intros Hs Ht Hf Hv Hempty Hpos. split.
  - destruct Hv as (Hlh & Hht & _). unfold sane in Hs.
    destruct (Z.lt_ge_cases (high s - low s + 1) total) as [|Hge]; [assumption|].
    pose proof (div_scale_lt (high s - low s + 1) (sr_low r) (sr_high r) total
                  ltac:(lia) ltac:(lia)). lia.
  - rewrite (encode_symbol_at char_signed fuel ranges c s r Hf).
    rewrite (narrow_sane _ _ r total Hs Hv Ht). cbn [bind].
    rewrite enc_renorm_collapsed; [reflexivity|].
    unfold collapsed. cbn [low high]. rewrite Hempty.
    destruct Hv as (Hlh & Hht & _). unfold sane, TOP in *.
    pose proof (div_scale_le (high s - low s + 1) (sr_low r) total
                  ltac:(lia) ltac:(lia) ltac:(lia)).
    rewrite wrap32_small by lia. lia.
Qed.

Lemma empty_share_never_ends_witness :
  sane (low (mkCoder 6 32771 0)) (high (mkCoder 6 32771 0))
  /\ 0 < 32767 < 2 ^ 16
  /\ map_find x61 collapsing_ranges = Some (mkRange 0 1 32767)
  /\ valid_range 32767 (mkRange 0 1 32767)
  /\ high (mkCoder 6 32771 0) - low (mkCoder 6 32771 0) + 1 < 32767
  /\ encode_symbol true 5 collapsing_ranges x61 (mkCoder 6 32771 0) = OutOfFuel.
Proof.
  assert (H1 : sane (low (mkCoder 6 32771 0)) (high (mkCoder 6 32771 0)))
    by (unfold sane, TOP; cbn [low high]; lia).
  assert (H2 : 0 < 32767 < 2 ^ 16) by lia.
  assert (H3 : map_find x61 collapsing_ranges = Some (mkRange 0 1 32767))
    by reflexivity.
  assert (H4 : valid_range 32767 (mkRange 0 1 32767))
    by (unfold valid_range; cbn [sr_low sr_high sr_count]; lia).
  repeat (split; [assumption|]).
  exact (empty_share_never_ends true 5 collapsing_ranges 32767 x61
           (mkCoder 6 32771 0) (mkRange 0 1 32767) H1 H2 H3 H4
           eq_refl ltac:(vm_compute; discriminate)).
Defined.

(** ** Sequences of fewer than 16 bits *)

Lemma prime_all bits : forall n v,
  (length bits <= n)%nat -> 0 <= v ->
  (v + 1) * 2 ^ Z.of_nat (length bits) <= 2 ^ 31 ->
  prime n v bits
    = (v * 2 ^ Z.of_nat (length bits) + window (length bits) bits, []).
Proof.
  induction bits as [|b bits IH]; intros n v Hlen Hv Hb.
  - destruct n; cbn [prime length window]; f_equal;
      change (2 ^ Z.of_nat 0) with 1; lia.
  - destruct n as [|n]; cbn [length] in *; [lia|].
    rewrite Nat2Z.inj_succ, Z.pow_succ_r in * by lia.
    assert (Hp : 0 < 2 ^ Z.of_nat (length bits)) by (apply Z.pow_pos_nonneg; lia).
    cbn [prime]. rewrite shl1_small by nia. rewrite lor_even_bit by lia.
    rewrite IH; [| lia | destruct b; cbn [bit_val]; lia
                 | destruct b; cbn [bit_val]; nia].
    change (window (S (length bits)) (b :: bits))
      with (bit_val b * 2 ^ Z.of_nat (length bits) + window (length bits) bits).
    f_equal. lia.
Qed.

Lemma window_short bits : forall n,
  (length bits <= n)%nat ->
  window n bits
    = window (length bits) bits * 2 ^ Z.of_nat (n - length bits).
Proof.
  induction bits as [|b bits IH]; intros n Hlen.
  - rewrite window_nil. reflexivity.
  - destruct n as [|n]; cbn [length] in *; [lia|].
    change (window (S n) (b :: bits))
      with (bit_val b * 2 ^ Z.of_nat n + window n bits).
    change (window (S (length bits)) (b :: bits))
      with (bit_val b * 2 ^ Z.of_nat (length bits) + window (length bits) bits).
    rewrite (IH n) by lia. cbn [Nat.sub].
    replace (Z.of_nat n)
      with (Z.of_nat (length bits) + Z.of_nat (n - length bits)) at 1 by lia.
    rewrite Z.pow_add_r by lia. lia.
Qed.

Lemma window_zeros n : forall bits k,
  window n (bits ++ repeat false k) = window n bits.
Proof.
  induction n as [|n IH]; intros bits k; [reflexivity|].
  destruct bits as [|b bits].
  - cbn [app]. destruct k as [|k]; [reflexivity|].
    cbn [repeat window bit_val]. specialize (IH [] k). cbn [app] in IH.
    rewrite IH, window_nil. reflexivity.
  - cbn [app window]. now rewrite IH.
Qed.

Lemma skipn_repeat {A : Type} (x : A) n : forall m,
  skipn m (repeat x n) = repeat x (n - m).
Proof.
  induction n as [|n IH]; intros m.
  - destruct m; reflexivity.
  - destruct m as [|m]; [reflexivity|]. cbn [repeat skipn Nat.sub]. apply IH.
Qed.

(** X20: The 16 bits of [value] are read by a loop that stops at the end of the
    sequence.  For a sequence of fewer than 16 bits, [value] is therefore
    the number the bits spell, not that number shifted up to 16 bits: it is
    smaller by the factor 2^(16 - length) than it is for the same sequence
    filled up with zero bits, and no bit is left to read. *)
Theorem priming_right_aligns (bits : list bool) :
  (length bits < 16)%nat ->
  init_decoder bits = mkDecoder 0 TOP (window (length bits) bits) []
  /\ value (init_decoder (bits ++ repeat false (16 - length bits)))
     = value (init_decoder bits) * 2 ^ Z.of_nat (16 - length bits).
Proof.
  intros Hlen.
  assert (Hp : 2 ^ Z.of_nat (length bits) <= 2 ^ 31)
    by (apply Z.pow_le_mono_r; lia).
  assert (Hinit : init_decoder bits
                  = mkDecoder 0 TOP (window (length bits) bits) []).
  { unfold init_decoder. rewrite (prime_all bits 16 0) by lia.
    rewrite Z.mul_0_l, Z.add_0_l. reflexivity. }
  split; [exact Hinit|].
  rewrite Hinit. cbn [value].
  rewrite init_decoder_window by (rewrite length_app, repeat_length; lia).
  unfold decoder_at. cbn [value].
  rewrite window_zeros. apply window_short. lia.
Qed.

Lemma priming_right_aligns_witness :
  (length [false; true; false; true] < 16)%nat
  /\ init_decoder [false; true; false; true]
     = mkDecoder 0 TOP (window (length [false; true; false; true])
                          [false; true; false; true]) []
  /\ value (init_decoder ([false; true; false; true]
              ++ repeat false (16 - length [false; true; false; true])))
     = value (init_decoder [false; true; false; true])
       * 2 ^ Z.of_nat (16 - length [false; true; false; true]).
Proof.
  assert (H : (length [false; true; false; true] < 16)%nat)
    by (cbn [length]; lia).
  split; [exact H|].
  exact (priming_right_aligns [false; true; false; true] H).
Defined.

(** X21: The bits the encoder writes always determine the input.  For an input
    whose table total is at most 16386 and which is shorter than 2^27 bytes,
    the container written with the same table and symbol count and with the
    bit sequence followed by enough zero bits to make it 16 bits long (up to
    16 of them) decompresses to the input, however short the sequence was. *)
Theorem zero_padded_bits_decode (char_signed : bool) (fuel : nat)
    (text : list byte) (k : nat) :
  enc_total char_signed text <= FIRST_QTR + 2 ->
  Z.of_nat (length text) < 2 ^ 27 ->
  (16 <= fuel)%nat ->
  (k <= 16)%nat ->
  exists bits,
    encode_bits char_signed fuel text = Ok bits
    /\ ((16 <= length bits + k)%nat ->
        decompressFile char_signed fuel
            (write_container (calculateFrequencies char_signed text)
               (wrap32 (Z.of_nat (length text))) (bits ++ repeat false k))
          = Ok text).
Proof.
  intros Htot Hlen Hfuel Hk.
  destruct (enc_table char_signed text) as (_ & _ & Htab & _).
  pose proof (table_ok_ranges_ok _ _ Htab) as Hok.
  assert (Hhead : at_head init_coder (length text)) by (apply at_head_init; lia).
  destruct (encode_loop_total char_signed fuel _ _ text init_coder Hok Htot)
    as (s' & bits & Hl); try assumption.
  { intros c Hin Hnone. apply map_find_None in Hnone. apply Hnone.
    destruct (enc_table char_signed text) as (-> & _).
    rewrite keys_ranges_from. now apply calculateFrequencies_keys. }
  destruct (loop_sim char_signed fuel _ _ text init_coder s' bits Htab Htot Hhead Hl)
    as (Hblen & V & HF & HV & d' & Hdec).
  cbn [init_coder pending_bits low high] in HF, Hdec, Hblen.
  change (Z.to_nat 0) with O in HF. apply frames_0_inv in HF. subst V.
  exists (bits ++ final_bits s').
  split; [rewrite encode_bits_unfold, Hl; reflexivity|].
  intros H16.
  rewrite decompress_container by (rewrite ?length_app, ?repeat_length in *; lia).
  unfold decode_bits.
  rewrite (surjective_pairing
             (buildCumulativeFreq char_signed (calculateFrequencies char_signed text))).
  fold (enc_ranges char_signed text). fold (enc_total char_signed text).
  rewrite Nat2Z.id.
  assert (Hp : pads (decoder_at 0 TOP (bits ++ final_bits s'))
                    (init_decoder ((bits ++ final_bits s') ++ repeat false k))).
  { rewrite init_decoder_window by (rewrite length_app, repeat_length; exact H16).
    unfold pads, decoder_at. cbn [d_low d_high value unread].
    rewrite window_zeros. repeat (split; [reflexivity|]).
    rewrite skipn_app, skipn_repeat. eauto. }
  pose proof (decode_loop_pads char_signed fuel (enc_total char_signed text)
                (length text) (enc_ranges char_signed text) _ _ Hp) as H.
  rewrite Hdec in H. destruct H as (s2 & -> & _). reflexivity.
Qed.

Lemma zero_padded_bits_decode_witness :
  enc_total true short_text <= FIRST_QTR + 2
  /\ Z.of_nat (length short_text) < 2 ^ 27
  /\ (16 <= 16)%nat /\ (12 <= 16)%nat
  /\ exists bits,
       encode_bits true 16 short_text = Ok bits
       /\ ((16 <= length bits + 12)%nat ->
           decompressFile true 16
               (write_container (calculateFrequencies true short_text)
                  (wrap32 (Z.of_nat (length short_text)))
                  (bits ++ repeat false 12))
             = Ok short_text).
Proof.
  assert (H1 : enc_total true short_text <= FIRST_QTR + 2)
    by (vm_compute; discriminate).
  assert (H2 : Z.of_nat (length short_text) < 2 ^ 27)
    by (vm_compute; reflexivity).
  assert (H4 : (12 <= 16)%nat) by lia.
  split; [exact H1|]. split; [exact H2|]. split; [apply le_n|].
  split; [exact H4|].
  exact (zero_padded_bits_decode true 16 short_text 12 H1 H2 (le_n 16) H4).
Defined.

(** ** A symbol count of zero, and an empty table *)

Lemma scaled_of_ok_any s total :
  dec_ok s -> exists v, scaled_of s total = Ok v.
Proof.
  unfold dec_ok, sane, TOP. intros [Hs Hv]. unfold scaled_of, div32.
  rewrite range_of_sane by (unfold sane, TOP; lia).
  destruct (Z.eqb_spec (d_high s - d_low s + 1) 0); [lia|]. eauto.
Qed.

(** X22: With a complete header, a container that declares no symbol is
    decompressed to the empty output whatever its table and its bits are;
    one that declares at least one symbol and has an empty table makes
    [decompressFile] divide by zero at its first symbol: no range holds the
    scaled value, the symbol stays the byte 0, and [ranges[symbol]] is a
    fresh entry whose count is 0. *)
Theorem no_symbols_or_no_table (char_signed : bool) (fuel : nat)
    (entries : @cmap Z) (text_size bitSize : Z) (payload : list byte) :
  Forall (fun pair => 0 <= snd pair < 2 ^ 32) entries ->
  Z.of_nat (length entries) < 2 ^ 32 ->
  0 <= bitSize < 2 ^ 32 ->
  1 <= text_size < 2 ^ 32 ->
  decompressFile char_signed fuel
      (le32 (Z.of_nat (length entries)) ++ write_table entries
         ++ le32 0 ++ le32 bitSize ++ payload)
    = Ok []
  /\ decompressFile char_signed fuel
       (le32 0 ++ le32 text_size ++ le32 bitSize ++ payload)
     = Fault DivisionByZero.
Proof.
  intros He Hn Hb Ht. split.
  - rewrite decompressFile_fields by (assumption || lia).
    unfold decode_bits.
    destruct (buildCumulativeFreq char_signed _) as [ranges total].
    reflexivity.
  - pose proof (decompressFile_fields char_signed fuel [] text_size bitSize
                  payload (Forall_nil _) ltac:(simpl; lia) ltac:(lia) Hb) as H.
    cbn [length write_table flat_map app] in H.
    change (Z.of_nat 0) with 0 in H. rewrite H.
    unfold decode_bits, table_of_entries.
    cbn [fold_left buildCumulativeFreq sum_counts build_ranges].
    destruct (Z.to_nat text_size) as [|n] eqn:En; [lia|].
    cbn [decode_loop]. unfold decode_symbol.
    destruct (scaled_of_ok_any (init_decoder
                (firstn (Z.to_nat bitSize)
                   (flat_map (msb_bits char_signed 8) payload))) 0
                (init_decoder_ok _)) as (v & ->).
    cbn [bind]. unfold scan_symbol, map_index. cbn [scan map_find].
    rewrite narrow_no_range. reflexivity.
Qed.

Lemma no_symbols_or_no_table_witness :
  Forall (fun pair => 0 <= snd pair < 2 ^ 32) sample_table
  /\ Z.of_nat (length sample_table) < 2 ^ 32
  /\ 0 <= 19 < 2 ^ 32
  /\ 1 <= 10 < 2 ^ 32
  /\ decompressFile true 0
       (le32 (Z.of_nat (length sample_table)) ++ write_table sample_table
          ++ le32 0 ++ le32 19 ++ [x03; xcc; x60])
     = Ok []
  /\ decompressFile true 0 (le32 0 ++ le32 10 ++ le32 19 ++ [x03; xcc; x60])
     = Fault DivisionByZero.
Proof.
  assert (H1 : Forall (fun pair : byte * Z => 0 <= snd pair < 2 ^ 32) sample_table).
  { repeat (constructor; [simpl; lia|]). constructor. }
  assert (H2 : Z.of_nat (length sample_table) < 2 ^ 32) by (simpl; lia).
  assert (H3 : 0 <= 19 < 2 ^ 32) by lia.
  assert (H4 : 1 <= 10 < 2 ^ 32) by lia.
  repeat (split; [assumption|]).
  exact (no_symbols_or_no_table true 0 sample_table 10 19 [x03; xcc; x60]
           H1 H2 H3 H4).
Defined.

(** * The encoder against the specification's description *)

Lemma zsum_nonneg (freq : @cmap Z) :
  Forall (fun pair => 0 <= snd pair) freq -> 0 <= zsum (map snd freq).
Proof.
  induction 1 as [|[c n] freq Hn _ IH]; [reflexivity|].
  cbn [map snd]. rewrite zsum_cons. simpl in Hn. lia.
Qed.

(** The table [buildCumulativeFreq] builds is the one of section 4.2: no sum
    of counts wraps around. *)
Lemma cumulative_ranges_from (freq : @cmap Z) total : forall cumulative,
  Forall (fun pair => 0 <= snd pair) freq ->
  0 <= cumulative -> cumulative + zsum (map snd freq) < 2 ^ 32 ->
  ranges_from freq total cumulative = Spec.cumulative freq total cumulative.
Proof.
  induction freq as [|[c n] freq IH]; intros cum Hpos Hc Hlt; [reflexivity|].
  inversion Hpos as [|? ? Hn Hpos']; subst. simpl in Hn.
  pose proof (zsum_nonneg freq Hpos') as Hz.
  cbn [map snd] in Hlt. rewrite zsum_cons in Hlt.
  cbn [ranges_from Spec.cumulative].
  rewrite add32_small by lia. rewrite IH by (assumption || lia). reflexivity.
Qed.

Lemma enc_ranges_spec sg text :
  enc_ranges sg text = Spec.ranges_of (calculateFrequencies sg text).
Proof.
  destruct (enc_table sg text) as (Hr & Ht & _ & Hb).
  rewrite Hr, Ht. unfold Spec.ranges_of. rewrite Ht in Hb.
  apply cumulative_ranges_from;
    [apply counts_ok_nonneg, calculateFrequencies_ok | lia
     | unfold MAX_FREQ in Hb; lia].
Qed.

(** The narrowing of the code is the narrowing of the integers where the
    interval at the head of the loop is wider than the total. *)
Lemma narrow_spec s r total l h :
  sane (low s) (high s) -> FIRST_QTR + 2 <= high s - low s + 1 ->
  valid_range total r -> 0 < total <= FIRST_QTR + 2 ->
  narrow (low s) (high s) r = Ok (l, h) ->
  Spec.narrowed s r = mkCoder l h (pending_bits s).
Proof.
  intros Hs Hw Hv Ht H. unfold FIRST_QTR, TOP in *.
  change ((65535 + 1) / 4) with 16384 in *.
  rewrite (narrow_sane _ _ r total) in H by (assumption || lia).
  injection H as <- <-.
  destruct Hv as (Hlh & Hht & Hc). unfold sane, TOP in *.
  pose proof (div_scale_le (high s - low s + 1) (sr_low r) total
                ltac:(lia) ltac:(lia) ltac:(lia)).
  pose proof (div_scale_le (high s - low s + 1) (sr_high r) total
                ltac:(lia) ltac:(lia) ltac:(lia)).
  pose proof (div_scale_lt (high s - low s + 1) (sr_low r) (sr_high r) total
                ltac:(lia) ltac:(lia)).
  rewrite wrap32_small by lia.
  unfold Spec.narrowed. rewrite Hc.
  rewrite !Z.quot_div_nonneg by nia. reflexivity.
Qed.

(** One pass of the code's loop is the step of the specification that
    applies. *)
Lemma enc_renorm_step_spec s :
  sane (low s) (high s) -> 0 <= pending_bits s -> pending_bits s + 1 < 2 ^ 32 ->
  match enc_renorm_step s with
  | None => ~ Spec.E1 s /\ ~ Spec.E2 s /\ ~ Spec.E3 s
  | Some (s1, bits1) =>
      (Spec.E1 s
       /\ s1 = mkCoder (2 * low s) (2 * high s + 1) 0
       /\ bits1 = Spec.bit_plus_pending false (pending_bits s))
      \/ (~ Spec.E1 s /\ Spec.E2 s
          /\ s1 = mkCoder (2 * (low s - HALF)) (2 * (high s - HALF) + 1) 0
          /\ bits1 = Spec.bit_plus_pending true (pending_bits s))
      \/ (~ Spec.E1 s /\ ~ Spec.E2 s /\ Spec.E3 s
          /\ s1 = mkCoder (2 * (low s - FIRST_QTR))
                          (2 * (high s - FIRST_QTR) + 1) (pending_bits s + 1)
          /\ bits1 = [])
  end.
Proof.
  unfold sane, enc_renorm_step, Spec.E1, Spec.E2, Spec.E3, TOP.
  intros Hs Hp0 Hp1.
  destruct (Z.ltb_spec (high s) HALF) as [H1|H1].
  { left. split; [exact H1|]. split; [|reflexivity].
    unfold HALF, FIRST_QTR, TOP in *. change ((65535 + 1) / 4) with 16384 in *.
    rewrite !shl1_small by lia. rewrite lor_even_1 by lia. reflexivity. }
  destruct (Z.leb_spec HALF (low s)) as [H2|H2].
  { right. left. split; [lia|]. split; [exact H2|]. split; [|reflexivity].
    unfold HALF, FIRST_QTR, TOP in *. change ((65535 + 1) / 4) with 16384 in *.
    rewrite !sub32_small by lia. rewrite !shl1_small by lia.
    rewrite lor_even_1 by lia. reflexivity. }
  destruct (Z.leb_spec FIRST_QTR (low s)) as [H3|H3];
    [|cbn [andb]; repeat split; lia].
  destruct (Z.ltb_spec (high s) THIRD_QTR) as [H4|H4];
    [|cbn [andb]; repeat split; lia].
  cbn [andb]. right. right.
  split; [lia|]. split; [lia|]. split; [split; assumption|].
  split; [|reflexivity].
  unfold HALF, THIRD_QTR, FIRST_QTR, TOP in *.
  change ((65535 + 1) / 4) with 16384 in *.
  rewrite !sub32_small by lia. rewrite !shl1_small by lia.
  rewrite lor_even_1 by lia. rewrite add32_small by lia. reflexivity.
Qed.

Lemma enc_renorm_spec fuel : forall s s2 bits k,
  sane (low s) (high s) ->
  0 <= pending_bits s -> 1 <= k ->
  2 ^ 16 < (high s - low s + 1) * 2 ^ k ->
  pending_bits s + k < 2 ^ 32 ->
  enc_renorm fuel s = Ok (s2, bits) ->
  Spec.renormalizes s bits s2.
Proof.
  induction fuel as [|fuel IH]; intros s s2 bits k Hs Hp0 Hk HR Hpk H;
    cbn [enc_renorm] in H;
    pose proof (enc_renorm_step_spec s Hs Hp0 ltac:(lia)) as Hstep;
    destruct (enc_renorm_step s) as [[s1 bits1]|] eqn:E; try discriminate.
  1, 3: injection H as <- <-; destruct Hstep as (? & ? & ?); now constructor.
  destruct (enc_renorm fuel s1) as [[s2' bits2]|f|] eqn:E2; cbn [bind] in H;
    try discriminate.
  injection H as Hs2 Hbits. subst s2' bits.
  destruct (step_narrower s s1 bits1 Hs E) as [Hnarrow Hdouble].
  assert (Hk2 : 2 <= k).
  { destruct (Z.eq_dec k 1) as [->|]; [|lia].
    unfold HALF, FIRST_QTR, TOP in Hnarrow. change ((65535 + 1) / 4) with 16384 in *.
    lia. }
  assert (HR1 : 2 ^ 16 < (high s1 - low s1 + 1) * 2 ^ (k - 1)).
  { rewrite Hdouble. replace k with (Z.succ (k - 1)) in HR by lia.
    rewrite Z.pow_succ_r in HR by lia. lia. }
  destruct (enc_renorm_step_keeps_sane s s1 bits1 Hs E) as [Hs1 _].
  destruct Hstep as [(H1 & -> & ->)|[(H1 & H2 & -> & ->)|(H1 & H2 & H3 & -> & ->)]].
  - apply Spec.R_E1; [exact H1|].
    apply (IH _ s2 bits2 (k - 1)); cbn [low high pending_bits] in *;
      try assumption; lia.
  - apply Spec.R_E2; [exact H1 | exact H2 |].
    apply (IH _ s2 bits2 (k - 1)); cbn [low high pending_bits] in *;
      try assumption; lia.
  - cbn [app]. apply Spec.R_E3; [exact H1 | exact H2 | exact H3 |].
    apply (IH _ s2 bits2 (k - 1)); cbn [low high pending_bits] in *;
      try assumption; lia.
Qed.

Lemma final_bits_spec s :
  0 <= pending_bits s -> pending_bits s + 1 < 2 ^ 32 ->
  final_bits s = Spec.resolving_bits s.
Proof.
  intros H0 H1. unfold final_bits, Spec.resolving_bits, Spec.bit_plus_pending.
  rewrite add32_small by lia. destruct (low s <? FIRST_QTR); reflexivity.
Qed.

Lemma encode_loop_spec sg fuel ranges total text : forall s s' bits,
  ranges_ok ranges total -> total <= FIRST_QTR + 2 ->
  at_head s (length text) ->
  encode_loop sg fuel ranges text s = Ok (s', bits) ->
  Spec.encodes ranges text s (bits ++ final_bits s').
Proof.
  induction text as [|c text IH]; intros s s' bits Hok Htot Hhead H;
    cbn [encode_loop] in H.
  - injection H as <- <-. cbn [app].
    destruct Hhead as (_ & _ & _ & Hp0 & Hp1). cbn [length] in Hp1.
    rewrite final_bits_spec by lia. constructor.
  - destruct (encode_symbol sg fuel ranges c s) as [[[ranges1 s1] bits1]|f|] eqn:E;
      cbn [bind] in H; try discriminate.
    cbn [length] in Hhead.
    destruct (encode_symbol_at_head sg fuel ranges total c s (length text) _ _ _
                Hok Htot Hhead E)
      as (r & l & h & Hf & Hv & -> & Hn & Hs1 & _ & _ & Hr & Hhead1 & _).
    destruct (encode_loop sg fuel ranges text s1) as [[s2 bits2]|f|] eqn:E2;
      cbn [bind] in H; try discriminate.
    injection H as Hs2 Hbits. subst s2 bits.
    destruct Hhead as (Hs & Hw & _ & Hp0 & Hpn).
    rewrite Nat2Z.inj_succ in Hpn.
    assert (Hpos : 0 < total) by (destruct Hv as (? & ? & _); lia).
    rewrite <- app_assoc.
    apply (Spec.Enc_symbol ranges c text s r bits1 s1); [exact Hf | | |].
    + destruct Hv as (_ & _ & ->). lia.
    + rewrite (narrow_spec s r total l h Hs Hw Hv (conj Hpos Htot) Hn).
      apply (enc_renorm_spec fuel _ s1 bits1 17); cbn [low high pending_bits];
        try assumption; try lia.
      unfold sane in Hs1. change (2 ^ 17) with 131072.
      change (2 ^ 16) with 65536. lia.
    + now apply (IH s1 s' bits2).
Qed.

(** The description of the specification determines the bits. *)
Lemma renormalizes_fun s bits s' :
  Spec.renormalizes s bits s' ->
  forall bits2 s2, Spec.renormalizes s bits2 s2 -> bits2 = bits /\ s2 = s'.
Proof.
  induction 1 as [s H1 H2 H3 | s bits s' H1 _ IH | s bits s' H1 H2 _ IH
                 | s bits s' H1 H2 H3 _ IH];
    intros bits2 s2 Hr; inversion Hr; subst; try contradiction.
  - split; reflexivity.
  - destruct (IH _ _ H0) as [-> ->]. split; reflexivity.
  - match goal with Hx : Spec.renormalizes _ _ s2 |- _ =>
      destruct (IH _ _ Hx) as [-> ->] end. split; reflexivity.
  - match goal with Hx : Spec.renormalizes _ _ s2 |- _ =>
      destruct (IH _ _ Hx) as [-> ->] end. split; reflexivity.
Qed.

Lemma encodes_fun ranges text : forall s bits,
  Spec.encodes ranges text s bits ->
  forall bits2, Spec.encodes ranges text s bits2 -> bits2 = bits.
Proof.
  intros s bits H. induction H as [s | c text s r bits1 s1 bits' Hf Hz Hr _ IH];
    intros bits2 H2; inversion H2; subst; [reflexivity|].
  match goal with
  | Hf2 : map_find c ranges = Some ?r2 |- _ =>
      rewrite Hf in Hf2; injection Hf2 as <-
  end.
  match goal with
  | Hr2 : Spec.renormalizes _ _ _ |- _ =>
      destruct (renormalizes_fun _ _ _ Hr _ _ Hr2) as [-> ->]
  end.
  f_equal. now apply IH.
Qed.

(** X24: For an input whose table total is at most [FIRST_QTR + 2] = 16386 and
    which is shorter than 2^27 bytes, the encoder ends (16 rounds of each
    inner loop suffice) and its bits are exactly the sequence that the
    steps of the specification determine when they are carried out on
    integers: the table of section 4.2, for every symbol in order the
    narrowing [high = low + range*symbolHigh/total - 1],
    [low = low + range*symbolLow/total] with truncating division, E1, E2 or
    E3 until none applies, and at the end the resolving bit with
    [pendingBits + 1] complements.  The table of the code is the table of
    section 4.2 for every input. *)
Theorem encoder_follows_integer_steps (char_signed : bool) (fuel : nat)
    (text : list byte) :
  enc_total char_signed text <= FIRST_QTR + 2 ->
  Z.of_nat (length text) < 2 ^ 27 ->
  (16 <= fuel)%nat ->
  fst (buildCumulativeFreq char_signed (calculateFrequencies char_signed text))
    = Spec.ranges_of (calculateFrequencies char_signed text)
  /\ exists bits,
       encode_bits char_signed fuel text = Ok bits
       /\ Spec.encodes (Spec.ranges_of (calculateFrequencies char_signed text))
            text init_coder bits
       /\ (forall bits',
             Spec.encodes (Spec.ranges_of (calculateFrequencies char_signed text))
               text init_coder bits' ->
             bits' = bits).
Proof.
  intros Htot Hlen Hfuel.
  pose proof (enc_ranges_spec char_signed text) as Hspec.
  split; [exact Hspec|].
  destruct (enc_table char_signed text) as (_ & _ & Htab & _).
  pose proof (table_ok_ranges_ok _ _ Htab) as Hok.
  assert (Hhead : at_head init_coder (length text)) by (apply at_head_init; lia).
  destruct (encode_loop_total char_signed fuel _ _ text init_coder Hok Htot)
    as (s' & bits & Hl); try assumption.
  { intros c Hin Hnone. apply map_find_None in Hnone. apply Hnone.
    destruct (enc_table char_signed text) as (-> & _).
    rewrite keys_ranges_from. now apply calculateFrequencies_keys. }
  pose proof (encode_loop_spec char_signed fuel _ _ text init_coder s' bits
                Hok Htot Hhead Hl) as Henc.
  rewrite Hspec in Henc.
  exists (bits ++ final_bits s').
  split; [rewrite encode_bits_unfold, Hl; reflexivity|].
  split; [exact Henc|].
  intros bits' H'. exact (encodes_fun _ _ _ _ Henc _ H').
Qed.

Lemma encoder_follows_integer_steps_witness :
  enc_total true sample_text <= FIRST_QTR + 2
  /\ Z.of_nat (length sample_text) < 2 ^ 27
  /\ (16 <= 16)%nat
  /\ fst (buildCumulativeFreq true (calculateFrequencies true sample_text))
     = Spec.ranges_of (calculateFrequencies true sample_text)
  /\ exists bits,
       encode_bits true 16 sample_text = Ok bits
       /\ Spec.encodes (Spec.ranges_of (calculateFrequencies true sample_text))
            sample_text init_coder bits
       /\ (forall bits',
             Spec.encodes (Spec.ranges_of (calculateFrequencies true sample_text))
               sample_text init_coder bits' ->
             bits' = bits).
Proof.
  assert (H1 : enc_total true sample_text <= FIRST_QTR + 2)
    by (vm_compute; discriminate).
  assert (H2 : Z.of_nat (length sample_text) < 2 ^ 27)
    by (vm_compute; reflexivity).
  split; [exact H1|]. split; [exact H2|]. split; [apply le_n|].
  exact (encoder_follows_integer_steps true 16 sample_text H1 H2 (le_n 16)).
Defined.

(** C2 fails on [wrapping_text], whose table has the total 65536.  The table
    is the one of section 4.2, and the range of the first byte, 0x05, is
    [[65532, 65536)].  The specification's narrowing gives
    [high = 0 + 65536*65536/65536 - 1 = 65535]; the code multiplies in 32
    bits, where 65536 * 65536 is 0, and leaves [high = 0 - 1 = 2^32 - 1]. *)
Theorem narrowing_wraps_on_large_total (char_signed : bool) :
  enc_total char_signed wrapping_text = 65536
  /\ enc_ranges char_signed wrapping_text
     = Spec.ranges_of (calculateFrequencies char_signed wrapping_text)
  /\ map_find x05 (enc_ranges char_signed wrapping_text)
     = Some (mkRange 65532 65536 65536)
  /\ Spec.narrowed init_coder (mkRange 65532 65536 65536)
     = mkCoder 65532 65535 0
  /\ narrow (low init_coder) (high init_coder) (mkRange 65532 65536 65536)
     = Ok (65532, 2 ^ 32 - 1)
  /\ enc_visits char_signed wrapping_text AfterNarrow
       (mkCoder 65532 (2 ^ 32 - 1) 0).
Proof.
  destruct (wrapping_enc_ranges char_signed) as [Hr Ht].
  split; [exact Ht|]. split; [apply enc_ranges_spec|].
  assert (Hf : map_find x05 (enc_ranges char_signed wrapping_text)
               = Some (mkRange 65532 65536 65536))
    by (rewrite Hr; reflexivity).
  split; [exact Hf|]. split; [reflexivity|].
  assert (Hn : narrow (low init_coder) (high init_coder)
                 (mkRange 65532 65536 65536) = Ok (65532, 2 ^ 32 - 1))
    by reflexivity.
  split; [exact Hn|].
  apply (EV_narrow char_signed wrapping_text 0 [] x05
           (repeat x01 16383 ++ repeat x02 16383 ++ repeat x03 16383
              ++ repeat x04 16383 ++ repeat x05 3) init_coder []).
  - reflexivity.
  - reflexivity.
  - unfold map_index. rewrite Hf. exact Hn.
Qed.

(** C7 fails on [collapsing_text], whose table has the total 32767.  When
    its third byte is reached the interval is [[6, 32771]], 32766 wide, and
    the share of that byte, with the range [[0, 1)], is empty: the narrowing
    leaves [low = 6] and [high = 5].  From there every pass of the inner
    loop takes its first or its second branch, and [compressFile] does not
    return. *)
Theorem interval_degenerates_on_large_total (char_signed : bool) (fuel : nat) :
  enc_total char_signed collapsing_text = 32767
  /\ enc_visits char_signed collapsing_text AfterNarrow (mkCoder 6 5 0)
  /\ high (mkCoder 6 5 0) < low (mkCoder 6 5 0)
  /\ compressFile char_signed fuel collapsing_text = OutOfFuel.
Proof.
  pose proof (collapsing_enc_ranges char_signed) as Hr.
  split.
  { unfold enc_total. rewrite collapsing_table. destruct char_signed; reflexivity. }
  split; [|split; [cbn [low high]; lia|]].
  - apply (EV_narrow char_signed collapsing_text 1 [x62; x62] x61
             (repeat x62 16381 ++ repeat x63 16383) (mkCoder 6 32771 0) [false]).
    + reflexivity.
    + rewrite Hr. cbn [encode_loop].
      rewrite collapse_symbol_1. cbn [bind]. rewrite collapse_symbol_2. reflexivity.
    + rewrite Hr. reflexivity.
  - apply compressFile_OutOfFuel. rewrite Hr. apply collapse_encode_loop.
Qed.
